(** * ItemList: an indexable, position-keyed list over an external order tree

    A shallow embedding of [ItemList] (src/internal/item_list.ts), the core
    behind the [List] and [Outline] facades, together with the statements of
    its specification that can be settled on the code.

    Conventions of the embedding:
    - a JavaScript [number] that the code uses as an integer is a [Z];
    - [throw new Error(...)] is the [Throw] outcome of the monad [M], which
      also threads the mutable fields of the object ([state],
      [cachedIndexNode], [cachedIndex]); a thrown error keeps the state as it
      was at the moment of the throw;
    - the [Map<OrderNode, NodeData>] is an association list in insertion
      order (the iteration order of a JavaScript [Map]), keyed by the node
      object, whose identity is its [id];
    - an [OrderNode] carries its [parent] reference, so the loops
      [current = current.parent] are structural recursions. *)

From Stdlib Require Import ZArith List Bool String Lia QArith.
Import ListNotations.
Open Scope Z_scope.

Set Implicit Arguments.
Set Warnings "-register-all".

(** ** Errors and outcomes *)

Inductive Error : Type :=
| InvalidPosition
| InvalidInsertion
| MissingNode
| IndexOutOfBounds
| InvalidCount
| InternalInvariantViolation
| TypeError.

Inductive Result (A : Type) : Type :=
| Ok (a : A)
| Throw (e : Error).

Arguments Ok {A} a.
Arguments Throw {A} e.

Definition isOk {A : Type} (r : Result A) : bool :=
  match r with Ok _ => true | Throw _ => false end.

(** ** Positions and the order tree (external collaborator) *)

Record Position : Type := mkPosition {
  nodeID : string;
  valueIndex : Z
}.

Definition equalsPosition (a b : Position) : bool :=
  String.eqb (nodeID a) (nodeID b) && (valueIndex a =? valueIndex b).

(** A node of the order tree.  [parent] is [None] exactly at the root. *)
Inductive OrderNode : Type := mkOrderNode {
  id : string;
  nextValueIndex : Z;
  parent : option OrderNode
}.

(** [a === b] on node objects: one object per id inside an [Order]. *)
Definition sameNode (a b : OrderNode) : bool := String.eqb (id a) (id b).

Definition sameNodeOpt (a : option OrderNode) (b : OrderNode) : bool :=
  match a with
  | Some a' => sameNode a' b
  | None => false
  end.

(** Induction along the [parent] references, from the root down. *)
Fixpoint OrderNode_parent_ind (P : OrderNode -> Prop)
  (step : forall i v p,
      (forall q, p = Some q -> P q) ->
      P {| id := i; nextValueIndex := v; parent := p |})
  (n : OrderNode) : P n :=
  match n with
  | mkOrderNode i v p =>
      step i v p
        (fun q =>
           match p as p0 return p0 = Some q -> P q with
           | Some q0 =>
               fun e =>
                 match e in _ = s
                       return match s with Some q1 => P q1 | None => True end
                 with
                 | eq_refl => OrderNode_parent_ind P step q0
                 end
           | None => fun e => match e with eq_refl => I end
           end)
  end.

(** What [ItemList] reads from its [Order]: the root, the lookup of a node by
    id, each node's children in list order ([childrenLength], [getChild]) and
    the two sentinel positions. *)
Record Order : Type := mkOrder {
  rootNode : OrderNode;
  getNode : string -> option OrderNode;
  getChildren : OrderNode -> list OrderNode;
  MIN_POSITION : Position;
  MAX_POSITION : Position
}.

Definition getNodeFor (order : Order) (pos : Position) : Result OrderNode :=
  match getNode order (nodeID pos) with
  | Some node => Ok node
  | None => Throw MissingNode
  end.

(** ** Sparse item store *)

Module Sparse.

Section Store.

Context {T : Type}.

(** Modelled from the spec: the module [sparse_items] ([SparseItems],
    [SparseItemsManager]) is not among the sources.  Section 4.1 describes a
    slot-indexed sequence stored as alternating present and absent runs. *)
Inductive Run : Type :=
| Present (vs : list T)
| Absent (n : Z).

Definition SparseItems : Type := list Run.

(** Modelled from the spec: [new(length)], the all-absent sequence of the
    given length (section 4.3, delete on a node without a record); the
    default length 0 is the empty sequence. *)
Definition new (length : Z) : SparseItems :=
  if length =? 0 then [] else [Absent length].

(** Modelled from the spec: [size(seq)], the total present count. *)
Fixpoint size (arr : SparseItems) : Z :=
  match arr with
  | [] => 0
  | Present vs :: rest => Z.of_nat (List.length vs) + size rest
  | Absent _ :: rest => size rest
  end.

(** Modelled from the spec: [isEmpty(seq)], no slot is present. *)
Definition isEmpty (arr : SparseItems) : bool := size arr =? 0.

(** Modelled from the spec: [getInfo(seq, i)] is
    [(value?, present, presentBefore)]: the value is defined iff the slot is
    present, and [presentBefore] counts the present slots in [[0, i)]. *)
Fixpoint getInfo (arr : SparseItems) (index : Z) : option T * bool * Z :=
  match arr with
  | [] => (None, false, 0)
  | Present vs :: rest =>
      let n := Z.of_nat (List.length vs) in
      if index <? n then (nth_error vs (Z.to_nat index), true, index)
      else
        let '(v, present, before) := getInfo rest (index - n) in
        (v, present, n + before)
  | Absent n :: rest =>
      if index <? n then (None, false, 0) else getInfo rest (index - n)
  end.

(** The slots of a sequence, one entry per slot. *)
Fixpoint toSlots (arr : SparseItems) : list (option T) :=
  match arr with
  | [] => []
  | Present vs :: rest => map Some vs ++ toSlots rest
  | Absent n :: rest => repeat None (Z.to_nat n) ++ toSlots rest
  end.

(** Run-length encoding of a slot list, adjacent runs of one presence
    merged. *)
Fixpoint ofSlots (slots : list (option T)) : SparseItems :=
  match slots with
  | [] => []
  | Some v :: rest =>
      match ofSlots rest with
      | Present vs :: runs => Present (v :: vs) :: runs
      | runs => Present [v] :: runs
      end
  | None :: rest =>
      match ofSlots rest with
      | Absent n :: runs => Absent (n + 1) :: runs
      | runs => Absent 1 :: runs
      end
  end.

(** Modelled from the spec: [trim(seq)] drops a trailing absent run. *)
Fixpoint trim (arr : SparseItems) : SparseItems :=
  match arr with
  | [] => []
  | run :: rest =>
      match run, trim rest with
      | Absent _, [] => []
      | _, rest' => run :: rest'
      end
  end.

(** The slots [[index, index + count)] of a slot list, absent past its end. *)
Definition window (slots : list (option T)) (index count : nat)
  : list (option T) :=
  firstn count (skipn index slots ++ repeat None count).

(** A slot list with the slots [[index, index + length written)]
    overwritten. *)
Definition overwrite (slots : list (option T)) (index : nat)
  (written : list (option T)) : list (option T) :=
  firstn index (slots ++ repeat None index)
  ++ written
  ++ skipn (index + List.length written) slots.

(** Modelled from the spec: [set(seq, i, item)] writes [length(item)] present
    slots starting at [i] and returns the new sequence, trimmed, with the
    sparse sub-sequence previously occupying [[i, i + length(item))]. *)
Definition set (arr : SparseItems) (index : Z) (item : list T)
  : SparseItems * SparseItems :=
  let slots := toSlots arr in
  (trim (ofSlots (overwrite slots (Z.to_nat index) (map Some item))),
   ofSlots (window slots (Z.to_nat index) (List.length item))).

(** Modelled from the spec: [delete(seq, i, n)], the same shape as [set] with
    [n] absent slots written. *)
Definition delete (arr : SparseItems) (index count : Z)
  : SparseItems * SparseItems :=
  let slots := toSlots arr in
  (trim (ofSlots (overwrite slots (Z.to_nat index)
                    (repeat None (Z.to_nat count)))),
   ofSlots (window slots (Z.to_nat index) (Z.to_nat count))).

(** The present slots of a slot list with their slot numbers, from slot
    [from] on. *)
Fixpoint presentFrom (slots : list (option T)) (from : Z) : list (Z * T) :=
  match slots with
  | [] => []
  | Some v :: rest => (from, v) :: presentFrom rest (from + 1)
  | None :: rest => presentFrom rest (from + 1)
  end.

(** Modelled from the spec: [findPresentIndex(seq, fromSlot, k)], the slot of
    the [k]-th present value at or after [fromSlot], counting from zero.  The
    caller guarantees that it exists; the model answers [-1] otherwise. *)
Definition findPresentIndex (arr : SparseItems) (fromSlot k : Z) : Z :=
  match
    nth_error
      (filter (fun e => fromSlot <=? fst e) (presentFrom (toSlots arr) 0))
      (Z.to_nat k)
  with
  | Some (slot, _) => slot
  | None => -1
  end.

(** Modelled from the spec: [slicer(seq)], a single-pass object; its state is
    the list of present slots not yet handed out. *)
Definition Slicer : Type := list (Z * T).

Definition newSlicer (arr : SparseItems) : Slicer :=
  presentFrom (toSlots arr) 0.

(** Modelled from the spec: [nextSlice(endSlot?)] yields the present slots
    strictly before [endSlot] (all of them when [endSlot] is null), resuming
    where the last call stopped. *)
Fixpoint nextSlice (slicer : Slicer) (endSlot : option Z)
  : list (Z * T) * Slicer :=
  match slicer with
  | [] => ([], [])
  | (slot, v) :: rest =>
      let inside :=
        match endSlot with
        | Some e => slot <? e
        | None => true
        end in
      if inside then
        let '(out, rest') := nextSlice rest endSlot in
        ((slot, v) :: out, rest')
      else ([], slicer)
  end.

End Store.

Arguments Run T : clear implicits.
Arguments SparseItems T : clear implicits.
Arguments Slicer T : clear implicits.

End Sparse.

(** ** The list state and its monad *)

Section ItemList.

Context {T : Type}.

(** List data associated to an [OrderNode]. *)
Record NodeData : Type := mkNodeData {
  total : Z;
  parentValuesBefore : Z;
  values : Sparse.SparseItems T
}.

(** The mutable fields of an [ItemList]. *)
Record ItemList : Type := mkItemList {
  state : list (OrderNode * NodeData);
  cachedIndexNode : option OrderNode;
  cachedIndex : Z
}.

(** [new ItemList(order, itemMan)]. *)
Definition empty : ItemList :=
  {| state := []; cachedIndexNode := None; cachedIndex := -1 |}.

(** [Map.prototype.get], [set] and [delete] on an insertion-ordered map: a
    [set] on a key that is present keeps the key's place, a [set] on a new key
    appends it, a [delete] leaves no entry under the key. *)
Fixpoint mapGet (m : list (OrderNode * NodeData)) (node : OrderNode)
  : option NodeData :=
  match m with
  | [] => None
  | (k, d) :: rest => if sameNode k node then Some d else mapGet rest node
  end.

Fixpoint mapSet (m : list (OrderNode * NodeData)) (node : OrderNode)
  (data : NodeData) : list (OrderNode * NodeData) :=
  match m with
  | [] => [(node, data)]
  | (k, d) :: rest =>
      if sameNode k node then (k, data) :: rest
      else (k, d) :: mapSet rest node data
  end.

Definition mapDelete (m : list (OrderNode * NodeData)) (node : OrderNode)
  : list (OrderNode * NodeData) :=
  filter (fun entry => negb (sameNode (fst entry) node)) m.

(** A method of [ItemList]: from the fields before the call to an outcome and
    the fields after it. *)
Definition M (A : Type) : Type := ItemList -> Result A * ItemList.

Definition ret {A : Type} (a : A) : M A := fun l => (Ok a, l).

Definition throw {A : Type} (e : Error) : M A := fun l => (Throw e, l).

Definition bind {A B : Type} (c : M A) (k : A -> M B) : M B :=
  fun l =>
    match c l with
    | (Ok a, l') => k a l'
    | (Throw e, l') => (Throw e, l')
    end.

Definition lift {A : Type} (r : Result A) : M A := fun l => (r, l).

Definition stateGet (node : OrderNode) : M (option NodeData) :=
  fun l => (Ok (mapGet (state l) node), l).

Definition stateSet (node : OrderNode) (data : NodeData) : M unit :=
  fun l =>
    (Ok tt,
     {| state := mapSet (state l) node data;
        cachedIndexNode := cachedIndexNode l;
        cachedIndex := cachedIndex l |}).

Definition stateDelete (node : OrderNode) : M unit :=
  fun l =>
    (Ok tt,
     {| state := mapDelete (state l) node;
        cachedIndexNode := cachedIndexNode l;
        cachedIndex := cachedIndex l |}).

Definition getCachedIndexNode : M (option OrderNode) :=
  fun l => (Ok (cachedIndexNode l), l).

Definition getCachedIndex : M Z := fun l => (Ok (cachedIndex l), l).

Definition setCachedIndexNode (node : option OrderNode) : M unit :=
  fun l =>
    (Ok tt,
     {| state := state l;
        cachedIndexNode := node;
        cachedIndex := cachedIndex l |}).

Definition setCachedIndex (index : Z) : M unit :=
  fun l =>
    (Ok tt,
     {| state := state l;
        cachedIndexNode := cachedIndexNode l;
        cachedIndex := index |}).

End ItemList.

Arguments NodeData T : clear implicits.
Arguments ItemList T : clear implicits.
Arguments M T A : clear implicits.

Declare Scope itemlist_scope.
Delimit Scope itemlist_scope with il.

Notation "x <- c ;; k" := (bind c (fun x => k))
  (at level 61, c at next level, right associativity) : itemlist_scope.
Notation "c ;; k" := (bind c (fun _ => k))
  (at level 61, right associativity) : itemlist_scope.

Open Scope itemlist_scope.

(** ** Mutators and maintenance *)

Inductive SearchDir : Type :=
| SearchNone
| SearchLeft
| SearchRight.

(** How the [for] loop over the children in [positionAt] is left. *)
Inductive ForExit : Type :=
| Returned (pos : Position)
| Broke (current : OrderNode)
| Completed.

Section Operations.

Context {T : Type}.

Variable order : Order.

Definition withTotal (data : NodeData T) (t : Z) : NodeData T :=
  {| total := t;
     parentValuesBefore := parentValuesBefore data;
     values := values data |}.

Definition withParentValuesBefore (data : NodeData T) (b : Z) : NodeData T :=
  {| total := total data;
     parentValuesBefore := b;
     values := values data |}.

Definition withValues (data : NodeData T) (v : Sparse.SparseItems T)
  : NodeData T :=
  {| total := total data;
     parentValuesBefore := parentValuesBefore data;
     values := v |}.

(** [getOrCreateData(node)].  The record it returns is the object held by the
    map under [node]; later writes to its fields are [stateSet node]. *)
Definition getOrCreateData (node : OrderNode) : M T (NodeData T) :=
  found <- stateGet node ;;
  match found with
  | Some data => ret data
  | None =>
      before <-
        match parent node with
        | Some p =>
            parentData <- stateGet p ;;
            match parentData with
            | Some pd =>
                ret (snd (Sparse.getInfo (values pd) (nextValueIndex node)))
            | None => ret 0
            end
        | None => ret 0
        end ;;
      let data :=
        {| total := 0;
           parentValuesBefore := before;
           values := Sparse.new 0 |} in
      stateSet node data ;;
      ret data
  end.

(** The loop "Update total for node and its ancestors" of [onUpdate], from
    [current] up to the root.  As in the source, the record read and written
    in each round is the one of [node], and the one deleted is [current]'s. *)
Fixpoint updateTotals (node : OrderNode) (delta : Z) (current : OrderNode)
  : M T unit :=
  data <- getOrCreateData node ;;
  let data' := withTotal data (total data + delta) in
  stateSet node data' ;;
  (if total data' =? 0 then stateDelete current else ret tt) ;;
  match parent current with
  | Some p => updateTotals node delta p
  | None => ret tt
  end.

(** The loop "Update child.parentValuesBefore for node's children". *)
Fixpoint updateChildren (nodeData : NodeData T) (children : list OrderNode)
  : M T unit :=
  match children with
  | [] => ret tt
  | child :: rest =>
      childData <- stateGet child ;;
      match childData with
      | None => ret tt
      | Some cd =>
          stateSet child
            (withParentValuesBefore cd
               (snd (Sparse.getInfo (values nodeData)
                       (nextValueIndex child))))
      end ;;
      updateChildren nodeData rest
  end.

(** [onUpdate(node, delta)]. *)
Definition onUpdate (node : OrderNode) (delta : Z) : M T unit :=
  cached <- getCachedIndexNode ;;
  (if sameNodeOpt cached node then ret tt else setCachedIndexNode None) ;;
  (if delta =? 0 then ret tt else updateTotals node delta node) ;;
  nodeData <- stateGet node ;;
  match nodeData with
  | Some nd => updateChildren nd (getChildren order node)
  | None => ret tt
  end.

(** [set(startPos, item)]; an item is the list of its values. *)
Definition set (startPos : Position) (item : list T)
  : M T (Sparse.SparseItems T) :=
  node <- lift (getNodeFor order startPos) ;;
  let length := Z.of_nat (List.length item) in
  if length =? 0 then ret (Sparse.new 0)
  else if sameNode node (rootNode order)
          && (valueIndex startPos + length - 1 >? 1)
  then throw InvalidPosition
  else
    data <- getOrCreateData node ;;
    let '(newArr, existing) :=
      Sparse.set (values data) (valueIndex startPos) item in
    stateSet node (withValues data (Sparse.trim newArr)) ;;
    onUpdate node (length - Sparse.size existing) ;;
    ret existing.

(** [delete(startPos, count)]. *)
Definition delete (startPos : Position) (count : Z)
  : M T (Sparse.SparseItems T) :=
  node <- lift (getNodeFor order startPos) ;;
  if count =? 0 then ret (Sparse.new 0)
  else if sameNode node (rootNode order)
          && (valueIndex startPos + count - 1 >? 1)
  then throw InvalidPosition
  else
    found <- stateGet node ;;
    match found with
    | None => ret (Sparse.new count)
    | Some data =>
        let '(newArr, existing) :=
          Sparse.delete (values data) (valueIndex startPos) count in
        stateSet node (withValues data (Sparse.trim newArr)) ;;
        onUpdate node (0 - Sparse.size existing) ;;
        ret existing
    end.

(** [clear()]. *)
Definition clear : M T unit :=
  fun l =>
    (Ok tt,
     {| state := []; cachedIndexNode := None; cachedIndex := cachedIndex l |}).

(** ** Accessors *)

(** [getInNode(node, valueIndex)]. *)
Definition getInNode (node : OrderNode) (index : Z)
  : M T (option T * bool * Z) :=
  found <- stateGet node ;;
  match found with
  | None => ret (None, false, 0)
  | Some data => ret (Sparse.getInfo (values data) index)
  end.

(** [get(pos)]; [None] is [undefined]. *)
Definition get (pos : Position) : M T (option T) :=
  node <- lift (getNodeFor order pos) ;;
  info <- getInNode node (valueIndex pos) ;;
  ret (fst (fst info)).

(** [has(pos)]. *)
Definition has (pos : Position) : M T bool :=
  node <- lift (getNodeFor order pos) ;;
  info <- getInNode node (valueIndex pos) ;;
  ret (snd (fst info)).

(** [total(node)]: [this.state.get(node)?.total ?? 0]. *)
Definition totalOf (node : OrderNode) : M T Z :=
  found <- stateGet node ;;
  match found with
  | Some data => ret (total data)
  | None => ret 0
  end.

(** The getter [length]. *)
Definition length : M T Z := totalOf (rootNode order).

(** The loop "Add totals for child nodes that come before valueIndex". *)
Fixpoint childrenBefore (children : list OrderNode) (index valuesBefore : Z)
  : M T Z :=
  match children with
  | [] => ret valuesBefore
  | child :: rest =>
      if negb (nextValueIndex child <=? index) then ret valuesBefore
      else
        t <- totalOf child ;;
        childrenBefore rest index (valuesBefore + t)
  end.

(** The loop "Sibling nodes that come before current". *)
Fixpoint siblingsBefore (siblings : list OrderNode) (current : OrderNode)
  (beforeNode : Z) : M T Z :=
  match siblings with
  | [] => ret beforeNode
  | child :: rest =>
      if sameNode child current then ret beforeNode
      else
        t <- totalOf child ;;
        siblingsBefore rest current (beforeNode + t)
  end.

(** The walk up the tree in [indexOfPosition]; in each round the record read
    for [parentValuesBefore] is the one of [current.parent]. *)
Fixpoint walkUp (current : OrderNode) (beforeNode : Z) : M T Z :=
  match parent current with
  | None => ret beforeNode
  | Some p =>
      parentData <- stateGet p ;;
      let beforeNode1 :=
        beforeNode
        + match parentData with
          | Some pd => parentValuesBefore pd
          | None => 0
          end in
      beforeNode2 <- siblingsBefore (getChildren order p) current beforeNode1 ;;
      walkUp p beforeNode2
  end.

(** [indexOfPosition(pos, searchDir)]. *)
Definition indexOfPosition (pos : Position) (searchDir : SearchDir) : M T Z :=
  node <- lift (getNodeFor order pos) ;;
  info <- getInNode node (valueIndex pos) ;;
  let isPresent := snd (fst info) in
  let nodeValuesBefore := snd info in
  valuesBefore <-
    childrenBefore (getChildren order node) (valueIndex pos)
      nodeValuesBefore ;;
  cached <- getCachedIndexNode ;;
  beforeNode <-
    (if sameNodeOpt cached node then getCachedIndex
     else
       b <- walkUp node 0 ;;
       setCachedIndexNode (Some node) ;;
       setCachedIndex b ;;
       ret b) ;;
  let valuesBefore' := valuesBefore + beforeNode in
  if isPresent then ret valuesBefore'
  else
    match searchDir with
    | SearchNone => ret (-1)
    | SearchLeft => ret (valuesBefore' - 1)
    | SearchRight => ret valuesBefore'
    end.

(** The [for] loop over the children of [current] in [positionAt]. *)
Fixpoint positionAtFor (current : OrderNode)
  (currentData : option (NodeData T)) (children : list OrderNode)
  (remaining nextValueIndex0 prevParentValuesBefore : Z) : M T ForExit :=
  match children with
  | [] => ret Completed
  | child :: rest =>
      childData <- stateGet child ;;
      match childData with
      | None =>
          positionAtFor current currentData rest remaining nextValueIndex0
            prevParentValuesBefore
      | Some cd =>
          let valuesBetween :=
            parentValuesBefore cd - prevParentValuesBefore in
          if remaining <? valuesBetween then
            match currentData with
            | Some d =>
                ret (Returned
                       {| nodeID := id current;
                          valueIndex :=
                            Sparse.findPresentIndex (values d)
                              nextValueIndex0 remaining |})
            | None => throw TypeError
            end
          else
            let remaining1 := remaining - valuesBetween in
            if remaining1 <? total cd then ret (Broke child)
            else
              positionAtFor current currentData rest
                (remaining1 - total cd) (nextValueIndex child)
                (parentValuesBefore cd)
      end
  end.

(** [positionAt(index)].  The body of [while (true)] is the [for] loop
    followed by the [throw]: a [break] out of the [for] loop, like the loop's
    running to its end, reaches the [throw], so the body runs once. *)
Definition positionAt (index : Z) : M T Position :=
  len <- length ;;
  if (index <? 0) || (index >=? len) then throw IndexOutOfBounds
  else
    let current := rootNode order in
    currentData <- stateGet current ;;
    exit <-
      positionAtFor current currentData (getChildren order current)
        index 0 0 ;;
    match exit with
    | Returned pos => ret pos
    | Broke _ => throw InternalInvariantViolation
    | Completed => throw InternalInvariantViolation
    end.

End Operations.

(** ** Iteration *)

Section Iteration.

Context {T : Type}.

Variable order : Order.

(** [normalizeSliceRange(start, end)] given [len = this.length]; [None] as an
    argument is [undefined], [None] as a result is [null]. *)
Definition normalizeSliceRange (len : Z) (start end_ : option Z)
  : option (Z * Z) :=
  let start1 :=
    match start with
    | None => Some 0
    | Some s =>
        if s <? - len then Some 0
        else if s <? 0 then Some (s + len)
        else if s >=? len then None
        else Some s
    end in
  match start1 with
  | None => None
  | Some s =>
      let e :=
        match end_ with
        | None => len
        | Some e0 =>
            if e0 >=? len then len
            else if e0 <? - len then 0
            else if e0 <? 0 then e0 + len
            else e0
        end in
      if e <=? s then None else Some (s, e)
  end.

(** A frame of the manual stack of [entries]. *)
Record Frame : Type := mkFrame {
  frameNode : OrderNode;
  frameData : NodeData T;
  nextChildIndex : nat;
  valuesSlicer : Sparse.Slicer T
}.

(** The [for ... of top.valuesSlicer.nextSlice(endValueIndex)] loop: the
    pairs it yields, the index after it, and whether it hit [return]. *)
Fixpoint emitSlice (node : OrderNode) (slice : list (Z * T))
  (start end_ index : Z) : list (Position * T) * Z * bool :=
  match slice with
  | [] => ([], index, false)
  | (slot, value) :: rest =>
      let out :=
        if index >=? start
        then [({| nodeID := id node; valueIndex := slot |}, value)]
        else [] in
      let index1 := index + 1 in
      if index1 >=? end_ then (out, index1, true)
      else
        let '(out', index2, returned) :=
          emitSlice node rest start end_ index1 in
        (out ++ out', index2, returned)
  end.

(** The [while (stack.length !== 0)] loop of [entries]; the top of the stack
    is the head of the list.  [None] when the rounds allowed by [fuel] do not
    empty the stack. *)
Fixpoint entriesLoop (fuel : nat) (l : ItemList T) (stack : list Frame)
  (start end_ index : Z) : option (list (Position * T)) :=
  match fuel with
  | O => None
  | S fuel' =>
      match stack with
      | [] => Some []
      | top :: below =>
          let node := frameNode top in
          let children := getChildren order node in
          let endValueIndex :=
            option_map nextValueIndex
              (nth_error children (nextChildIndex top)) in
          let '(slice, slicer') :=
            Sparse.nextSlice (valuesSlicer top) endValueIndex in
          let '(out, index1, returned) :=
            emitSlice node slice start end_ index in
          if returned then Some out
          else
            option_map (app out)
              match nth_error children (nextChildIndex top) with
              | None => entriesLoop fuel' l below start end_ index1
              | Some child =>
                  let top' :=
                    {| frameNode := node;
                       frameData := frameData top;
                       nextChildIndex := S (nextChildIndex top);
                       valuesSlicer := slicer' |} in
                  match mapGet (state l) child with
                  | None =>
                      entriesLoop fuel' l (top' :: below) start end_ index1
                  | Some childData =>
                      if index1 + total childData <=? start then
                        entriesLoop fuel' l (top' :: below) start end_
                          (index1 + total childData)
                      else
                        entriesLoop fuel' l
                          ({| frameNode := child;
                              frameData := childData;
                              nextChildIndex := 0;
                              valuesSlicer :=
                                Sparse.newSlicer (values childData) |}
                           :: top' :: below)
                          start end_ index1
                  end
              end
      end
  end.

(** [entries(start, end)], run to its end: the list of the pairs yielded. *)
Definition entries (fuel : nat) (l : ItemList T) (start end_ : option Z)
  : option (list (Position * T)) :=
  let len :=
    match mapGet (state l) (rootNode order) with
    | Some data => total data
    | None => 0
    end in
  match normalizeSliceRange len start end_ with
  | None => Some []
  | Some (s, e) =>
      match mapGet (state l) (rootNode order) with
      | None => None
      | Some rootData =>
          entriesLoop fuel l
            [{| frameNode := rootNode order;
                frameData := rootData;
                nextChildIndex := 0;
                valuesSlicer := Sparse.newSlicer (values rootData) |}]
            s e 0
      end
  end.

(** ** Save and load *)

(** [obj[key] = value] on a JavaScript object used as a dictionary. *)
Fixpoint objSet {S : Type} (obj : list (string * S)) (key : string)
  (value : S) : list (string * S) :=
  match obj with
  | [] => [(key, value)]
  | (k, v) :: rest =>
      if String.eqb k key then (k, value) :: rest
      else (k, v) :: objSet rest key value
  end.

Fixpoint saveLoop {S : Type} (saveArray : Sparse.SparseItems T -> S)
  (records : list (OrderNode * NodeData T)) (savedState : list (string * S))
  : list (string * S) :=
  match records with
  | [] => savedState
  | (node, data) :: rest =>
      saveLoop saveArray rest
        (if negb (Sparse.isEmpty (values data))
         then objSet savedState (id node) (saveArray (values data))
         else savedState)
  end.

(** [save(saveArray)]. *)
Definition save {S : Type} (saveArray : Sparse.SparseItems T -> S)
  (l : ItemList T) : list (string * S) :=
  saveLoop saveArray (state l) [].

Fixpoint loadLoop {S : Type} (loadArray : S -> Sparse.SparseItems T)
  (savedState : list (string * S)) : M T unit :=
  match savedState with
  | [] => ret tt
  | (nodeID0, savedArr) :: rest =>
      match getNode order nodeID0 with
      | None => throw MissingNode
      | Some node =>
          let vals := loadArray savedArr in
          data <- getOrCreateData node ;;
          let existingCount := Sparse.size (values data) in
          stateSet node (withValues data vals) ;;
          onUpdate order node (Sparse.size vals - existingCount) ;;
          loadLoop loadArray rest
      end
  end.

(** [load(savedState, loadArray)]. *)
Definition load {S : Type} (savedState : list (string * S))
  (loadArray : S -> Sparse.SparseItems T) : M T unit :=
  clear ;;
  loadLoop loadArray savedState.

End Iteration.

(** ** Insertion *)

(** [order.createPositions(prevPos, nextPos, count)]: the allocator of the
    order, which may add a node to the tree; it answers with the order after
    the call, the first new position and the node created, if any. *)
Definition CreatePositions : Type :=
  Order -> Position -> Position -> Z ->
  Result (Order * (Position * option OrderNode)).

Section Insertion.

Context {T : Type}.

Variable createPositions : CreatePositions.

(** [insert(prevPos, item)]. *)
Definition insert (order : Order) (prevPos : Position) (item : list T)
  : M T (Order * (Position * option OrderNode)) :=
  i <- indexOfPosition order prevPos SearchLeft ;;
  let nextIndex := i + 1 in
  nextPos <- positionAt order nextIndex ;;
  created <-
    lift (createPositions order prevPos nextPos
            (Z.of_nat (List.length item))) ;;
  set (fst created) (fst (snd created)) item ;;
  ret created.

(** [insertAt(index, item)]. *)
Definition insertAt (order : Order) (index : Z) (item : list T)
  : M T (Order * (Position * option OrderNode)) :=
  prevPos <-
    (if index =? 0 then ret (MIN_POSITION order)
     else positionAt order (index - 1)) ;;
  len <- length order ;;
  nextPos <-
    (if index =? len then ret (MAX_POSITION order)
     else positionAt order index) ;;
  created <-
    lift (createPositions order prevPos nextPos
            (Z.of_nat (List.length item))) ;;
  set (fst created) (fst (snd created)) item ;;
  ret created.

End Insertion.

(** ** [List.delete] of src/list.ts *)

Module ValueList.

Section Delete.

Context {T : Type}.

Variable order : Order.

(** [Number.isInteger(x)] on a rational standing for a finite JavaScript
    number. *)
Definition isInteger (x : Q) : bool :=
  (Qnum x mod Zpos (Qden x)) =? 0.

Definition toInteger (x : Q) : Z := Qnum x / Zpos (Qden x).

(** [List.delete(startPos, count)] (list.ts, lines 146-170).  Its
    [getOrCreateData] and [onUpdate] are those of [ItemList], line for line;
    [data.values.set(index, count)] with a number deletes [count] slots. *)
Definition delete (startPos : Position) (count : Q) : M T unit :=
  node <- lift (getNodeFor order startPos) ;;
  if Qeq_bool count 0 then ret tt
  else if negb (Qle_bool 0 count) || negb (isInteger count)
  then throw InvalidCount
  else
    let n := toInteger count in
    if sameNode node (rootNode order) && (valueIndex startPos + n - 1 >? 1)
    then throw InvalidPosition
    else
      found <- stateGet node ;;
      match found with
      | None => ret tt
      | Some data =>
          let '(newArr, existing) :=
            Sparse.delete (values data) (valueIndex startPos) n in
          stateSet node (withValues data (Sparse.trim newArr)) ;;
          onUpdate order node (0 - Sparse.size existing)
      end.

End Delete.

End ValueList.

(** ** The specification's reading *)

Module Spec.

Section Reference.

Context {T : Type}.

Variable order : Order.

(** Section 4.4, step 2, in the specification's words: walk from the node up
    to the root; for each ancestor create-if-missing a record and add the
    delta to its total; delete a record whose total reaches 0. *)
Fixpoint updateTotals (delta : Z) (current : OrderNode) : M T unit :=
  data <- getOrCreateData current ;;
  let data' := withTotal data (total data + delta) in
  stateSet current data' ;;
  (if total data' =? 0 then stateDelete current else ret tt) ;;
  match parent current with
  | Some p => updateTotals delta p
  | None => ret tt
  end.

(** Section 4.4 as a whole, with step 2 as above. *)
Definition onUpdate (node : OrderNode) (delta : Z) : M T unit :=
  cached <- getCachedIndexNode ;;
  (if sameNodeOpt cached node then ret tt else setCachedIndexNode None) ;;
  (if delta =? 0 then ret tt else updateTotals delta node) ;;
  nodeData <- stateGet node ;;
  match nodeData with
  | Some nd => updateChildren nd (getChildren order node)
  | None => ret tt
  end.

(** The slots of [node] that hold a value. *)
Definition presentSlots (l : ItemList T) (node : OrderNode) : list Z :=
  match mapGet (state l) node with
  | Some data => map fst (Sparse.newSlicer (values data))
  | None => []
  end.

Fixpoint insertSlot (v : Z) (slots : list Z) : list Z :=
  match slots with
  | [] => [v]
  | s :: rest =>
      if v <? s then v :: slots
      else if v =? s then slots
      else s :: insertSlot v rest
  end.

(** The present slots of [node], together with the slot of [mark] when
    [mark] is a position of [node]. *)
Definition slotsOf (l : ItemList T) (mark : option Position)
  (node : OrderNode) : list Z :=
  match mark with
  | Some m =>
      if String.eqb (nodeID m) (id node)
      then insertSlot (valueIndex m) (presentSlots l node)
      else presentSlots l node
  | None => presentSlots l node
  end.

(** Section 3.1, list order: the depth-first traversal in which a child with
    [nextValueIndex = v] sits immediately before slot [v] of its parent.
    [depth] bounds the height of the subtree visited. *)
Fixpoint listOrderFrom (depth : nat) (l : ItemList T)
  (mark : option Position) (node : OrderNode) : list Position :=
  match depth with
  | O => []
  | S depth' =>
      (fix interleave (children : list OrderNode) (slots : list Z)
         : list Position :=
         match children with
         | [] => map (mkPosition (id node)) slots
         | child :: rest =>
             map (mkPosition (id node))
               (filter (fun s => s <? nextValueIndex child) slots)
             ++ listOrderFrom depth' l mark child
             ++ interleave rest
                  (filter (fun s => negb (s <? nextValueIndex child)) slots)
         end) (getChildren order node) (slotsOf l mark node)
  end.

(** The present positions in list order. *)
Definition listOrder (depth : nat) (l : ItemList T) : list Position :=
  listOrderFrom depth l None (rootNode order).

Fixpoint positionIndex (pos : Position) (ps : list Position) : Z :=
  match ps with
  | [] => 0
  | p :: rest =>
      if equalsPosition p pos then 0 else 1 + positionIndex pos rest
  end.

(** The number of present values that precede [pos] in list order. *)
Definition valuesBefore (depth : nat) (l : ItemList T) (pos : Position) : Z :=
  positionIndex pos (listOrderFrom depth l (Some pos) (rootNode order)).

(** [Array.prototype.slice]: a negative relative index counts from the end,
    and the result is clamped to [[0, len]]. *)
Definition sliceIndex (len k : Z) : Z :=
  if k <? 0 then Z.max 0 (len + k) else Z.min k len.

(** The range [Array.prototype.slice(start, end)] covers, [None] when it is
    empty. *)
Definition sliceRange (len : Z) (start end_ : option Z) : option (Z * Z) :=
  let s := match start with Some k => sliceIndex len k | None => 0 end in
  let e := match end_ with Some k => sliceIndex len k | None => len end in
  if e <=? s then None else Some (s, e).

(** Section 8, invariants 1 and 2, on one record. *)
Definition recordInvariant (l : ItemList T) (entry : OrderNode * NodeData T)
  : bool :=
  (0 <? total (snd entry))
  && (total (snd entry)
      =? Sparse.size (values (snd entry))
         + fold_right
             (fun child acc =>
                match mapGet (state l) child with
                | Some data => total data + acc
                | None => acc
                end)
             0 (getChildren order (fst entry))).

Definition totalsInvariant (l : ItemList T) : bool :=
  forallb (recordInvariant l) (state l).

(** "A node has a record exactly when this total would be positive", the
    total being the number of present values at the node and below it. *)
Definition recordIffPositive (depth : nat) (l : ItemList T)
  (node : OrderNode) : bool :=
  Bool.eqb
    (match mapGet (state l) node with Some _ => true | None => false end)
    (0 <? Z.of_nat (List.length (listOrderFrom depth l None node))).

End Reference.

End Spec.

(** ** Two small order trees *)

Module Example.

Definition root : OrderNode :=
  {| id := "root"; nextValueIndex := 0; parent := None |}.

(** A child of the root anchored before the root's slot 1. *)
Definition c : OrderNode :=
  {| id := "c"; nextValueIndex := 1; parent := Some root |}.

Definition minPosition : Position := {| nodeID := "root"; valueIndex := 0 |}.

Definition maxPosition : Position := {| nodeID := "root"; valueIndex := 1 |}.

(** The order whose tree is the root alone. *)
Definition rootOnly : Order :=
  {| rootNode := root;
     getNode := fun i => if String.eqb i "root" then Some root else None;
     getChildren := fun _ => [];
     MIN_POSITION := minPosition;
     MAX_POSITION := maxPosition |}.

(** The order whose tree is the root with the one child [c]. *)
Definition rootAndChild : Order :=
  {| rootNode := root;
     getNode :=
       fun i =>
         if String.eqb i "root" then Some root
         else if String.eqb i "c" then Some c
         else None;
     getChildren := fun n => if String.eqb (id n) "root" then [c] else [];
     MIN_POSITION := minPosition;
     MAX_POSITION := maxPosition |}.

Definition at_ (node : OrderNode) (slot : Z) : Position :=
  {| nodeID := id node; valueIndex := slot |}.

(** The list after a call, whatever its outcome. *)
Definition after {A : Type} (call : M string A) (l : ItemList string)
  : ItemList string :=
  snd (call l).

(** An allocator that always hands out the slots of [c] from 0 on. *)
Definition allocateInChild : CreatePositions :=
  fun order _ _ _ => Ok (order, (at_ c 0, None)).

(** Over [rootOnly]: [set((root, 0), "a")] on the empty list. *)
Definition rootSet : ItemList string :=
  after (set rootOnly (at_ root 0) ["a"%string]) empty.

(** Over [rootAndChild]: [set((c, 0), "y")] on the empty list. *)
Definition childSet : ItemList string :=
  after (set rootAndChild (at_ c 0) ["y"%string]) empty.

(** The list inside that call of [set], when it calls [onUpdate(c, 1)]. *)
Definition childWritten : ItemList string :=
  after
    (stateSet c
       {| total := 0;
          parentValuesBefore := 0;
          values := [Sparse.Present ["y"%string]] |})
    empty.

(** [childSet], then [delete((c, 0), 1)]. *)
Definition childSetDeleted : ItemList string :=
  after (delete rootAndChild (at_ c 0) 1) childSet.

(** Over [rootAndChild]: [set((root, 0), "x")], then [set((c, 0), "y")]. *)
Definition rootThenChild : ItemList string :=
  after (set rootAndChild (at_ c 0) ["y"%string])
    (after (set rootAndChild (at_ root 0) ["x"%string]) empty).

(** [rootThenChild], then [delete((root, 0), 1)]. *)
Definition rootDeleted : ItemList string :=
  after (delete rootAndChild (at_ root 0) 1) rootThenChild.

(** [childSet], then [indexOfPosition((c, 0))], which caches [c]. *)
Definition childCached : ItemList string :=
  after (indexOfPosition rootAndChild (at_ c 0) SearchNone) childSet.

(** Saving and loading with the identity as the codec of sequences. *)
Definition reloaded (order : Order) (l : ItemList string) : ItemList string :=
  after (load order (save (fun arr => arr) l) (fun arr => arr)) empty.

End Example.

(** ** Auxiliary notions for the properties below *)

Section Auxiliary.

Context {T : Type}.

(** A list with its [cachedIndex] field replaced. *)
Definition withCachedIndex (l : ItemList T) (index : Z) : ItemList T :=
  {| state := state l;
     cachedIndexNode := cachedIndexNode l;
     cachedIndex := index |}.

(** A method that neither reads nor writes [cachedIndex]. *)
Definition ignoresCachedIndex {A : Type} (c : M T A) : Prop :=
  forall l index,
    c (withCachedIndex l index)
    = (fst (c l), withCachedIndex (snd (c l)) index).

(** The ids of a saved state that the order knows. *)
Definition knownID (order : Order) (nodeID0 : string) : bool :=
  match getNode order nodeID0 with
  | Some _ => true
  | None => false
  end.

End Auxiliary.

(** ** Slot lists *)

Section Slots.

Context {T : Type}.

(** The number of present slots of a slot list. *)
Fixpoint presentCount (slots : list (option T)) : Z :=
  match slots with
  | [] => 0
  | Some _ :: rest => 1 + presentCount rest
  | None :: rest => presentCount rest
  end.

(** No absent run of negative length. *)
Definition regularRuns (arr : Sparse.SparseItems T) : Prop :=
  Forall (fun run =>
            match run with
            | Sparse.Present _ => True
            | Sparse.Absent n => 0 <= n
            end) arr.

End Slots.

(** ** The earlier [List] class of src/list.ts (lines 813-1501)

    Its [NodeData] has no [parentValuesBefore], and its [onUpdate] reads and
    writes the record of the node the walk is at.  A [Node] of that class is
    an [OrderNode] here: [id] stands for the pair (creatorID, timestamp),
    [parent] for [parentNode], [nextValueIndex] for [parentValueIndex] and
    [getChildren] for [children()]; a [Position] names its node by [nodeID]
    in the same way. *)

Module PlainList.

Section State.

Context {T : Type}.

Record NodeData : Type := mkNodeData {
  total : Z;
  values : Sparse.SparseItems T
}.

(** The mutable fields of the class. *)
Record Fields : Type := mkFields {
  state : list (OrderNode * NodeData);
  cachedIndexNode : option OrderNode;
  cachedIndex : Z
}.

Definition empty : Fields :=
  {| state := []; cachedIndexNode := None; cachedIndex := -1 |}.

Fixpoint mapGet (m : list (OrderNode * NodeData)) (node : OrderNode)
  : option NodeData :=
  match m with
  | [] => None
  | (k, d) :: rest => if sameNode k node then Some d else mapGet rest node
  end.

Fixpoint mapSet (m : list (OrderNode * NodeData)) (node : OrderNode)
  (data : NodeData) : list (OrderNode * NodeData) :=
  match m with
  | [] => [(node, data)]
  | (k, d) :: rest =>
      if sameNode k node then (k, data) :: rest
      else (k, d) :: mapSet rest node data
  end.

Definition mapDelete (m : list (OrderNode * NodeData)) (node : OrderNode)
  : list (OrderNode * NodeData) :=
  filter (fun entry => negb (sameNode (fst entry) node)) m.

Definition M (A : Type) : Type := Fields -> Result A * Fields.

Definition ret {A : Type} (a : A) : M A := fun l => (Ok a, l).

Definition throw {A : Type} (e : Error) : M A := fun l => (Throw e, l).

Definition bind {A B : Type} (c : M A) (k : A -> M B) : M B :=
  fun l =>
    match c l with
    | (Ok a, l') => k a l'
    | (Throw e, l') => (Throw e, l')
    end.

Definition lift {A : Type} (r : Result A) : M A := fun l => (r, l).

Definition stateGet (node : OrderNode) : M (option NodeData) :=
  fun l => (Ok (mapGet (state l) node), l).

Definition stateSet (node : OrderNode) (data : NodeData) : M unit :=
  fun l =>
    (Ok tt,
     {| state := mapSet (state l) node data;
        cachedIndexNode := cachedIndexNode l;
        cachedIndex := cachedIndex l |}).

Definition stateDelete (node : OrderNode) : M unit :=
  fun l =>
    (Ok tt,
     {| state := mapDelete (state l) node;
        cachedIndexNode := cachedIndexNode l;
        cachedIndex := cachedIndex l |}).

Definition getCachedIndexNode : M (option OrderNode) :=
  fun l => (Ok (cachedIndexNode l), l).

Definition setCachedIndexNode (node : option OrderNode) : M unit :=
  fun l =>
    (Ok tt,
     {| state := state l;
        cachedIndexNode := node;
        cachedIndex := cachedIndex l |}).

End State.

Arguments NodeData T : clear implicits.
Arguments Fields T : clear implicits.
Arguments M T A : clear implicits.

Declare Scope plainlist_scope.

Notation "x <- c ;; k" := (bind c (fun x => k))
  (at level 61, c at next level, right associativity) : plainlist_scope.
Notation "c ;; k" := (bind c (fun _ => k))
  (at level 61, right associativity) : plainlist_scope.

Local Open Scope plainlist_scope.

Section Operations.

Context {T : Type}.

Variable order : Order.

Definition withTotal (data : NodeData T) (t : Z) : NodeData T :=
  {| total := t; values := values data |}.

Definition withValues (data : NodeData T) (v : Sparse.SparseItems T)
  : NodeData T :=
  {| total := total data; values := v |}.

(** The steps [let data = this.state.get(node); if (data === undefined)
    { data = { total: 0, values: SparseArray.new() };
    this.state.set(node, data); }], as [set] and [onUpdate] have them. *)
Definition getOrInit (node : OrderNode) : M T (NodeData T) :=
  found <- stateGet node ;;
  match found with
  | Some data => ret data
  | None =>
      let data := {| total := 0; values := Sparse.new 0 |} in
      stateSet node data ;;
      ret data
  end.

(** The loop of [onUpdate] (lines 941-954), from [current] up to the
    root. *)
Fixpoint updateTotals (delta : Z) (current : OrderNode) : M T unit :=
  data <- getOrInit current ;;
  let data' := withTotal data (total data + delta) in
  stateSet current data' ;;
  (if total data' =? 0 then stateDelete current else ret tt) ;;
  match parent current with
  | Some p => updateTotals delta p
  | None => ret tt
  end.

(** [onUpdate(node, delta)] (lines 935-956). *)
Definition onUpdate (node : OrderNode) (delta : Z) : M T unit :=
  cached <- getCachedIndexNode ;;
  (if sameNodeOpt cached node then ret tt else setCachedIndexNode None) ;;
  if delta =? 0 then ret tt else updateTotals delta node.

(** [set(startPos, ...values)] (lines 853-876); [data.values.set] is the
    sparse [set], which hands back the values it replaced. *)
Definition set (startPos : Position) (vals : list T) : M T unit :=
  node <- lift (getNodeFor order startPos) ;;
  let len := Z.of_nat (List.length vals) in
  if len =? 0 then ret tt
  else if sameNode node (rootNode order)
          && (valueIndex startPos + len - 1 >? 1)
  then throw InvalidPosition
  else
    data <- getOrInit node ;;
    let '(newArr, existing) :=
      Sparse.set (values data) (valueIndex startPos) vals in
    stateSet node (withValues data newArr) ;;
    onUpdate node (len - Sparse.size existing).

(** [delete(startPos, count)] (lines 896-919); [data.values.set] with a
    number deletes that many slots. *)
Definition delete (startPos : Position) (count : Q) : M T unit :=
  node <- lift (getNodeFor order startPos) ;;
  if Qeq_bool count 0 then ret tt
  else if negb (Qle_bool 0 count) || negb (ValueList.isInteger count)
  then throw InvalidCount
  else
    let n := ValueList.toInteger count in
    if sameNode node (rootNode order) && (valueIndex startPos + n - 1 >? 1)
    then throw InvalidPosition
    else
      found <- stateGet node ;;
      match found with
      | None => ret tt
      | Some data =>
          let '(newArr, existing) :=
            Sparse.delete (values data) (valueIndex startPos) n in
          stateSet node (withValues data newArr) ;;
          onUpdate node (0 - Sparse.size existing)
      end.

(** [clear()] (lines 963-968). *)
Definition clear : M T unit :=
  fun l =>
    (Ok tt,
     {| state := []; cachedIndexNode := None; cachedIndex := cachedIndex l |}).

(** [getInNode(node, valueIndex)] (lines 1042-1049). *)
Definition getInNode (node : OrderNode) (index : Z)
  : M T (option T * bool * Z) :=
  found <- stateGet node ;;
  match found with
  | None => ret (None, false, 0)
  | Some data => ret (Sparse.getInfo (values data) index)
  end.

(** [get(pos)] (lines 1014-1016). *)
Definition get (pos : Position) : M T (option T) :=
  node <- lift (getNodeFor order pos) ;;
  info <- getInNode node (valueIndex pos) ;;
  ret (fst (fst info)).

(** [has(pos)] (lines 1033-1035). *)
Definition has (pos : Position) : M T bool :=
  node <- lift (getNodeFor order pos) ;;
  info <- getInNode node (valueIndex pos) ;;
  ret (snd (fst info)).

(** [total(node)] (lines 1190-1192). *)
Definition totalOf (node : OrderNode) : M T Z :=
  found <- stateGet node ;;
  match found with
  | Some data => ret (total data)
  | None => ret 0
  end.

(** The getter [length] (lines 1182-1184). *)
Definition length : M T Z := totalOf (rootNode order).

End Operations.

End PlainList.

(** ** Well-formed order trees and consistent totals *)

(** The path from a node up to the root, the node first. *)
Fixpoint pathToRoot (node : OrderNode) : list OrderNode :=
  node
  :: match parent node with
     | Some p => pathToRoot p
     | None => []
     end.

(** The number of [parent] steps from a node to the root. *)
Fixpoint depth (node : OrderNode) : nat :=
  match parent node with
  | Some p => S (depth p)
  | None => O
  end.

Definition sumZ {A : Type} (f : A -> Z) (xs : list A) : Z :=
  fold_right (fun x acc => f x + acc) 0 xs.

(** [node] is the node object the order holds under its id. *)
Definition known (order : Order) (node : OrderNode) : Prop :=
  getNode order (id node) = Some node.

(** What [ItemList] and [List] take for granted about their order: ids name
    nodes, the root has no parent and is the only such node, and [parent]
    and [getChildren] describe the same tree, without repeated children. *)
Record wfOrder (order : Order) : Prop := mkWfOrder {
  wf_lookup : forall i node, getNode order i = Some node -> id node = i;
  wf_root : known order (rootNode order);
  wf_top : forall node,
      known order node -> parent node = None -> node = rootNode order;
  wf_parent : forall node p,
      known order node -> parent node = Some p ->
      known order p /\ In node (getChildren order p);
  wf_children : forall p c,
      known order p -> In c (getChildren order p) ->
      known order c /\ parent c = Some p;
  wf_nodup : forall p,
      known order p -> NoDup (map id (getChildren order p))
}.

Arguments wf_lookup [order] _ [i node] _.
Arguments wf_children [order] _ [p c] _ _.

Section Consistency.

Context {T : Type}.

Variable order : Order.

(** [total(node)] and the size of the node's sequence, read off the map. *)
Definition totalAt (l : PlainList.Fields T) (node : OrderNode) : Z :=
  match PlainList.mapGet (PlainList.state l) node with
  | Some data => PlainList.total data
  | None => 0
  end.

Definition sizeAt (l : PlainList.Fields T) (node : OrderNode) : Z :=
  match PlainList.mapGet (PlainList.state l) node with
  | Some data => Sparse.size (PlainList.values data)
  | None => 0
  end.

(** The record of [node], or the one [set] and [onUpdate] create for a
    node without a record. *)
Definition dataAt (l : PlainList.Fields T) (node : OrderNode)
  : PlainList.NodeData T :=
  match PlainList.mapGet (PlainList.state l) node with
  | Some data => data
  | None => {| PlainList.total := 0; PlainList.values := Sparse.new 0 |}
  end.

(** The totals are those of the subtrees: at every node the total is the
    number of present values of the node plus the totals of its children;
    no total is negative, and no record has total 0. *)
Record consistent (l : PlainList.Fields T) : Prop := mkConsistent {
  totals_sum : forall node,
      known order node ->
      totalAt l node
      = sizeAt l node + sumZ (totalAt l) (getChildren order node);
  totals_nonneg : forall node, known order node -> 0 <= totalAt l node;
  totals_nonzero : forall node data,
      PlainList.mapGet (PlainList.state l) node = Some data ->
      PlainList.total data <> 0
}.

End Consistency.

(** [x] is [node] or one of its ancestors. *)
Definition onPath (node x : OrderNode) : bool :=
  existsb (fun a => sameNode a x) (pathToRoot node).

Definition indicator (b : bool) : Z := if b then 1 else 0.


(** [obj[key]] on a JavaScript object used as a dictionary: the value under
    the key, if there is one. *)
Fixpoint objGet {S : Type} (obj : list (string * S)) (key : string)
  : option S :=
  match obj with
  | [] => None
  | (k, v) :: rest => if String.eqb k key then Some v else objGet rest key
  end.

(** The ids of the nodes that have a record, in the order of the map. *)
Definition recordIDs {T : Type} (l : ItemList T) : list string :=
  map (fun r => id (fst r)) (state l).

(** What [save] reads of the map of records: the ids and the sequences, in
    the order of the map. *)
Definition shape {T : Type} (m : list (OrderNode * NodeData T))
  : list (string * Sparse.SparseItems T) :=
  map (fun r => (id (fst r), values (snd r))) m.

(** ** Rounds of the loop of [entries] *)

(** A bound on the rounds the loop of [entries] spends on the subtree of
    [node], for a subtree at most [height] levels deep: one round for each
    child, the rounds of the child's subtree, and the round that pops the
    frame. *)
Fixpoint subtreeRounds (order : Order) (height : nat) (node : OrderNode)
  : nat :=
  match height with
  | O => 1
  | S h =>
      S (fold_right
           (fun child acc => (S (subtreeRounds order h child) + acc)%nat)
           O (getChildren order node))
  end.

Section Rounds.

Context {T : Type}.

Variable order : Order.

(** The levels below the nodes at depth [maxDepth]. *)
Variable maxDepth : nat.

(** The rounds left for a frame: its children not yet visited, with their
    subtrees, and the round that pops it. *)
Definition frameRounds (f : @Frame T) : nat :=
  S (fold_right
       (fun child acc =>
          (S (subtreeRounds order
                (pred (maxDepth - depth (frameNode f))) child) + acc)%nat)
       O (skipn (nextChildIndex f) (getChildren order (frameNode f)))).

Definition stackRounds (stack : list (@Frame T)) : nat :=
  fold_right (fun f acc => (frameRounds f + acc)%nat) O stack.

(** A frame of the stack of [entries] over the list [l]: its node is a node
    of the order, its data is the node's record, and its slicer hands out
    present slots of that record. *)
Definition frameOf (l : ItemList T) (f : @Frame T) : Prop :=
  known order (frameNode f)
  /\ mapGet (state l) (frameNode f) = Some (frameData f)
  /\ incl (valuesSlicer f) (Sparse.newSlicer (values (frameData f))).

End Rounds.

(** What [getInNode] of the earlier class reads from a record, or from its
    absence: the value and whether it is present. *)
Definition readAt {T : Type} (found : option (PlainList.NodeData T))
  (index : Z) : option T * bool :=
  match found with
  | Some d => fst (Sparse.getInfo (PlainList.values d) index)
  | None => (None, false)
  end.

(** Instances for the earlier class. *)
Module PlainExample.

(** Over [rootAndChild]: [set((c, 0), "y")] of the earlier class on the
    empty list. *)
Definition written : PlainList.Fields string :=
  snd (PlainList.set Example.rootAndChild (Example.at_ Example.c 0)
         ["y"%string] PlainList.empty).

End PlainExample.
(** ** The cache of [indexOfPosition] and the lists the interface builds *)

(** The topmost ancestor of a node: the last node of the walks of
    [onUpdate] and [indexOfPosition]. *)
Fixpoint topOf (node : OrderNode) : OrderNode :=
  match parent node with
  | Some p => topOf p
  | None => node
  end.

(** Modelled from the spec: what [createPositions] may do to the order
    (section 6: it allocates positions, possibly creating one new node).
    The class [Order] is not among the sources.  The root and the nodes that
    were there stay as they are, and the children of a node keep their
    order, with new nodes among them. *)
Record extendsOrder (order order' : Order) : Prop := mkExtendsOrder {
  ext_root : rootNode order' = rootNode order;
  ext_nodes : forall i node,
      getNode order i = Some node -> getNode order' i = Some node;
  ext_children : forall p,
      known order p ->
      filter (fun child => knownID order (id child)) (getChildren order' p)
      = getChildren order p
}.

Section CacheNotions.

Context {T : Type}.

(** The list with its cache emptied: on it [indexOfPosition] walks up the
    tree, as it does with the cache disabled. *)
Definition dropCache (l : ItemList T) : ItemList T :=
  {| state := state l;
     cachedIndexNode := None;
     cachedIndex := cachedIndex l |}.

(** The total and the offset [indexOfPosition] reads for a node:
    [this.total(node)] and
    [this.state.get(node)?.parentValuesBefore ?? 0]. *)
Definition recordTotal (l : ItemList T) (node : OrderNode) : Z :=
  match mapGet (state l) node with
  | Some data => total data
  | None => 0
  end.

Definition recordOffset (l : ItemList T) (node : OrderNode) : Z :=
  match mapGet (state l) node with
  | Some data => parentValuesBefore data
  | None => 0
  end.

(** The cached index is not stale: the cached node is a node of the order
    and the cached index is what the walk up the tree from it computes on
    the list as it is now. *)
Definition cacheValid (order : Order) (l : ItemList T) : Prop :=
  match cachedIndexNode l with
  | Some n => known order n /\ fst (walkUp order n 0 l) = Ok (cachedIndex l)
  | None => True
  end.

(** A call of [indexOfPosition] on the list never reads a stale index: the
    cache is not stale, and every call returns what it returns with the
    cache emptied. *)
Definition neverStale (order : Order) (l : ItemList T) : Prop :=
  cacheValid order l
  /\ forall pos dir,
       fst (indexOfPosition order pos dir l)
       = fst (indexOfPosition order pos dir (dropCache l)).

(** The lists the interface builds: from the new list over a well-formed
    order by the methods that change the list, [set], [delete], [clear],
    [load] and [indexOfPosition] (which writes the cache), on positions of
    slot 0 or later and counts of 0 or more, with the order growing in
    between as [createPositions] makes it grow.  [insert] and [insertAt]
    are made of [indexOfPosition], [positionAt], [createPositions] and
    [set]; [positionAt], [get], [has], [entries] and [save] change
    nothing. *)
Inductive reachable : Order -> ItemList T -> Prop :=
| reach_new : forall order, wfOrder order -> reachable order empty
| reach_set : forall order l pos item,
    reachable order l ->
    0 <= valueIndex pos ->
    reachable order (snd (set order pos item l))
| reach_delete : forall order l pos count,
    reachable order l ->
    0 <= valueIndex pos ->
    0 <= count ->
    reachable order (snd (delete order pos count l))
| reach_clear : forall order l,
    reachable order l -> reachable order (snd (clear l))
| reach_load : forall order l (S : Type) (savedState : list (string * S))
                      (loadArray : S -> Sparse.SparseItems T),
    reachable order l ->
    reachable order (snd (load order savedState loadArray l))
| reach_indexOfPosition : forall order l pos dir,
    reachable order l ->
    reachable order (snd (indexOfPosition order pos dir l))
| reach_order : forall order order' l,
    reachable order l ->
    wfOrder order' ->
    extendsOrder order order' ->
    reachable order' l.

(** What holds of every list the interface builds.  Each round of the
    totals loop of [onUpdate] adds the delta to the record of the mutated
    node, so the total of a record is the number of its present values
    times the number of nodes on its path to the root. *)
Record built (order : Order) (l : ItemList T) : Prop := mkBuilt {
  built_order : wfOrder order;
  built_cache : cacheValid order l;
  built_totals : forall x d,
      known order x ->
      mapGet (state l) x = Some d ->
      total d = (Z.of_nat (depth x) + 1) * Sparse.size (values d);
  built_root : forall d,
      mapGet (state l) (rootNode order) = Some d ->
      parentValuesBefore d = 0;
  built_known : forall x,
      mapGet (state l) x <> None -> knownID order (id x) = true
}.

End CacheNotions.

(** An allocator that adds the node [c] under the root, which turns
    [rootOnly] into [rootAndChild], and hands out the slots of [c] from 0
    on. *)
Definition allocateNewChild : CreatePositions :=
  fun _ _ _ _ =>
    Ok (Example.rootAndChild, (Example.at_ Example.c 0, Some Example.c)).

(** * Properties *)

Import Example.

(** ** The map and the read-only methods *)

Section MapFacts.

Context {T : Type}.

Lemma sameNode_refl (a : OrderNode) : sameNode a a = true.
Proof. unfold sameNode. apply String.eqb_refl. Qed.

Lemma sameNode_eq (a b : OrderNode) : sameNode a b = true -> id a = id b.
Proof. unfold sameNode. apply String.eqb_eq. Qed.

Lemma sameNode_trans_l (a b x : OrderNode) :
  sameNode a b = true -> sameNode a x = sameNode b x.
Proof.
  intros H. apply sameNode_eq in H. unfold sameNode. now rewrite H.
Qed.

Lemma mapGet_mapSet (m : list (OrderNode * NodeData T)) (k x : OrderNode)
  (d : NodeData T) :
  mapGet (mapSet m k d) x = if sameNode k x then Some d else mapGet m x.
Proof.
  induction m as [| [k0 d0] rest IH]; simpl.
  - reflexivity.
  - destruct (sameNode k0 k) eqn:Hk; simpl.
    + rewrite (sameNode_trans_l _ _ x Hk). now destruct (sameNode k x).
    + rewrite IH. destruct (sameNode k0 x) eqn:Hx; [| reflexivity].
      destruct (sameNode k x) eqn:Hkx; [| reflexivity].
      apply sameNode_eq in Hx, Hkx. unfold sameNode in Hk.
      rewrite Hx, <- Hkx, String.eqb_refl in Hk. discriminate.
Qed.

Lemma mapGet_mapDelete (m : list (OrderNode * NodeData T)) (k x : OrderNode) :
  mapGet (mapDelete m k) x = if sameNode k x then None else mapGet m x.
Proof.
  unfold mapDelete.
  induction m as [| [k0 d0] rest IH]; simpl.
  - now destruct (sameNode k x).
  - destruct (sameNode k0 k) eqn:Hk; simpl.
    + rewrite IH. rewrite (sameNode_trans_l _ _ x Hk).
      now destruct (sameNode k x).
    + rewrite IH. destruct (sameNode k0 x) eqn:Hx; [| reflexivity].
      destruct (sameNode k x) eqn:Hkx; [| reflexivity].
      apply sameNode_eq in Hx, Hkx. unfold sameNode in Hk.
      rewrite Hx, <- Hkx, String.eqb_refl in Hk. discriminate.
Qed.

Variable order : Order.

Lemma totalOf_reads (node : OrderNode) (l : ItemList T) :
  exists t, totalOf node l = (Ok t, l).
Proof.
  unfold totalOf, bind, stateGet, ret.
  destruct (mapGet (state l) node); eauto.
Qed.

Lemma getInNode_reads (node : OrderNode) (index : Z) (l : ItemList T) :
  exists info, getInNode node index l = (Ok info, l).
Proof.
  unfold getInNode, bind, stateGet, ret.
  destruct (mapGet (state l) node); eauto.
Qed.

Lemma childrenBefore_reads (children : list OrderNode) (index acc : Z)
  (l : ItemList T) :
  exists t, childrenBefore children index acc l = (Ok t, l).
Proof.
  revert acc.
  induction children as [| child rest IH]; intros acc; simpl.
  - unfold ret. eauto.
  - destruct (negb (nextValueIndex child <=? index)).
    + unfold ret. eauto.
    + unfold bind. destruct (totalOf_reads child l) as [t Ht]. rewrite Ht.
      apply IH.
Qed.

Lemma siblingsBefore_reads (siblings : list OrderNode) (current : OrderNode)
  (acc : Z) (l : ItemList T) :
  exists t, siblingsBefore siblings current acc l = (Ok t, l).
Proof.
  revert acc.
  induction siblings as [| child rest IH]; intros acc; simpl.
  - unfold ret. eauto.
  - destruct (sameNode child current).
    + unfold ret. eauto.
    + unfold bind. destruct (totalOf_reads child l) as [t Ht]. rewrite Ht.
      apply IH.
Qed.

Lemma walkUp_reads (current : OrderNode) :
  forall (acc : Z) (l : ItemList T),
    exists t, walkUp order current acc l = (Ok t, l).
Proof.
  induction current as [i v p IH] using OrderNode_parent_ind.
  intros acc l. destruct p as [p |]; simpl.
  - unfold bind, stateGet.
    match goal with
    | |- context [siblingsBefore ?s ?c ?a l] =>
        destruct (siblingsBefore_reads s c a l) as [t Ht]; rewrite Ht
    end.
    apply (IH p eq_refl).
  - unfold ret. eauto.
Qed.

End MapFacts.

(** ** Accessors *)

Section AccessorFacts.

Context {T : Type}.

Variable order : Order.

Lemma getInfo_new (n index : Z) :
  Sparse.getInfo (@Sparse.new T n) index = (None, false, 0).
Proof.
  unfold Sparse.new. destruct (n =? 0); simpl; [reflexivity |].
  now destruct (index <? n).
Qed.

(** C10.  For a position whose node resolves through the order but has no
    record in the state map, [get] returns [undefined] and [has] returns
    [false], without an error and without touching the list, whatever the
    slot index; these are the answers [getInfo] gives on an all-absent
    sequence of any length. *)
Theorem get_has_without_record (l : ItemList T) (pos : Position)
  (node : OrderNode) :
  getNodeFor order pos = Ok node ->
  mapGet (state l) node = None ->
  get order pos l = (Ok None, l)
  /\ has order pos l = (Ok false, l)
  /\ forall n,
       get order pos l
       = (Ok (fst (fst (Sparse.getInfo (@Sparse.new T n) (valueIndex pos)))),
          l)
       /\ has order pos l
          = (Ok (snd (fst (Sparse.getInfo (@Sparse.new T n)
                             (valueIndex pos)))),
             l).
Proof.
  intros Hnode Hrec.
  assert (Hget : get order pos l = (Ok None, l)).
  { unfold get, getInNode, bind, lift, stateGet, ret.
    rewrite Hnode, Hrec. reflexivity. }
  assert (Hhas : has order pos l = (Ok false, l)).
  { unfold has, getInNode, bind, lift, stateGet, ret.
    rewrite Hnode, Hrec. reflexivity. }
  repeat split; try assumption.
  - rewrite getInfo_new. exact Hget.
  - rewrite getInfo_new. exact Hhas.
Qed.

(** The answer of [indexOfPosition] once [valuesBefore] is known. *)
Lemma indexOfPosition_shape (l : ItemList T) (pos : Position)
  (node : OrderNode) :
  getNodeFor order pos = Ok node ->
  exists (present : bool) (valuesBefore : Z) (l' : ItemList T),
    has order pos l = (Ok present, l)
    /\ state l' = state l
    /\ forall dir,
         indexOfPosition order pos dir l
         = (Ok (if present then valuesBefore
                else
                  match dir with
                  | SearchNone => -1
                  | SearchLeft => valuesBefore - 1
                  | SearchRight => valuesBefore
                  end),
            l').
Proof.
  intros Hnode.
  unfold indexOfPosition, has, bind, lift. rewrite Hnode.
  destruct (getInNode_reads node (valueIndex pos) l) as [info Hinfo].
  rewrite Hinfo.
  destruct (childrenBefore_reads (getChildren order node) (valueIndex pos)
              (snd info) l) as [vb Hvb].
  rewrite Hvb. unfold getCachedIndexNode.
  destruct (sameNodeOpt (cachedIndexNode l) node).
  - unfold getCachedIndex.
    exists (snd (fst info)), (vb + cachedIndex l), l.
    repeat split.
    intros dir. destruct (snd (fst info)); destruct dir; reflexivity.
  - destruct (walkUp_reads order node 0 l) as [b Hb]. rewrite Hb.
    unfold setCachedIndexNode, setCachedIndex, ret. simpl.
    eexists (snd (fst info)), (vb + b), _.
    split; [reflexivity | split].
    2: { intros dir. destruct (snd (fst info)); destruct dir; reflexivity. }
    reflexivity.
Qed.

(** [positionAt] answers with a position of the root or not at all: it never
    gets to look inside a child. *)
Lemma positionAtFor_returns_current (current : OrderNode)
  (currentData : option (NodeData T)) (children : list OrderNode) :
  forall (remaining nvi before : Z) (l l' : ItemList T) (pos : Position),
    positionAtFor current currentData children remaining nvi before l
    = (Ok (Returned pos), l') ->
    nodeID pos = id current.
Proof.
  induction children as [| child rest IH]; intros remaining nvi before l l' pos;
    simpl.
  - unfold ret. discriminate.
  - unfold bind, stateGet.
    destruct (mapGet (state l) child) as [cd |].
    + destruct (remaining <? parentValuesBefore cd - before).
      * destruct currentData; unfold ret, throw; intros H; inversion H.
        reflexivity.
      * destruct (remaining - (parentValuesBefore cd - before) <? total cd).
        -- unfold ret. discriminate.
        -- apply IH.
    + apply IH.
Qed.

Lemma positionAt_stays_at_root (index : Z) (l l' : ItemList T)
  (pos : Position) :
  positionAt order index l = (Ok pos, l') ->
  nodeID pos = id (rootNode order).
Proof.
  unfold positionAt, bind.
  destruct (totalOf_reads (rootNode order) l) as [len Hlen].
  unfold length. rewrite Hlen.
  destruct ((index <? 0) || (index >=? len)); [unfold throw; discriminate |].
  unfold stateGet.
  destruct (positionAtFor (rootNode order) (mapGet (state l) (rootNode order))
              (getChildren order (rootNode order)) index 0 0 l)
    as [[exit | e] l1] eqn:Hfor; [| discriminate].
  destruct exit; unfold ret, throw; try discriminate.
  intros H. inversion H; subst.
  eapply positionAtFor_returns_current. exact Hfor.
Qed.

Lemma positionAt_without_children (index : Z) (l : ItemList T) :
  getChildren order (rootNode order) = [] ->
  isOk (fst (positionAt order index l)) = false.
Proof.
  intros Hchildren. unfold positionAt, bind.
  destruct (totalOf_reads (rootNode order) l) as [len Hlen].
  unfold length. rewrite Hlen.
  destruct ((index <? 0) || (index >=? len)); [reflexivity |].
  unfold stateGet. rewrite Hchildren. reflexivity.
Qed.

Lemma positionAt_on_empty_length (index : Z) (l : ItemList T) :
  mapGet (state l) (rootNode order) = None ->
  positionAt order index l = (Throw IndexOutOfBounds, l).
Proof.
  intros Hroot. unfold positionAt, length, totalOf, bind, stateGet, ret.
  rewrite Hroot.
  replace ((index <? 0) || (index >=? 0)) with true; [reflexivity |].
  symmetry. apply orb_true_iff.
  destruct (Z.ltb_spec index 0); [now left | right].
  apply Z.geb_le. lia.
Qed.

(** [insert] needs a value to the right of [prevPos]: on a list whose root
    has no record it stops at the bounds check of [positionAt]. *)
Lemma insert_needs_right_neighbour (createPositions : CreatePositions)
  (prevPos : Position) (item : list T) (node : OrderNode) (l : ItemList T) :
  getNodeFor order prevPos = Ok node ->
  mapGet (state l) (rootNode order) = None ->
  fst (insert createPositions order prevPos item l) = Throw IndexOutOfBounds.
Proof.
  intros Hnode Hroot.
  destruct (indexOfPosition_shape l prevPos Hnode)
    as (present & vb & l' & _ & Hstate & Hidx).
  unfold insert, bind. rewrite (Hidx SearchLeft).
  rewrite positionAt_on_empty_length; [reflexivity |].
  now rewrite Hstate.
Qed.

End AccessorFacts.

(** [List.delete] of list.ts checks its count before it touches the list. *)
Lemma ValueList_delete_invalid_count {T : Type} (order : Order)
  (pos : Position) (node : OrderNode) (count : Q) (l : ItemList T) :
  getNodeFor order pos = Ok node ->
  (count < 0)%Q \/ ValueList.isInteger count = false ->
  ValueList.delete order pos count l = (Throw InvalidCount, l).
Proof.
  intros Hnode Hcount.
  unfold ValueList.delete, bind, lift. rewrite Hnode.
  destruct (Qeq_bool count 0) eqn:Hzero.
  - exfalso. apply Qeq_bool_iff in Hzero. destruct Hcount as [Hneg | Hint].
    + rewrite Hzero in Hneg. now apply Qlt_irrefl in Hneg.
    + unfold Qeq in Hzero. simpl in Hzero.
      assert (Hnum : Qnum count = 0) by lia.
      unfold ValueList.isInteger in Hint. rewrite Hnum in Hint.
      rewrite Z.mod_0_l in Hint by discriminate. discriminate.
  - destruct Hcount as [Hneg | Hint].
    + destruct (Qle_bool 0 count) eqn:Hle; [| reflexivity].
      apply Qle_bool_iff in Hle. exfalso.
      apply (Qlt_irrefl 0). eapply Qle_lt_trans; eassumption.
    + rewrite Hint, orb_true_r. reflexivity.
Qed.

(** ** Maintenance after a mutation *)

Section MaintenanceFacts.

Context {T : Type}.

Variable order : Order.

(** What a step of maintenance leaves alone: it ends normally and does not
    write the cache fields. *)
Lemma getOrCreateData_runs (node : OrderNode) (l : ItemList T) :
  exists data l',
    getOrCreateData node l = (Ok data, l')
    /\ cachedIndexNode l' = cachedIndexNode l
    /\ cachedIndex l' = cachedIndex l
    /\ forall x, sameNode node x = false ->
                 mapGet (state l') x = mapGet (state l) x.
Proof.
  unfold getOrCreateData, bind, stateGet.
  destruct (mapGet (state l) node) as [data |].
  - unfold ret. exists data, l. auto.
  - assert (Hset : forall b : Z,
      exists data l',
        (stateSet node (@mkNodeData T 0 b (Sparse.new 0)) ;;
         ret (@mkNodeData T 0 b (Sparse.new 0))) l = (Ok data, l')
        /\ cachedIndexNode l' = cachedIndexNode l
        /\ cachedIndex l' = cachedIndex l
        /\ forall x, sameNode node x = false ->
                     mapGet (state l') x = mapGet (state l) x).
    { intros b. unfold bind, stateSet, ret. simpl.
      eexists _, _. split; [reflexivity |]. simpl.
      repeat split. intros x Hx. rewrite mapGet_mapSet, Hx. reflexivity. }
    destruct (parent node) as [p |]; [| apply Hset].
    destruct (mapGet (state l) p); apply Hset.
Qed.

Lemma updateTotals_runs (node : OrderNode) (delta : Z) (current : OrderNode) :
  forall l : ItemList T,
    exists l',
      updateTotals node delta current l = (Ok tt, l')
      /\ cachedIndexNode l' = cachedIndexNode l
      /\ cachedIndex l' = cachedIndex l
      /\ forall x, sameNode node x = false ->
                   mapGet (state l') x = mapGet (state l) x
                   \/ mapGet (state l') x = None.
Proof.
  induction current as [i v p IH] using OrderNode_parent_ind.
  intros l. simpl. unfold bind.
  destruct (getOrCreateData_runs node l) as (data & l1 & Hget & Hn1 & Hi1 & Hs1).
  rewrite Hget. unfold stateSet at 1. simpl.
  set (l2 := {| state := mapSet (state l1) node
                           (withTotal data (total data + delta));
                cachedIndexNode := cachedIndexNode l1;
                cachedIndex := cachedIndex l1 |}).
  set (current := {| id := i; nextValueIndex := v; parent := p |}).
  assert (Hstep :
    exists l3,
      (if total data + delta =? 0 then stateDelete current else ret tt) l2
      = (Ok tt, l3)
      /\ cachedIndexNode l3 = cachedIndexNode l
      /\ cachedIndex l3 = cachedIndex l
      /\ forall x, sameNode node x = false ->
                   mapGet (state l3) x = mapGet (state l) x
                   \/ mapGet (state l3) x = None).
  { destruct (total data + delta =? 0); unfold stateDelete, ret.
    - eexists. split; [reflexivity |]. simpl. repeat split; try assumption.
      intros x Hx. rewrite mapGet_mapDelete.
      destruct (sameNode current x); [now right | left].
      rewrite mapGet_mapSet, Hx. now apply Hs1.
    - exists l2. split; [reflexivity |]. simpl. repeat split; try assumption.
      intros x Hx. left. rewrite mapGet_mapSet, Hx. now apply Hs1. }
  destruct Hstep as (l3 & Hrun & Hn3 & Hi3 & Hs3). rewrite Hrun.
  destruct p as [p |].
  - destruct (IH p eq_refl l3) as (l4 & Hrec & Hn4 & Hi4 & Hs4).
    exists l4. split; [exact Hrec |].
    repeat split; try congruence.
    intros x Hx. destruct (Hs4 x Hx) as [H4 | H4]; [| now right].
    rewrite H4. now apply Hs3.
  - exists l3. unfold ret. auto.
Qed.

Lemma updateChildren_runs (nodeData : NodeData T) (children : list OrderNode) :
  forall l : ItemList T,
    exists l',
      updateChildren nodeData children l = (Ok tt, l')
      /\ cachedIndexNode l' = cachedIndexNode l
      /\ cachedIndex l' = cachedIndex l.
Proof.
  induction children as [| child rest IH]; intros l; simpl.
  - exists l. unfold ret. auto.
  - unfold bind, stateGet.
    destruct (mapGet (state l) child) as [cd |].
    + unfold stateSet at 1.
      match goal with
      | |- context [updateChildren nodeData rest ?l0] =>
          destruct (IH l0) as (l' & Hrun & Hn & Hi)
      end.
      exists l'. auto.
    + unfold ret at 1. apply IH.
Qed.

Lemma updateChildren_totals (nodeData : NodeData T)
  (children : list OrderNode) :
  forall (l : ItemList T) (x : OrderNode),
    option_map total
      (mapGet (state (snd (updateChildren nodeData children l))) x)
    = option_map total (mapGet (state l) x).
Proof.
  induction children as [| child rest IH]; intros l x; simpl.
  - reflexivity.
  - unfold bind, stateGet.
    destruct (mapGet (state l) child) as [cd |] eqn:Hchild.
    + unfold stateSet at 1. rewrite IH. simpl. rewrite mapGet_mapSet.
      destruct (sameNode child x) eqn:Hx; [| reflexivity].
      unfold sameNode in Hx. apply String.eqb_eq in Hx.
      assert (Hsame : mapGet (state l) x = mapGet (state l) child).
      { clear -Hx. induction (state l) as [| [k d] m IHm]; simpl.
        - reflexivity.
        - unfold sameNode. rewrite Hx. now rewrite IHm. }
      rewrite Hsame, Hchild. reflexivity.
    + unfold ret at 1. apply IH.
Qed.

(** The totals after [onUpdate(node, delta)]: the record of any other node,
    an ancestor included, keeps its total or is gone; none is created and
    none is increased. *)
Lemma onUpdate_other_totals (node : OrderNode) (delta : Z) (l : ItemList T)
  (x : OrderNode) :
  sameNode node x = false ->
  option_map total (mapGet (state (snd (onUpdate order node delta l))) x)
  = option_map total (mapGet (state l) x)
  \/ mapGet (state (snd (onUpdate order node delta l))) x = None.
Proof.
  intros Hx. unfold onUpdate, bind, getCachedIndexNode.
  set (l1 := snd ((if sameNodeOpt (cachedIndexNode l) node then ret tt
                   else setCachedIndexNode None) l)).
  assert (H1 :
    (if sameNodeOpt (cachedIndexNode l) node then ret tt
     else setCachedIndexNode None) l = (Ok tt, l1)
    /\ state l1 = state l).
  { subst l1. destruct (sameNodeOpt (cachedIndexNode l) node);
      unfold ret, setCachedIndexNode; simpl; auto. }
  destruct H1 as (Hrun1 & Hs1). rewrite Hrun1.
  assert (H2 :
    exists l2,
      (if delta =? 0 then ret tt else updateTotals node delta node) l1
      = (Ok tt, l2)
      /\ (mapGet (state l2) x = mapGet (state l) x
          \/ mapGet (state l2) x = None)).
  { destruct (delta =? 0).
    - exists l1. unfold ret. rewrite Hs1. auto.
    - destruct (updateTotals_runs node delta node l1) as (l2 & H & _ & _ & Hs).
      exists l2. split; [exact H |]. rewrite <- Hs1. now apply Hs. }
  destruct H2 as (l2 & Hrun2 & Hs2). rewrite Hrun2.
  unfold stateGet.
  destruct (mapGet (state l2) node) as [nd |].
  - destruct Hs2 as [Hs2 | Hs2].
    + left. rewrite updateChildren_totals. now rewrite Hs2.
    + right.
      pose proof (updateChildren_totals nd (getChildren order node) l2 x)
        as Hc.
      rewrite Hs2 in Hc. simpl in Hc.
      destruct (mapGet
                  (state (snd (updateChildren nd (getChildren order node)
                                 l2))) x);
        [discriminate | reflexivity].
  - unfold ret. simpl. destruct Hs2 as [Hs2 | Hs2]; [left | right]; congruence.
Qed.

(** [onUpdate] ends normally; it empties the cache unless the node it is
    called for is the cached one, in which case both cache fields stay. *)
Lemma onUpdate_cache (node : OrderNode) (delta : Z) (l : ItemList T) :
  exists l',
    onUpdate order node delta l = (Ok tt, l')
    /\ cachedIndexNode l'
       = (if sameNodeOpt (cachedIndexNode l) node then cachedIndexNode l
          else None)
    /\ cachedIndex l' = cachedIndex l.
Proof.
  unfold onUpdate, bind, getCachedIndexNode.
  set (l1 := snd ((if sameNodeOpt (cachedIndexNode l) node then ret tt
                   else setCachedIndexNode None) l)).
  assert (H1 :
    (if sameNodeOpt (cachedIndexNode l) node then ret tt
     else setCachedIndexNode None) l = (Ok tt, l1)
    /\ cachedIndexNode l1
       = (if sameNodeOpt (cachedIndexNode l) node then cachedIndexNode l
          else None)
    /\ cachedIndex l1 = cachedIndex l).
  { subst l1. destruct (sameNodeOpt (cachedIndexNode l) node);
      unfold ret, setCachedIndexNode; simpl; auto. }
  destruct H1 as (Hrun1 & Hn1 & Hi1). rewrite Hrun1.
  assert (H2 :
    exists l2,
      (if delta =? 0 then ret tt else updateTotals node delta node) l1
      = (Ok tt, l2)
      /\ cachedIndexNode l2 = cachedIndexNode l1
      /\ cachedIndex l2 = cachedIndex l1).
  { destruct (delta =? 0).
    - exists l1. unfold ret. auto.
    - destruct (updateTotals_runs node delta node l1) as (l2 & H & Hn & Hi & _).
      exists l2. auto. }
  destruct H2 as (l2 & Hrun2 & Hn2 & Hi2). rewrite Hrun2.
  unfold stateGet.
  destruct (mapGet (state l2) node) as [nd |].
  - destruct (updateChildren_runs nd (getChildren order node) l2)
      as (l3 & Hrun3 & Hn3 & Hi3).
    exists l3. split; [exact Hrun3 |]. split; congruence.
  - exists l2. unfold ret. split; [reflexivity |]. split; congruence.
Qed.

(** What [set], [delete] and [clear] do to the cache.  Let [pos] resolve to
    [node].  A [set] of a non-empty item and a [delete] of a non-zero count
    on a node with a record, both within the slots the root allows, end
    normally and empty the cache unless [node] is the cached node, in which
    case the cached node and the cached index stay as they are.  Every other
    call of [set] or [delete] leaves the whole list, the cache included, as
    it was.  [clear] always empties the cache. *)
Lemma cache_after_mutators (l : ItemList T) (pos : Position)
  (node : OrderNode) :
  getNodeFor order pos = Ok node ->
  (forall item : list T,
     let len := Z.of_nat (List.length item) in
     if (len =? 0)
        || (sameNode node (rootNode order) && (valueIndex pos + len - 1 >? 1))
     then snd (set order pos item l) = l
     else
       isOk (fst (set order pos item l)) = true
       /\ cachedIndexNode (snd (set order pos item l))
          = (if sameNodeOpt (cachedIndexNode l) node then cachedIndexNode l
             else None)
       /\ cachedIndex (snd (set order pos item l)) = cachedIndex l)
  /\ (forall count : Z,
        if (count =? 0)
           || (sameNode node (rootNode order)
               && (valueIndex pos + count - 1 >? 1))
           || (match mapGet (state l) node with
               | Some _ => false
               | None => true
               end)
        then snd (delete order pos count l) = l
        else
          isOk (fst (delete order pos count l)) = true
          /\ cachedIndexNode (snd (delete order pos count l))
             = (if sameNodeOpt (cachedIndexNode l) node then cachedIndexNode l
                else None)
          /\ cachedIndex (snd (delete order pos count l)) = cachedIndex l)
  /\ cachedIndexNode (snd (clear l)) = None.
Proof.
  intros Hnode. split; [| split].
  - intros item len. subst len.
    unfold set, bind, lift. rewrite Hnode.
    destruct (Z.of_nat (List.length item) =? 0); [reflexivity |].
    destruct (sameNode node (rootNode order)
              && (valueIndex pos + Z.of_nat (List.length item) - 1 >? 1));
      [reflexivity |].
    simpl.
    destruct (getOrCreateData_runs node l) as (data & l1 & Hget & Hn1 & Hi1 & _).
    rewrite Hget. simpl.
    match goal with
    | |- context [onUpdate order node ?d ?l0] =>
        destruct (onUpdate_cache node d l0) as (l2 & Hrun & Hn2 & Hi2)
    end.
    rewrite Hrun. unfold ret. simpl in *.
    rewrite Hn1 in Hn2. rewrite Hi1 in Hi2. auto.
  - intros count.
    unfold delete, bind, lift. rewrite Hnode.
    destruct (count =? 0); [reflexivity |].
    destruct (sameNode node (rootNode order)
              && (valueIndex pos + count - 1 >? 1)); [reflexivity |].
    simpl.
    destruct (mapGet (state l) node) as [data |]; [| reflexivity].
    simpl.
    match goal with
    | |- context [onUpdate order node ?d ?l0] =>
        destruct (onUpdate_cache node d l0) as (l2 & Hrun & Hn2 & Hi2)
    end.
    rewrite Hrun. unfold ret. simpl in *. auto.
  - reflexivity.
Qed.

End MaintenanceFacts.

(** ** Slices, saving and loading *)

Section IterationFacts.

Context {T : Type}.

Variable order : Order.

(** [normalizeSliceRange] is the normalisation of [Array.prototype.slice]. *)
Lemma normalizeSliceRange_slice (len : Z) (start end_ : option Z) :
  0 <= len ->
  normalizeSliceRange len start end_ = Spec.sliceRange len start end_.
Proof.
  intros Hlen.
  unfold normalizeSliceRange, Spec.sliceRange, Spec.sliceIndex.
  destruct start as [s |], end_ as [e |];
    repeat match goal with
           | |- context [?a <? ?b] => destruct (Z.ltb_spec a b)
           | |- context [?a >=? ?b] =>
               let H := fresh in
               destruct (a >=? b) eqn:H;
               [apply Z.geb_le in H | rewrite Z.geb_leb in H;
                                      apply Z.leb_gt in H]
           | |- context [?a <=? ?b] => destruct (Z.leb_spec a b)
           end;
    try reflexivity; try lia;
    repeat match goal with
           | |- Some _ = Some _ => f_equal
           | |- (_, _) = (_, _) => f_equal
           end; lia.
Qed.

Lemma normalizeSliceRange_bounds (len : Z) (start end_ : option Z)
  (s e : Z) :
  0 <= len ->
  normalizeSliceRange len start end_ = Some (s, e) ->
  0 <= s < e /\ e <= len.
Proof.
  intros Hlen. rewrite normalizeSliceRange_slice by assumption.
  unfold Spec.sliceRange, Spec.sliceIndex.
  destruct start as [s0 |], end_ as [e0 |];
    repeat match goal with
           | |- context [?a <? ?b] => destruct (Z.ltb_spec a b)
           | |- context [?a <=? ?b] => destruct (Z.leb_spec a b)
           end;
    try discriminate; intros Hsome; inversion Hsome; subst; lia.
Qed.

(** An empty range ends [entries] before its loop. *)
Lemma entries_empty_range (fuel : nat) (l : ItemList T)
  (start end_ : option Z) :
  normalizeSliceRange (match mapGet (state l) (rootNode order) with
                       | Some data => total data
                       | None => 0
                       end) start end_ = None ->
  entries order fuel l start end_ = Some [].
Proof. intros H. unfold entries. now rewrite H. Qed.

Lemma objSet_keys {S : Type} (obj : list (string * S)) (key k : string)
  (v : S) :
  In k (map fst (objSet obj key v)) <-> k = key \/ In k (map fst obj).
Proof.
  induction obj as [| [k0 v0] rest IH]; simpl.
  - intuition auto.
  - destruct (String.eqb k0 key) eqn:Hk; simpl.
    + apply String.eqb_eq in Hk. subst. intuition auto.
    + rewrite IH. intuition auto.
Qed.

Lemma saveLoop_keys {S : Type} (f : Sparse.SparseItems T -> S)
  (records : list (OrderNode * NodeData T)) :
  forall (acc : list (string * S)) (k : string),
    In k (map fst (saveLoop f records acc))
    <-> In k (map fst acc)
        \/ exists node data,
             In (node, data) records
             /\ id node = k
             /\ Sparse.isEmpty (values data) = false.
Proof.
  induction records as [| [node data] rest IH]; intros acc k; simpl.
  - split; [auto | intros [H | (n & d & [] & _)]; exact H].
  - rewrite IH. destruct (Sparse.isEmpty (values data)) eqn:Hempty; simpl.
    + split.
      * intros [H | (n & d & Hin & Hid & He)]; [now left | right].
        exists n, d. auto.
      * intros [H | (n & d & [Heq | Hin] & Hid & He)]; [now left | |].
        -- inversion Heq; subst. congruence.
        -- right. exists n, d. auto.
    + rewrite objSet_keys. split.
      * intros [[H | H] | (n & d & Hin & Hid & He)].
        -- right. exists node, data. auto.
        -- now left.
        -- right. exists n, d. auto.
      * intros [H | (n & d & [Heq | Hin] & Hid & He)].
        -- left. now right.
        -- inversion Heq; subst. left. now left.
        -- right. exists n, d. auto.
Qed.

(** [save] has a key for exactly the nodes with a record whose sequence is
    not empty. *)
Lemma save_keys {S : Type} (f : Sparse.SparseItems T -> S) (l : ItemList T)
  (k : string) :
  In k (map fst (save f l))
  <-> exists node data,
        In (node, data) (state l)
        /\ id node = k
        /\ Sparse.isEmpty (values data) = false.
Proof.
  unfold save. rewrite saveLoop_keys. simpl. intuition auto.
Qed.

End IterationFacts.

(** ** The code on concrete lists *)

(** The ids and totals of the records, in map order. *)
Lemma totals_of_childWritten :
  map (fun e => (id (fst e), total (snd e))) (state childWritten)
  = [("c"%string, 0)].
Proof. reflexivity. Qed.

(** C1.  Over the tree root -> c, [set((c, 0), "y")] on the empty list calls
    [onUpdate(c, 1)].  The walk has two rounds, for [c] and for the root; the
    code adds the delta to the record of [c] in both and gives the root no
    record, where section 4.4 asks for a total of 1 at [c] and a record with
    total 1 at the root. *)
Theorem onUpdate_adds_every_round_to_node :
  map (fun e => (id (fst e), total (snd e)))
    (state (after (onUpdate rootAndChild c 1) childWritten))
  = [("c"%string, 2)]
  /\ mapGet (state (after (onUpdate rootAndChild c 1) childWritten)) root
     = None
  /\ map (fun e => (id (fst e), total (snd e)))
       (state (after (Spec.onUpdate rootAndChild c 1) childWritten))
     = [("c"%string, 1); ("root"%string, 1)]
  /\ after (onUpdate rootAndChild c 1) childWritten = childSet.
Proof. repeat split. Qed.

(** C2.  After [set((c, 0), "y")] the record of [c] has total 2 with one
    present value and no children, and the root, with one present value
    below it, has no record; after the following [delete((c, 0), 1)] the
    record of [c] stays in the map with total 0. *)
Theorem set_breaks_totals_invariant :
  Spec.totalsInvariant rootAndChild childSet = false
  /\ option_map (fun d => (total d, Sparse.size (values d)))
       (mapGet (state childSet) c) = Some (2, 1)
  /\ Spec.recordIffPositive rootAndChild 2 childSet root = false
  /\ option_map total (mapGet (state childSetDeleted) c) = Some 0.
Proof. repeat split. Qed.

(** C3.  Over the tree of the root alone, after [set((root, 0), "a")] the
    list has length 1 and [(root, 0)] is present at index 0, yet
    [positionAt(0)] throws the internal error. *)
Theorem positionAt_throws_in_range :
  fst (length rootOnly rootSet) = Ok 1
  /\ fst (has rootOnly (at_ root 0) rootSet) = Ok true
  /\ fst (indexOfPosition rootOnly (at_ root 0) SearchNone rootSet) = Ok 0
  /\ fst (positionAt rootOnly 0 rootSet) = Throw InternalInvariantViolation.
Proof. repeat split. Qed.

(** C4.  [insert] with a [prevPos] that is not the maximum sentinel and an
    item of length 1 fails with the bounds error of [positionAt], on the
    empty list and after the last value of a list, whatever the allocator;
    [insertAt(0, item)] on the same empty list succeeds. *)
Theorem insert_without_right_neighbour_throws
  (createPositions : CreatePositions) :
  equalsPosition minPosition maxPosition = false
  /\ fst (insert createPositions rootAndChild minPosition ["a"%string] empty)
     = Throw IndexOutOfBounds
  /\ fst (insert createPositions rootOnly (at_ root 0) ["b"%string] rootSet)
     = Throw IndexOutOfBounds
  /\ isOk (fst (insertAt allocateInChild rootAndChild 0 ["a"%string] empty))
     = true.
Proof. repeat split. Qed.

(** C5.  [ItemList.delete] with the count -1 on a node without a record
    returns normally, with the all-absent sequence [new(-1)], and leaves the
    list as it was: no count is checked on this path.  [List.delete] of
    list.ts throws on the same call. *)
Theorem delete_accepts_negative_count :
  delete rootAndChild (at_ c 0) (-1) (@empty string)
  = (Ok (Sparse.new (-1)), empty)
  /\ ValueList.delete rootAndChild (at_ c 0) (-1 # 1) (@empty string)
     = (Throw InvalidCount, empty).
Proof. split; reflexivity. Qed.

(** C6, as the claim states it, fails: with [c] the cached node, a [set] on
    [c] rewrites the record of [c] and the cache still holds [c]. *)
Lemma set_on_cached_node_keeps_cache :
  sameNodeOpt (cachedIndexNode childCached) c = true
  /\ mapGet (state (after (set rootAndChild (at_ c 1) ["z"%string])
                      childCached)) c
     <> mapGet (state childCached) c
  /\ sameNodeOpt
       (cachedIndexNode
          (after (set rootAndChild (at_ c 1) ["z"%string]) childCached)) c
     = true.
Proof. repeat split. vm_compute. discriminate. Qed.

(** C7.  After [set((root, 0), "x")] and [set((c, 0), "y")], with [c]
    anchored before slot 1 of the root, the list order is (root, 0), (c, 0).
    Two present values precede the absent position (c, 1), but
    [indexOfPosition] answers 1 to the right and 0 to the left; and the
    present position (c, 0), second in the list, gets the index 0 of
    (root, 0). *)
Theorem indexOfPosition_miscounts :
  Spec.listOrder rootAndChild 2 rootThenChild = [at_ root 0; at_ c 0]
  /\ fst (has rootAndChild (at_ c 1) rootThenChild) = Ok false
  /\ Spec.valuesBefore rootAndChild 2 rootThenChild (at_ c 1) = 2
  /\ fst (indexOfPosition rootAndChild (at_ c 1) SearchRight rootThenChild)
     = Ok 1
  /\ fst (indexOfPosition rootAndChild (at_ c 1) SearchLeft rootThenChild)
     = Ok 0
  /\ fst (has rootAndChild (at_ c 0) rootThenChild) = Ok true
  /\ Spec.valuesBefore rootAndChild 2 rootThenChild (at_ c 0) = 1
  /\ fst (indexOfPosition rootAndChild (at_ c 0) SearchNone rootThenChild)
     = Ok 0
  /\ fst (indexOfPosition rootAndChild (at_ root 0) SearchNone rootThenChild)
     = Ok 0.
Proof. repeat split. Qed.

(** C8.  Two lists reached by [set] and [delete] that [load(save(s))] does
    not reproduce: a record with total 0 and an empty sequence, which [save]
    skips and [load] cannot bring back; and a record whose
    [parentValuesBefore] is 1 in the list and 0 after the round trip. *)
Theorem load_save_changes_records :
  save (fun arr => arr) childSetDeleted = []
  /\ state (reloaded rootAndChild childSetDeleted) = []
  /\ List.length (state childSetDeleted) = 1%nat
  /\ option_map parentValuesBefore (mapGet (state rootDeleted) c) = Some 1
  /\ option_map parentValuesBefore
       (mapGet (state (reloaded rootAndChild rootDeleted)) c) = Some 0.
Proof. repeat split. Qed.

(** C9.  With the two present values (root, 0) and (c, 0), [entries()]
    yields the first only; with the one present value (c, 0), [entries()]
    yields nothing. *)
Theorem entries_misses_present_values :
  Spec.listOrder rootAndChild 2 rootThenChild = [at_ root 0; at_ c 0]
  /\ entries rootAndChild 10 rootThenChild None None
     = Some [(at_ root 0, "x"%string)]
  /\ entries rootAndChild 10 rootThenChild (Some 0) (Some 2)
     = Some [(at_ root 0, "x"%string)]
  /\ Spec.listOrder rootAndChild 2 childSet = [at_ c 0]
  /\ entries rootAndChild 10 childSet None None = Some [].
Proof. repeat split. Qed.

(** ** Instances *)

Lemma get_has_without_record_witness :
  getNodeFor rootAndChild (at_ c 3) = Ok c
  /\ get rootAndChild (at_ c 3) (@empty string) = (Ok None, empty)
  /\ has rootAndChild (at_ c 3) (@empty string) = (Ok false, empty).
Proof.
  split; [reflexivity |].
  destruct (get_has_without_record rootAndChild (@empty string) (at_ c 3)
              (node := c) eq_refl eq_refl) as (Hget & Hhas & _).
  split; assumption.
Defined.

(** * Further properties of [ItemList] *)

Section ReaderFacts.

Context {T : Type}.

Variable order : Order.

(** The read-only helpers answer from the map of records alone. *)
Lemma totalOf_reads_state (node : OrderNode) (l : ItemList T) :
  exists t, forall l2, state l2 = state l -> totalOf node l2 = (Ok t, l2).
Proof.
  unfold totalOf, bind, stateGet, ret.
  destruct (mapGet (state l) node) as [d |] eqn:Hd.
  - exists (total d). intros l2 H. now rewrite H, Hd.
  - exists 0. intros l2 H. now rewrite H, Hd.
Qed.

Lemma getInNode_reads_state (node : OrderNode) (index : Z) (l : ItemList T) :
  exists info,
    forall l2, state l2 = state l -> getInNode node index l2 = (Ok info, l2).
Proof.
  unfold getInNode, bind, stateGet, ret.
  destruct (mapGet (state l) node) as [d |] eqn:Hd.
  - eexists. intros l2 H. rewrite H, Hd. reflexivity.
  - eexists. intros l2 H. rewrite H, Hd. reflexivity.
Qed.

Lemma childrenBefore_reads_state (children : list OrderNode) (index : Z)
  (l : ItemList T) :
  forall acc,
    exists t,
      forall l2, state l2 = state l ->
                 childrenBefore children index acc l2 = (Ok t, l2).
Proof.
  induction children as [| child rest IH]; intros acc; simpl.
  - exists acc. reflexivity.
  - destruct (negb (nextValueIndex child <=? index)).
    + exists acc. reflexivity.
    + destruct (totalOf_reads_state child l) as [t Ht].
      destruct (IH (acc + t)) as [r Hr].
      exists r. intros l2 H. unfold bind. rewrite (Ht l2 H). now apply Hr.
Qed.

Lemma siblingsBefore_reads_state (siblings : list OrderNode)
  (current : OrderNode) (l : ItemList T) :
  forall acc,
    exists t,
      forall l2, state l2 = state l ->
                 siblingsBefore siblings current acc l2 = (Ok t, l2).
Proof.
  induction siblings as [| child rest IH]; intros acc; simpl.
  - exists acc. reflexivity.
  - destruct (sameNode child current).
    + exists acc. reflexivity.
    + destruct (totalOf_reads_state child l) as [t Ht].
      destruct (IH (acc + t)) as [r Hr].
      exists r. intros l2 H. unfold bind. rewrite (Ht l2 H). now apply Hr.
Qed.

Lemma walkUp_reads_state (current : OrderNode) (l : ItemList T) :
  forall acc,
    exists t,
      forall l2, state l2 = state l -> walkUp order current acc l2 = (Ok t, l2).
Proof.
  induction current as [i v p IH] using OrderNode_parent_ind.
  intros acc. destruct p as [p |]; simpl.
  - set (acc1 := acc + match mapGet (state l) p with
                        | Some pd => parentValuesBefore pd
                        | None => 0
                        end).
    destruct (siblingsBefore_reads_state (getChildren order p)
                {| id := i; nextValueIndex := v; parent := Some p |} l acc1)
      as [s Hs].
    destruct (IH p eq_refl s) as [r Hr].
    exists r. intros l2 H. unfold bind, stateGet. rewrite H.
    fold acc1. rewrite (Hs l2 H). now apply Hr.
  - exists acc. reflexivity.
Qed.

(** One call of [indexOfPosition], step by step. *)
Lemma indexOfPosition_eval (pos : Position) (dir : SearchDir)
  (l : ItemList T) (node : OrderNode) (info : option T * bool * Z)
  (vb bw : Z) :
  getNodeFor order pos = Ok node ->
  getInNode node (valueIndex pos) l = (Ok info, l) ->
  childrenBefore (getChildren order node) (valueIndex pos) (snd info) l
  = (Ok vb, l) ->
  walkUp order node 0 l = (Ok bw, l) ->
  indexOfPosition order pos dir l
  = (let b := if sameNodeOpt (cachedIndexNode l) node then cachedIndex l
              else bw in
     (Ok (if snd (fst info) then vb + b
          else
            match dir with
            | SearchNone => -1
            | SearchLeft => vb + b - 1
            | SearchRight => vb + b
            end),
      if sameNodeOpt (cachedIndexNode l) node then l
      else {| state := state l;
              cachedIndexNode := Some node;
              cachedIndex := bw |})).
Proof.
  intros Hnode Hinfo Hvb Hbw.
  unfold indexOfPosition, bind, lift. rewrite Hnode, Hinfo, Hvb.
  unfold getCachedIndexNode.
  destruct (sameNodeOpt (cachedIndexNode l) node).
  - unfold getCachedIndex.
    destruct (snd (fst info)); destruct dir; reflexivity.
  - rewrite Hbw. unfold setCachedIndexNode, setCachedIndex, ret. simpl.
    destruct (snd (fst info)); destruct dir; reflexivity.
Qed.

(** X1.  [indexOfPosition] on a position that resolves never fails and never
    changes the map of records; when it returns, the cache holds the node of
    the position. *)
Theorem indexOfPosition_only_writes_cache (pos : Position) (dir : SearchDir)
  (l : ItemList T) (node : OrderNode) :
  getNodeFor order pos = Ok node ->
  isOk (fst (indexOfPosition order pos dir l)) = true
  /\ state (snd (indexOfPosition order pos dir l)) = state l
  /\ sameNodeOpt (cachedIndexNode (snd (indexOfPosition order pos dir l)))
       node = true.
Proof.
  intros Hnode.
  destruct (getInNode_reads node (valueIndex pos) l) as [info Hinfo].
  destruct (childrenBefore_reads (getChildren order node) (valueIndex pos)
              (snd info) l) as [vb Hvb].
  destruct (walkUp_reads order node 0 l) as [bw Hbw].
  rewrite (indexOfPosition_eval pos dir Hnode Hinfo Hvb Hbw). simpl.
  destruct (sameNodeOpt (cachedIndexNode l) node) eqn:Hc; simpl.
  - auto.
  - repeat split. apply sameNode_refl.
Qed.

(** The bounds check of [positionAt] comes first and changes nothing. *)
Lemma positionAt_checks_bounds (index len : Z) (l : ItemList T) :
  length order l = (Ok len, l) ->
  index < 0 \/ len <= index ->
  positionAt order index l = (Throw IndexOutOfBounds, l).
Proof.
  intros Hlen Hrange. unfold positionAt, bind. rewrite Hlen.
  replace ((index <? 0) || (index >=? len)) with true; [reflexivity |].
  symmetry. apply orb_true_iff. destruct Hrange as [H | H].
  - left. now apply Z.ltb_lt.
  - right. apply Z.geb_le. lia.
Qed.

(** The search among the children reads the records and throws no bounds
    error. *)
Lemma positionAtFor_reads (current : OrderNode)
  (currentData : option (NodeData T)) (children : list OrderNode) :
  forall (remaining nvi before : Z) (l : ItemList T),
    snd (positionAtFor current currentData children remaining nvi before l)
    = l
    /\ fst (positionAtFor current currentData children remaining nvi
              before l)
       <> Throw IndexOutOfBounds.
Proof.
  induction children as [| child rest IH]; intros remaining nvi before l;
    cbn [positionAtFor].
  - unfold ret. split; [reflexivity | discriminate].
  - unfold bind, stateGet.
    destruct (mapGet (state l) child) as [cd |]; [| apply IH].
    destruct (remaining <? parentValuesBefore cd - before).
    + destruct currentData; unfold ret, throw;
        (split; [reflexivity | discriminate]).
    + destruct (remaining - (parentValuesBefore cd - before) <? total cd);
        [unfold ret; split; [reflexivity | discriminate] | apply IH].
Qed.

(** X3.  [positionAt] never changes the list, and it throws the bounds
    error exactly on an index outside [[0, length)]. *)
Theorem positionAt_out_of_bounds (index len : Z) (l : ItemList T) :
  length order l = (Ok len, l) ->
  snd (positionAt order index l) = l
  /\ (fst (positionAt order index l) = Throw IndexOutOfBounds
      <-> index < 0 \/ len <= index).
Proof.
  intros Hlen.
  destruct ((index <? 0) || (index >=? len)) eqn:Hb.
  - assert (Hrange : index < 0 \/ len <= index).
    { apply orb_true_iff in Hb. destruct Hb as [H | H].
      - left. now apply Z.ltb_lt.
      - right. apply Z.geb_le in H. lia. }
    rewrite (positionAt_checks_bounds (index := index) Hlen Hrange).
    split; [reflexivity |]. split; auto.
  - assert (Hin : 0 <= index < len).
    { apply orb_false_iff in Hb. destruct Hb as [Hlo Hhi].
      apply Z.ltb_ge in Hlo. rewrite Z.geb_leb in Hhi.
      apply Z.leb_gt in Hhi. lia. }
    unfold positionAt, bind. rewrite Hlen, Hb. unfold stateGet.
    pose proof (positionAtFor_reads (rootNode order)
                  (mapGet (state l) (rootNode order))
                  (getChildren order (rootNode order)) index 0 0 l)
      as [Hsnd Hfst].
    destruct (positionAtFor (rootNode order)
                (mapGet (state l) (rootNode order))
                (getChildren order (rootNode order)) index 0 0 l)
      as [[exit | e] l1]; cbn [fst snd] in Hsnd, Hfst; subst l1.
    + destruct exit; unfold ret, throw; cbn [fst snd];
        (split; [reflexivity |]); (split; [discriminate | lia]).
    + cbn [fst snd]. split; [reflexivity |].
      split; [intros H; congruence | lia].
Qed.

(** X4.  Whatever the tree and the records, a position that [positionAt]
    returns is a position of the root node, for an index inside
    [[0, length)]: it never answers with a position of another node. *)
Theorem positionAt_answers_at_root (index : Z) (l l' : ItemList T)
  (pos : Position) :
  positionAt order index l = (Ok pos, l') ->
  nodeID pos = id (rootNode order)
  /\ l' = l
  /\ exists len, length order l = (Ok len, l) /\ 0 <= index < len.
Proof.
  intros Hrun. split; [eapply positionAt_stays_at_root; eassumption |].
  revert Hrun. unfold positionAt, bind.
  destruct (totalOf_reads (rootNode order) l) as [len Hlen].
  unfold length. rewrite Hlen.
  destruct ((index <? 0) || (index >=? len)) eqn:Hb;
    [unfold throw; discriminate |].
  apply orb_false_iff in Hb. destruct Hb as [Hlo Hhi].
  apply Z.ltb_ge in Hlo. rewrite Z.geb_leb in Hhi. apply Z.leb_gt in Hhi.
  unfold stateGet.
  assert (Hfor : forall children remaining nvi before exit l1,
             positionAtFor (rootNode order)
               (mapGet (state l) (rootNode order)) children remaining nvi
               before l = (exit, l1) -> l1 = l).
  { induction children as [| child rest IH];
      intros remaining nvi before exit l1; simpl.
    - unfold ret. congruence.
    - unfold bind, stateGet.
      destruct (mapGet (state l) child) as [cd |]; [| apply IH].
      destruct (remaining <? parentValuesBefore cd - before).
      + destruct (mapGet (state l) (rootNode order)); unfold ret, throw;
          congruence.
      + destruct (remaining - (parentValuesBefore cd - before) <? total cd);
          [unfold ret; congruence | apply IH]. }
  destruct (positionAtFor (rootNode order) (mapGet (state l) (rootNode order))
              (getChildren order (rootNode order)) index 0 0 l)
    as [[exit | e] l1] eqn:Hrun1; [| discriminate].
  apply Hfor in Hrun1. subst l1.
  destruct exit; unfold ret, throw; try discriminate.
  intros H. inversion H; subst. split; [reflexivity |].
  exists len. split; [reflexivity | lia].
Qed.

End ReaderFacts.

(** ** Mutators: failures, [clear], [load], [insertAt] *)

Section MutatorFacts.

Context {T : Type}.

Variable order : Order.

(** [set] throws only before it writes. *)
Lemma set_throws_before_writing (pos : Position) (item : list T)
  (l l' : ItemList T) (e : Error) :
  set order pos item l = (Throw e, l') -> l' = l.
Proof.
  unfold set, bind, lift.
  destruct (getNodeFor order pos) as [node | e0] eqn:Hnode.
  2: { simpl. intros H. now inversion H. }
  destruct (Z.of_nat (List.length item) =? 0); [discriminate |].
  destruct (sameNode node (rootNode order)) eqn:Hroot; simpl.
  - destruct (valueIndex pos + Z.of_nat (List.length item) - 1 >? 1).
    + unfold throw. intros H. now inversion H.
    + destruct (getOrCreateData_runs node l) as (data & l1 & Hget & _).
      rewrite Hget. simpl.
      match goal with
      | |- context [onUpdate order node ?d ?l0] =>
          destruct (onUpdate_cache order node d l0) as (l2 & Hrun & _)
      end.
      rewrite Hrun. simpl. discriminate.
  - destruct (getOrCreateData_runs node l) as (data & l1 & Hget & _).
    rewrite Hget. simpl.
    match goal with
    | |- context [onUpdate order node ?d ?l0] =>
        destruct (onUpdate_cache order node d l0) as (l2 & Hrun & _)
    end.
    rewrite Hrun. simpl. discriminate.
Qed.

(** X5.  A [set] that throws has changed nothing, and it throws either the
    error of resolving the position or the root range error. *)
Theorem set_fails_atomically (pos : Position) (item : list T)
  (l : ItemList T) (e : Error) :
  fst (set order pos item l) = Throw e ->
  snd (set order pos item l) = l
  /\ (getNodeFor order pos = Throw e
      \/ e = InvalidPosition
         /\ exists node,
              getNodeFor order pos = Ok node
              /\ sameNode node (rootNode order) = true
              /\ 1 < valueIndex pos + Z.of_nat (List.length item) - 1).
Proof.
  unfold set, bind, lift.
  destruct (getNodeFor order pos) as [node | e0] eqn:Hnode.
  2: { simpl. intros H. inversion H; subst. auto. }
  destruct (Z.of_nat (List.length item) =? 0); [discriminate |].
  destruct (sameNode node (rootNode order)) eqn:Hroot; simpl.
  - destruct (valueIndex pos + Z.of_nat (List.length item) - 1 >? 1) eqn:Hgt.
    + unfold throw. simpl. intros H. inversion H; subst.
      split; [reflexivity | right]. split; [reflexivity |].
      exists node. repeat split; try assumption.
      apply Z.gtb_lt in Hgt. lia.
    + destruct (getOrCreateData_runs node l) as (data & l1 & Hget & _).
      rewrite Hget. simpl.
      match goal with
      | |- context [onUpdate order node ?d ?l0] =>
          destruct (onUpdate_cache order node d l0) as (l2 & Hrun & _)
      end.
      rewrite Hrun. discriminate.
  - destruct (getOrCreateData_runs node l) as (data & l1 & Hget & _).
    rewrite Hget. simpl.
    match goal with
    | |- context [onUpdate order node ?d ?l0] =>
        destruct (onUpdate_cache order node d l0) as (l2 & Hrun & _)
    end.
    rewrite Hrun. discriminate.
Qed.

(** X6.  A [delete] that throws has changed nothing, and it throws either
    the error of resolving the position or the root range error. *)
Theorem delete_fails_atomically (pos : Position) (count : Z)
  (l : ItemList T) (e : Error) :
  fst (delete order pos count l) = Throw e ->
  snd (delete order pos count l) = l
  /\ (getNodeFor order pos = Throw e
      \/ e = InvalidPosition
         /\ exists node,
              getNodeFor order pos = Ok node
              /\ sameNode node (rootNode order) = true
              /\ 1 < valueIndex pos + count - 1).
Proof.
  unfold delete, bind, lift.
  destruct (getNodeFor order pos) as [node | e0] eqn:Hnode.
  2: { simpl. intros H. inversion H; subst. auto. }
  destruct (count =? 0); [discriminate |].
  assert (Hrest :
    fst (let (r, l') := stateGet node l in
         match r with
         | Ok a =>
             match a with
             | Some data =>
                 let
                 '(newArr, existing) :=
                  Sparse.delete (values data) (valueIndex pos) count in
                  fun l0 : ItemList T =>
                  let (r0, l'0) :=
                    stateSet node (withValues data (Sparse.trim newArr)) l0 in
                  match r0 with
                  | Ok _ =>
                      let (r1, l'1) :=
                        onUpdate order node (0 - Sparse.size existing) l'0 in
                      match r1 with
                      | Ok _ => ret existing l'1
                      | Throw e1 => (Throw e1, l'1)
                      end
                  | Throw e1 => (Throw e1, l'0)
                  end
             | None => ret (Sparse.new count)
             end l'
         | Throw e1 => (Throw e1, l')
         end) <> Throw e).
  { unfold stateGet. destruct (mapGet (state l) node) as [data |];
      [| discriminate].
    simpl.
    match goal with
    | |- context [onUpdate order node ?d ?l0] =>
        destruct (onUpdate_cache order node d l0) as (l2 & Hrun & _)
    end.
    rewrite Hrun. discriminate. }
  destruct (sameNode node (rootNode order)) eqn:Hroot; simpl.
  - destruct (valueIndex pos + count - 1 >? 1) eqn:Hgt.
    + unfold throw. simpl. intros H. inversion H; subst.
      split; [reflexivity | right]. split; [reflexivity |].
      exists node. repeat split; try assumption.
      apply Z.gtb_lt in Hgt. lia.
    + intros H. now apply Hrest in H.
  - intros H. now apply Hrest in H.
Qed.

Lemma totalOf_on_empty (node : OrderNode) (l : ItemList T) :
  state l = [] -> totalOf node l = (Ok 0, l).
Proof.
  intros Hempty. unfold totalOf, bind, stateGet, ret. simpl.
  now rewrite Hempty.
Qed.

Lemma childrenBefore_on_empty (children : list OrderNode) (index : Z)
  (l : ItemList T) :
  state l = [] ->
  forall acc, childrenBefore children index acc l = (Ok acc, l).
Proof.
  intros Hempty.
  induction children as [| child rest IH]; intros acc; simpl.
  - reflexivity.
  - destruct (negb (nextValueIndex child <=? index)); [reflexivity |].
    unfold bind. rewrite totalOf_on_empty by assumption.
    rewrite Z.add_0_r. apply IH.
Qed.

Lemma siblingsBefore_on_empty (siblings : list OrderNode)
  (current : OrderNode) (l : ItemList T) :
  state l = [] ->
  forall acc, siblingsBefore siblings current acc l = (Ok acc, l).
Proof.
  intros Hempty.
  induction siblings as [| child rest IH]; intros acc; simpl.
  - reflexivity.
  - destruct (sameNode child current); [reflexivity |].
    unfold bind. rewrite totalOf_on_empty by assumption.
    rewrite Z.add_0_r. apply IH.
Qed.

Lemma walkUp_on_empty (current : OrderNode) (l : ItemList T) :
  state l = [] ->
  forall acc, walkUp order current acc l = (Ok acc, l).
Proof.
  intros Hempty.
  induction current as [i v p IH] using OrderNode_parent_ind.
  intros acc. destruct p as [p |]; simpl; [| reflexivity].
  unfold bind, stateGet. simpl. rewrite Hempty. simpl. rewrite Z.add_0_r.
  rewrite siblingsBefore_on_empty by assumption.
  apply (IH p eq_refl).
Qed.

(** X7.  After [clear] every reader sees the empty list: the length is 0, a
    position that resolves is absent, its index is -1 (0 to the right), no
    index has a position, nothing is iterated and nothing is saved. *)
Theorem clear_then_read (l : ItemList T) (pos : Position)
  (node : OrderNode) :
  getNodeFor order pos = Ok node ->
  fst (length order (snd (clear l))) = Ok 0
  /\ fst (get order pos (snd (clear l))) = Ok None
  /\ fst (has order pos (snd (clear l))) = Ok false
  /\ (forall dir,
        fst (indexOfPosition order pos dir (snd (clear l)))
        = Ok (match dir with SearchRight => 0 | _ => -1 end))
  /\ (forall index,
        fst (positionAt order index (snd (clear l)))
        = Throw IndexOutOfBounds)
  /\ (forall fuel start end_,
        entries order fuel (snd (clear l)) start end_ = Some [])
  /\ forall (S : Type) (saveArray : Sparse.SparseItems T -> S),
       save saveArray (snd (clear l)) = [].
Proof.
  intros Hnode.
  set (l' := snd (clear l)).
  assert (Hempty : state l' = []) by reflexivity.
  assert (Hget : forall n, mapGet (state l') n = None) by reflexivity.
  repeat split.
  - unfold get, getInNode, bind, lift, stateGet. now rewrite Hnode.
  - unfold has, getInNode, bind, lift, stateGet. now rewrite Hnode.
  - intros dir.
    rewrite (indexOfPosition_eval order pos dir (l := l') (node := node)
               (info := (None, false, 0)) (vb := 0) (bw := 0) Hnode).
    + simpl. destruct dir; reflexivity.
    + reflexivity.
    + now apply childrenBefore_on_empty.
    + now apply walkUp_on_empty.
  - intros index. now rewrite positionAt_on_empty_length.
  - intros fuel start end_. apply entries_empty_range.
    rewrite Hget. rewrite normalizeSliceRange_slice by lia.
    unfold Spec.sliceRange, Spec.sliceIndex.
    destruct start as [s |], end_ as [e |];
      repeat match goal with
             | |- context [?a <? ?b] => destruct (Z.ltb_spec a b)
             | |- context [?a <=? ?b] => destruct (Z.leb_spec a b)
             end; try reflexivity; lia.
Qed.

(** X8.  [insertAt] with an index outside [[0, length]] throws the bounds
    error before the order is asked for positions, and leaves the list as
    it was. *)
Theorem insertAt_out_of_bounds (createPositions : CreatePositions)
  (index len : Z) (item : list T) (l : ItemList T) :
  length order l = (Ok len, l) ->
  index < 0 \/ len < index ->
  insertAt createPositions order index item l = (Throw IndexOutOfBounds, l).
Proof.
  intros Hlen Hrange. unfold insertAt, bind.
  destruct (index =? 0) eqn:Hzero.
  - apply Z.eqb_eq in Hzero. subst index.
    unfold ret at 1. rewrite Hlen.
    destruct (0 =? len) eqn:Hl; [apply Z.eqb_eq in Hl; lia |].
    rewrite (positionAt_checks_bounds order (index := 0) Hlen) by lia.
    reflexivity.
  - rewrite (positionAt_checks_bounds order (index := index - 1) Hlen) by lia.
    reflexivity.
Qed.

(** Methods that leave [cachedIndex] alone, bottom up. *)
Lemma ignoresCachedIndex_ret {A : Type} (a : A) :
  ignoresCachedIndex (@ret T A a).
Proof. intros l i. reflexivity. Qed.

Lemma ignoresCachedIndex_bind {A B : Type} (c : M T A) (k : A -> M T B) :
  ignoresCachedIndex c ->
  (forall a, ignoresCachedIndex (k a)) ->
  ignoresCachedIndex (bind c k).
Proof.
  intros Hc Hk l i. unfold bind. rewrite Hc.
  destruct (c l) as [[a | e] l1]; simpl; [apply Hk | reflexivity].
Qed.

Lemma ignoresCachedIndex_stateGet (node : OrderNode) :
  ignoresCachedIndex (@stateGet T node).
Proof. intros l i. reflexivity. Qed.

Lemma ignoresCachedIndex_stateSet (node : OrderNode) (data : NodeData T) :
  ignoresCachedIndex (stateSet node data).
Proof. intros l i. reflexivity. Qed.

Lemma ignoresCachedIndex_stateDelete (node : OrderNode) :
  ignoresCachedIndex (@stateDelete T node).
Proof. intros l i. reflexivity. Qed.

Lemma ignoresCachedIndex_getOrCreateData (node : OrderNode) :
  ignoresCachedIndex (getOrCreateData (T := T) node).
Proof.
  unfold getOrCreateData.
  apply ignoresCachedIndex_bind; [apply ignoresCachedIndex_stateGet |].
  intros [data |]; [apply ignoresCachedIndex_ret |].
  apply ignoresCachedIndex_bind.
  - destruct (parent node) as [p |]; [| apply ignoresCachedIndex_ret].
    apply ignoresCachedIndex_bind; [apply ignoresCachedIndex_stateGet |].
    intros [pd |]; apply ignoresCachedIndex_ret.
  - intros b. apply ignoresCachedIndex_bind;
      [apply ignoresCachedIndex_stateSet |].
    intros _. apply ignoresCachedIndex_ret.
Qed.

Lemma ignoresCachedIndex_updateTotals (node : OrderNode) (delta : Z)
  (current : OrderNode) :
  ignoresCachedIndex (updateTotals (T := T) node delta current).
Proof.
  induction current as [i v p IH] using OrderNode_parent_ind.
  simpl.
  apply ignoresCachedIndex_bind; [apply ignoresCachedIndex_getOrCreateData |].
  intros data.
  apply ignoresCachedIndex_bind; [apply ignoresCachedIndex_stateSet |].
  intros _.
  apply ignoresCachedIndex_bind.
  - destruct (total data + delta =? 0);
      [apply ignoresCachedIndex_stateDelete | apply ignoresCachedIndex_ret].
  - intros _. destruct p as [p |];
      [apply (IH p eq_refl) | apply ignoresCachedIndex_ret].
Qed.

Lemma ignoresCachedIndex_updateChildren (nodeData : NodeData T)
  (children : list OrderNode) :
  ignoresCachedIndex (updateChildren nodeData children).
Proof.
  induction children as [| child rest IH]; simpl.
  - apply ignoresCachedIndex_ret.
  - apply ignoresCachedIndex_bind; [apply ignoresCachedIndex_stateGet |].
    intros [cd |].
    + apply ignoresCachedIndex_bind;
        [apply ignoresCachedIndex_stateSet | intros _; exact IH].
    + apply ignoresCachedIndex_bind;
        [apply ignoresCachedIndex_ret | intros _; exact IH].
Qed.

Lemma ignoresCachedIndex_onUpdate (node : OrderNode) (delta : Z) :
  ignoresCachedIndex (onUpdate (T := T) order node delta).
Proof.
  unfold onUpdate.
  apply ignoresCachedIndex_bind; [intros l i; reflexivity |].
  intros cached.
  apply ignoresCachedIndex_bind.
  - destruct (sameNodeOpt cached node);
      [apply ignoresCachedIndex_ret | intros l i; reflexivity].
  - intros _. apply ignoresCachedIndex_bind.
    + destruct (delta =? 0);
        [apply ignoresCachedIndex_ret | apply ignoresCachedIndex_updateTotals].
    + intros _.
      apply ignoresCachedIndex_bind; [apply ignoresCachedIndex_stateGet |].
      intros [nd |];
        [apply ignoresCachedIndex_updateChildren | apply ignoresCachedIndex_ret].
Qed.

Lemma ignoresCachedIndex_loadLoop {S : Type}
  (loadArray : S -> Sparse.SparseItems T) (savedState : list (string * S)) :
  ignoresCachedIndex (loadLoop order loadArray savedState).
Proof.
  induction savedState as [| [nodeID0 savedArr] rest IH]; simpl.
  - apply ignoresCachedIndex_ret.
  - destruct (getNode order nodeID0) as [node |];
      [| intros l i; reflexivity].
    apply ignoresCachedIndex_bind; [apply ignoresCachedIndex_getOrCreateData |].
    intros data.
    apply ignoresCachedIndex_bind; [apply ignoresCachedIndex_stateSet |].
    intros _.
    apply ignoresCachedIndex_bind; [apply ignoresCachedIndex_onUpdate |].
    intros _. exact IH.
Qed.

Lemma loadLoop_runs {S : Type} (loadArray : S -> Sparse.SparseItems T)
  (savedState : list (string * S)) :
  forall l : ItemList T,
    fst (loadLoop order loadArray savedState l)
    = (if forallb (fun entry => knownID order (fst entry)) savedState
       then Ok tt else Throw MissingNode)
    /\ (cachedIndexNode l = None ->
        cachedIndexNode (snd (loadLoop order loadArray savedState l)) = None).
Proof.
  induction savedState as [| [nodeID0 savedArr] rest IH]; intros l; simpl.
  - auto.
  - unfold knownID at 1. simpl.
    destruct (getNode order nodeID0) as [node |]; simpl; [| auto].
    unfold bind.
    destruct (getOrCreateData_runs node l) as (data & l1 & Hget & Hn1 & _).
    rewrite Hget. unfold stateSet. cbv beta iota.
    match goal with
    | |- context [onUpdate order node ?d ?l0] =>
        destruct (onUpdate_cache order node d l0) as (l2 & Hrun & Hn2 & _)
    end.
    rewrite Hrun. simpl in Hn2.
    destruct (IH l2) as [Hout Hcache]. split; [exact Hout |].
    intros Hnone. apply Hcache. rewrite Hn1, Hnone in Hn2. exact Hn2.
Qed.

(** X9.  [load] ends normally exactly when the order knows every node id of
    the saved state, and throws the missing-node error otherwise. *)
Theorem load_outcome {S : Type} (savedState : list (string * S))
  (loadArray : S -> Sparse.SparseItems T) (l : ItemList T) :
  fst (load order savedState loadArray l)
  = (if forallb (fun entry => knownID order (fst entry)) savedState
     then Ok tt else Throw MissingNode).
Proof.
  unfold load, bind. simpl. apply loadLoop_runs.
Qed.

(** X10.  [load] overwrites the whole state: the outcome and the records
    after it are those of loading into a new list, whatever the list held
    before, and the cache is empty afterwards. *)
Theorem load_overwrites {S : Type} (savedState : list (string * S))
  (loadArray : S -> Sparse.SparseItems T) (l : ItemList T) :
  fst (load order savedState loadArray l)
  = fst (load order savedState loadArray empty)
  /\ state (snd (load order savedState loadArray l))
     = state (snd (load order savedState loadArray empty))
  /\ cachedIndexNode (snd (load order savedState loadArray l)) = None.
Proof.
  unfold load, bind. simpl.
  pose proof (ignoresCachedIndex_loadLoop loadArray savedState
                {| state := []; cachedIndexNode := None; cachedIndex := -1 |}
                (cachedIndex l)) as Hidx.
  unfold withCachedIndex in Hidx at 1. simpl in Hidx.
  rewrite Hidx. simpl. repeat split.
  apply (loadLoop_runs loadArray savedState
           {| state := []; cachedIndexNode := None; cachedIndex := -1 |}).
  reflexivity.
Qed.

End MutatorFacts.

(** ** The sparse sequences under [set] and [delete] *)

Section StoreFacts.

Context {T : Type}.

Lemma presentCount_app (a b : list (option T)) :
  presentCount (a ++ b) = presentCount a + presentCount b.
Proof.
  induction a as [| [v |] a IH]; cbn [presentCount app]; lia.
Qed.

Lemma presentCount_repeat_None (n : nat) :
  presentCount (repeat (@None T) n) = 0.
Proof. induction n; cbn [presentCount repeat]; auto. Qed.

Lemma presentCount_map_Some (vs : list T) :
  presentCount (map Some vs) = Z.of_nat (List.length vs).
Proof.
  induction vs as [| v vs IH]; cbn [presentCount map List.length];
    [reflexivity | lia].
Qed.

Lemma presentCount_nonneg (s : list (option T)) : 0 <= presentCount s.
Proof. induction s as [| [v |] s IH]; cbn [presentCount]; lia. Qed.

Lemma presentCount_firstn_le (n : nat) (s : list (option T)) :
  presentCount (firstn n s) <= presentCount s
  /\ presentCount (firstn n s) <= Z.of_nat n.
Proof.
  revert s. induction n as [| n IH]; intros s.
  - cbn [firstn presentCount]. pose proof (presentCount_nonneg s). lia.
  - destruct s as [| [v |] s]; cbn [firstn presentCount].
    + lia.
    + specialize (IH s). lia.
    + specialize (IH s). lia.
Qed.

Lemma presentCount_firstn_pad (n m : nat) (s : list (option T)) :
  presentCount (firstn n (s ++ repeat None m)) = presentCount (firstn n s).
Proof.
  revert s. induction n as [| n IH]; intros s; [reflexivity |].
  destruct s as [| [v |] s]; cbn [app].
  - rewrite firstn_nil. cbn [presentCount].
    pose proof (presentCount_firstn_le (S n) (repeat (@None T) m)) as [H _].
    rewrite presentCount_repeat_None in H.
    pose proof (presentCount_nonneg (firstn (S n) (repeat (@None T) m))).
    lia.
  - cbn [firstn presentCount]. now rewrite IH.
  - cbn [firstn presentCount]. apply IH.
Qed.

Lemma presentCount_split (i n : nat) (s : list (option T)) :
  presentCount s
  = presentCount (firstn i s)
    + presentCount (firstn n (skipn i s))
    + presentCount (skipn (i + n) s).
Proof.
  rewrite <- (firstn_skipn i s) at 1. rewrite presentCount_app.
  rewrite <- (firstn_skipn n (skipn i s)) at 1. rewrite presentCount_app.
  rewrite skipn_skipn. rewrite (Nat.add_comm n i). lia.
Qed.

Lemma size_toSlots (arr : Sparse.SparseItems T) :
  Sparse.size arr = presentCount (Sparse.toSlots arr).
Proof.
  induction arr as [| [vs | n] arr IH]; cbn [Sparse.size Sparse.toSlots].
  - reflexivity.
  - rewrite presentCount_app, presentCount_map_Some. lia.
  - rewrite presentCount_app, presentCount_repeat_None. lia.
Qed.

Lemma size_ofSlots (s : list (option T)) :
  Sparse.size (Sparse.ofSlots s) = presentCount s.
Proof.
  induction s as [| [v |] s IH]; cbn [Sparse.ofSlots presentCount].
  - reflexivity.
  - destruct (Sparse.ofSlots s) as [| [vs | n] runs];
      cbn [Sparse.size List.length] in *; lia.
  - destruct (Sparse.ofSlots s) as [| [vs | n] runs];
      cbn [Sparse.size List.length] in *; lia.
Qed.

Lemma size_trim (arr : Sparse.SparseItems T) :
  Sparse.size (Sparse.trim arr) = Sparse.size arr.
Proof.
  induction arr as [| [vs | n] arr IH]; cbn [Sparse.trim Sparse.size].
  - reflexivity.
  - destruct (Sparse.trim arr); cbn [Sparse.size] in *; lia.
  - destruct (Sparse.trim arr); cbn [Sparse.size] in *; lia.
Qed.

Lemma size_nonneg (arr : Sparse.SparseItems T) : 0 <= Sparse.size arr.
Proof. rewrite size_toSlots. apply presentCount_nonneg. Qed.

Lemma size_new (n : Z) : Sparse.size (@Sparse.new T n) = 0.
Proof. unfold Sparse.new. now destruct (n =? 0). Qed.

(** The presence delta that [set] reports is the change of the size. *)
Lemma Sparse_set_size (arr : Sparse.SparseItems T) (index : Z)
  (item : list T) :
  Sparse.size (fst (Sparse.set arr index item))
  = Sparse.size arr + Z.of_nat (List.length item)
    - Sparse.size (snd (Sparse.set arr index item))
  /\ 0 <= Sparse.size (snd (Sparse.set arr index item))
     <= Z.of_nat (List.length item)
  /\ Sparse.size (snd (Sparse.set arr index item)) <= Sparse.size arr.
Proof.
  unfold Sparse.set. cbn [fst snd].
  rewrite size_trim, !size_ofSlots, size_toSlots.
  unfold Sparse.overwrite, Sparse.window.
  rewrite !presentCount_app, !presentCount_firstn_pad, presentCount_map_Some.
  rewrite length_map.
  set (s := Sparse.toSlots arr). set (i := Z.to_nat index).
  set (n := List.length item).
  pose proof (presentCount_split i n s) as Hsplit.
  pose proof (presentCount_firstn_le n (skipn i s)) as [Hle1 Hle2].
  pose proof (presentCount_nonneg (firstn n (skipn i s))).
  pose proof (presentCount_nonneg (firstn i s)).
  pose proof (presentCount_nonneg (skipn (i + n) s)).
  lia.
Qed.

Lemma Sparse_delete_size (arr : Sparse.SparseItems T) (index count : Z) :
  Sparse.size (fst (Sparse.delete arr index count))
  = Sparse.size arr - Sparse.size (snd (Sparse.delete arr index count))
  /\ 0 <= Sparse.size (snd (Sparse.delete arr index count))
     <= Sparse.size arr.
Proof.
  unfold Sparse.delete. cbn [fst snd].
  rewrite size_trim, !size_ofSlots, size_toSlots.
  unfold Sparse.overwrite, Sparse.window.
  rewrite !presentCount_app, !presentCount_firstn_pad,
    presentCount_repeat_None.
  rewrite repeat_length.
  set (s := Sparse.toSlots arr). set (i := Z.to_nat index).
  set (n := Z.to_nat count).
  pose proof (presentCount_split i n s) as Hsplit.
  pose proof (presentCount_firstn_le n (skipn i s)) as [Hle1 Hle2].
  pose proof (presentCount_nonneg (firstn n (skipn i s))).
  pose proof (presentCount_nonneg (firstn i s)).
  pose proof (presentCount_nonneg (skipn (i + n) s)).
  lia.
Qed.

Lemma getInfo_trim (arr : Sparse.SparseItems T) :
  forall index, Sparse.getInfo (Sparse.trim arr) index = Sparse.getInfo arr index.
Proof.
  induction arr as [| [vs | n] arr IH]; intros index;
    cbn [Sparse.trim Sparse.getInfo].
  - reflexivity.
  - destruct (Sparse.trim arr) eqn:Htrim; cbn [Sparse.getInfo];
      now rewrite <- IH.
  - destruct (Sparse.trim arr) eqn:Htrim; cbn [Sparse.getInfo].
    + rewrite <- IH. cbn [Sparse.getInfo]. now destruct (index <? n).
    + now rewrite <- IH.
Qed.

Lemma regularRuns_ofSlots (s : list (option T)) :
  regularRuns (Sparse.ofSlots s).
Proof.
  unfold regularRuns.
  induction s as [| [v |] s IH]; cbn [Sparse.ofSlots].
  - constructor.
  - destruct (Sparse.ofSlots s) as [| [vs | n] runs].
    + repeat constructor.
    + inversion IH; subst. now constructor.
    + now constructor.
  - destruct (Sparse.ofSlots s) as [| [vs | n] runs].
    + repeat constructor. lia.
    + constructor; [lia | assumption].
    + inversion IH; subst. constructor; [lia | assumption].
Qed.

Lemma toSlots_ofSlots (s : list (option T)) :
  Sparse.toSlots (Sparse.ofSlots s) = s.
Proof.
  induction s as [| [v |] s IH]; cbn [Sparse.ofSlots].
  - reflexivity.
  - destruct (Sparse.ofSlots s) as [| [vs | n] runs];
      cbn [Sparse.toSlots map app] in *; now rewrite IH.
  - pose proof (regularRuns_ofSlots s) as Hreg.
    destruct (Sparse.ofSlots s) as [| [vs | n] runs];
      cbn [Sparse.toSlots map app repeat] in *; try now rewrite IH.
    inversion Hreg as [| run runs0 Hn Hruns].
    replace (Z.to_nat (n + 1)) with (S (Z.to_nat n)) by lia.
    cbn [repeat app]. now rewrite IH.
Qed.

(** What [getInfo] says about a slot is what the slot list holds there. *)
Lemma getInfo_slots (arr : Sparse.SparseItems T) :
  regularRuns arr ->
  forall index,
    0 <= index ->
    fst (Sparse.getInfo arr index)
    = match nth_error (Sparse.toSlots arr) (Z.to_nat index) with
      | Some (Some v) => (Some v, true)
      | _ => (None, false)
      end.
Proof.
  unfold regularRuns.
  induction arr as [| [vs | n] arr IH]; intros Hreg index Hindex;
    cbn [Sparse.getInfo Sparse.toSlots].
  - now destruct (Z.to_nat index).
  - inversion Hreg; subst.
    destruct (Z.ltb_spec index (Z.of_nat (List.length vs))) as [Hlt | Hge].
    + cbn [fst]. rewrite nth_error_app1 by (rewrite length_map; lia).
      rewrite nth_error_map.
      destruct (nth_error vs (Z.to_nat index)) as [v |] eqn:Hnth;
        [reflexivity |].
      apply nth_error_None in Hnth. lia.
    + rewrite nth_error_app2 by (rewrite length_map; lia).
      rewrite length_map.
      replace (Z.to_nat index - List.length vs)%nat
        with (Z.to_nat (index - Z.of_nat (List.length vs))) by lia.
      rewrite <- IH by (assumption || lia).
      now destruct (Sparse.getInfo arr (index - Z.of_nat (List.length vs)))
        as [[v p] b].
  - inversion Hreg; subst.
    destruct (Z.ltb_spec index n) as [Hlt | Hge].
    + cbn [fst]. rewrite nth_error_app1 by (rewrite repeat_length; lia).
      destruct (nth_error (repeat (@None T) (Z.to_nat n)) (Z.to_nat index))
        as [[v |] |] eqn:Hnth; try reflexivity.
      apply nth_error_In, repeat_spec in Hnth. discriminate.
    + rewrite nth_error_app2 by (rewrite repeat_length; lia).
      rewrite repeat_length.
      replace (Z.to_nat index - Z.to_nat n)%nat
        with (Z.to_nat (index - n)) by lia.
      apply IH; [assumption | lia].
Qed.

Lemma overwrite_nth (s : list (option T)) (i : nat)
  (w : list (option T)) (k : nat) :
  (k < List.length w)%nat ->
  nth_error (Sparse.overwrite s i w) (i + k) = nth_error w k.
Proof.
  intros Hk. unfold Sparse.overwrite.
  assert (Hlen : List.length (firstn i (s ++ repeat None i)) = i).
  { rewrite length_firstn, length_app, repeat_length. lia. }
  rewrite nth_error_app2 by lia. rewrite Hlen.
  replace (i + k - i)%nat with k by lia.
  now rewrite nth_error_app1.
Qed.

(** After [set], the slots written hold the values of the item. *)
Lemma Sparse_set_getInfo (arr : Sparse.SparseItems T) (index : Z)
  (item : list T) (k : nat) (v : T) :
  0 <= index ->
  nth_error item k = Some v ->
  fst (Sparse.getInfo (Sparse.trim (fst (Sparse.set arr index item)))
         (index + Z.of_nat k))
  = (Some v, true).
Proof.
  intros Hindex Hk. unfold Sparse.set. cbn [fst].
  rewrite !getInfo_trim.
  rewrite getInfo_slots by (apply regularRuns_ofSlots || lia).
  rewrite toSlots_ofSlots.
  replace (Z.to_nat (index + Z.of_nat k)) with (Z.to_nat index + k)%nat by lia.
  assert (Hlt : (k < List.length item)%nat).
  { apply nth_error_Some. congruence. }
  rewrite overwrite_nth by (rewrite length_map; exact Hlt).
  rewrite nth_error_map, Hk. reflexivity.
Qed.

(** After [delete], the slots written are absent. *)
Lemma Sparse_delete_getInfo (arr : Sparse.SparseItems T) (index count : Z)
  (k : Z) :
  0 <= index ->
  0 <= k < count ->
  fst (Sparse.getInfo (Sparse.trim (fst (Sparse.delete arr index count)))
         (index + k))
  = (None, false).
Proof.
  intros Hindex Hk. unfold Sparse.delete. cbn [fst].
  rewrite !getInfo_trim.
  rewrite getInfo_slots by (apply regularRuns_ofSlots || lia).
  rewrite toSlots_ofSlots.
  replace (Z.to_nat (index + k)) with (Z.to_nat index + Z.to_nat k)%nat
    by lia.
  rewrite overwrite_nth by (rewrite repeat_length; lia).
  destruct (nth_error (repeat (@None T) (Z.to_nat count)) (Z.to_nat k))
    as [[v |] |] eqn:Hnth; try reflexivity.
  apply nth_error_In, repeat_spec in Hnth. discriminate.
Qed.

End StoreFacts.

(** ** Writing and reading back *)

Section RoundTripFacts.

Context {T : Type}.

Variable order : Order.

Lemma getOrCreateData_record (node : OrderNode) (l : ItemList T) :
  exists data l',
    getOrCreateData node l = (Ok data, l')
    /\ mapGet (state l') node = Some data
    /\ (mapGet (state l) node = Some data /\ l' = l
        \/ mapGet (state l) node = None
           /\ total data = 0 /\ values data = Sparse.new 0)
    /\ forall x, sameNode node x = false ->
                 mapGet (state l') x = mapGet (state l) x.
Proof.
  unfold getOrCreateData, bind, stateGet.
  destruct (mapGet (state l) node) as [data |] eqn:Hrec.
  - exists data, l. unfold ret.
    split; [reflexivity |]. split; [exact Hrec |]. split; [left |]; auto.
  - assert (Hset : forall b : Z,
      exists data l',
        (stateSet node (@mkNodeData T 0 b (Sparse.new 0)) ;;
         ret (@mkNodeData T 0 b (Sparse.new 0))) l = (Ok data, l')
        /\ mapGet (state l') node = Some data
        /\ (None = Some data /\ l' = l
            \/ None = (@None (NodeData T))
               /\ total data = 0 /\ values data = Sparse.new 0)
        /\ forall x, sameNode node x = false ->
                     mapGet (state l') x = mapGet (state l) x).
    { intros b. unfold bind, stateSet, ret. simpl.
      eexists _, _. split; [reflexivity |]. simpl.
      rewrite mapGet_mapSet, sameNode_refl. split; [reflexivity |].
      split; [right; auto |].
      intros x Hx. rewrite mapGet_mapSet, Hx. reflexivity. }
    destruct (parent node) as [p |]; [| apply Hset].
    destruct (mapGet (state l) p); apply Hset.
Qed.

Lemma updateChildren_values (nodeData : NodeData T)
  (children : list OrderNode) :
  forall (l : ItemList T) (x : OrderNode),
    option_map values
      (mapGet (state (snd (updateChildren nodeData children l))) x)
    = option_map values (mapGet (state l) x).
Proof.
  induction children as [| child rest IH]; intros l x; simpl.
  - reflexivity.
  - unfold bind, stateGet.
    destruct (mapGet (state l) child) as [cd |] eqn:Hchild.
    + unfold stateSet at 1. rewrite IH. simpl. rewrite mapGet_mapSet.
      destruct (sameNode child x) eqn:Hx; [| reflexivity].
      assert (Hsame : mapGet (state l) x = mapGet (state l) child).
      { apply sameNode_eq in Hx. clear -Hx.
        induction (state l) as [| [k d] m IHm]; simpl.
        - reflexivity.
        - unfold sameNode. rewrite Hx. now rewrite IHm. }
      rewrite Hsame, Hchild. reflexivity.
    + unfold ret at 1. apply IH.
Qed.

(** While the total of [node] cannot reach 0, the rounds of the totals loop
    touch nothing but that total. *)
Lemma updateTotals_growing (node : OrderNode) (delta : Z)
  (current : OrderNode) :
  0 < delta ->
  forall (l : ItemList T) (d : NodeData T),
    mapGet (state l) node = Some d ->
    0 <= total d ->
    exists t,
      0 <= t
      /\ mapGet (state (snd (updateTotals node delta current l))) node
         = Some (withTotal d t)
      /\ forall x, sameNode node x = false ->
                   mapGet (state (snd (updateTotals node delta current l))) x
                   = mapGet (state l) x.
Proof.
  intros Hdelta.
  induction current as [i v p IH] using OrderNode_parent_ind.
  intros l d Hrec Htotal. simpl. unfold bind.
  destruct (getOrCreateData_record node l)
    as (data & l1 & Hget & Hrec1 & [[Hold Heq] | [Hnone _]] & Hother);
    [| congruence].
  subst l1. assert (data = d) by congruence. subst data.
  rewrite Hget. unfold stateSet at 1. simpl.
  destruct (Z.eqb_spec (total d + delta) 0) as [Hz | Hz]; [lia |].
  unfold ret at 1.
  set (l2 := {| state := mapSet (state l) node
                           (withTotal d (total d + delta));
                cachedIndexNode := cachedIndexNode l;
                cachedIndex := cachedIndex l |}).
  assert (Hrec2 : mapGet (state l2) node
                  = Some (withTotal d (total d + delta))).
  { simpl. now rewrite mapGet_mapSet, sameNode_refl. }
  assert (Hother2 : forall x, sameNode node x = false ->
                              mapGet (state l2) x = mapGet (state l) x).
  { intros x Hx. simpl. now rewrite mapGet_mapSet, Hx. }
  destruct p as [p |].
  - destruct (IH p eq_refl l2 _ Hrec2) as (t & Ht & Hnode & Hrest);
      [simpl; lia |].
    exists t. split; [exact Ht |]. split; [exact Hnode |].
    intros x Hx. rewrite Hrest by assumption. now apply Hother2.
  - exists (total d + delta). split; [lia |]. split; [exact Hrec2 |].
    exact Hother2.
Qed.

(** A [set] on a node whose total is not negative keeps the sequences of all
    other records and installs the new sequence at the node. *)
Lemma set_installs_values (pos : Position) (item : list T)
  (l : ItemList T) (node : OrderNode) (existing : Sparse.SparseItems T) :
  getNodeFor order pos = Ok node ->
  (forall d, mapGet (state l) node = Some d -> 0 <= total d) ->
  fst (set order pos item l) = Ok existing ->
  item <> [] ->
  (exists d,
      mapGet (state (snd (set order pos item l))) node = Some d
      /\ exists old,
           values d
           = Sparse.trim (fst (Sparse.set old (valueIndex pos) item)))
  /\ forall x, sameNode node x = false ->
               option_map values (mapGet (state (snd (set order pos item l))) x)
               = option_map values (mapGet (state l) x).
Proof.
  intros Hnode Htotal Hok Hitem. revert Hok.
  unfold set, bind, lift. rewrite Hnode.
  destruct (Z.of_nat (List.length item) =? 0) eqn:Hlen.
  { apply Z.eqb_eq in Hlen. destruct item; [congruence | simpl in Hlen; lia]. }
  destruct (sameNode node (rootNode order)
            && (valueIndex pos + Z.of_nat (List.length item) - 1 >? 1));
    [discriminate |].
  destruct (getOrCreateData_record node l)
    as (data & l1 & Hget & Hrec1 & Hcases & Hother).
  rewrite Hget.
  assert (Hdata : 0 <= total data).
  { destruct Hcases as [[Hold _] | [_ [Hzero _]]];
      [now apply Htotal | lia]. }
  destruct (Sparse.set (values data) (valueIndex pos) item)
    as [newArr displaced] eqn:Hsparse.
  pose proof (Sparse_set_size (values data) (valueIndex pos) item)
    as (_ & Hbound & _).
  rewrite Hsparse in Hbound. cbn [snd] in Hbound.
  unfold stateSet. cbv beta iota.
  set (l2 := {| state := mapSet (state l1) node
                           (withValues data (Sparse.trim newArr));
                cachedIndexNode := cachedIndexNode l1;
                cachedIndex := cachedIndex l1 |}).
  set (delta := Z.of_nat (List.length item) - Sparse.size displaced).
  assert (Hrec2 : mapGet (state l2) node
                  = Some (withValues data (Sparse.trim newArr))).
  { simpl. now rewrite mapGet_mapSet, sameNode_refl. }
  assert (Hother2 : forall x, sameNode node x = false ->
                              mapGet (state l2) x = mapGet (state l) x).
  { intros x Hx. simpl. rewrite mapGet_mapSet, Hx. now apply Hother. }
  (* the maintenance step *)
  assert (Hupd :
    exists t,
      mapGet (state (snd (onUpdate order node delta l2))) node
      = Some (withParentValuesBefore
                (withTotal (withValues data (Sparse.trim newArr)) (fst t))
                (snd t))
      /\ forall x, sameNode node x = false ->
                   option_map values
                     (mapGet (state (snd (onUpdate order node delta l2))) x)
                   = option_map values (mapGet (state l2) x)).
  { unfold onUpdate, bind, getCachedIndexNode.
    set (l3 := snd ((if sameNodeOpt (cachedIndexNode l2) node then ret tt
                     else setCachedIndexNode None) l2)).
    assert (H3 :
      (if sameNodeOpt (cachedIndexNode l2) node then ret tt
       else setCachedIndexNode None) l2 = (Ok tt, l3)
      /\ state l3 = state l2).
    { subst l3. destruct (sameNodeOpt (cachedIndexNode l2) node);
        unfold ret, setCachedIndexNode; simpl; auto. }
    destruct H3 as (Hrun3 & Hs3). rewrite Hrun3.
    assert (H4 :
      exists l4 t,
        (if delta =? 0 then ret tt else updateTotals node delta node) l3
        = (Ok tt, l4)
        /\ mapGet (state l4) node
           = Some (withTotal (withValues data (Sparse.trim newArr)) t)
        /\ forall x, sameNode node x = false ->
                     mapGet (state l4) x = mapGet (state l2) x).
    { destruct (Z.eqb_spec delta 0) as [Hz | Hz].
      - exists l3, (total data). unfold ret. rewrite Hs3.
        split; [reflexivity |]. split; [| auto].
        rewrite Hrec2. now destruct data.
      - assert (Hpos : 0 < delta) by (subst delta; lia).
        destruct (updateTotals_runs node delta node l3)
          as (l4 & Hrun4 & _).
        destruct (updateTotals_growing node node Hpos l3
                    (d := withValues data (Sparse.trim newArr)))
          as (t & _ & Hn & Ho).
        + now rewrite Hs3.
        + exact Hdata.
        + rewrite Hrun4 in Hn, Ho. cbn [snd] in Hn, Ho.
          exists l4, t. rewrite <- Hs3. auto. }
    destruct H4 as (l4 & t & Hrun4 & Hrec4 & Hother4). rewrite Hrun4.
    unfold stateGet. cbv beta iota. rewrite Hrec4.
    set (nd := withTotal (withValues data (Sparse.trim newArr)) t).
    pose proof (updateChildren_values nd (getChildren order node) l4) as Hv.
    pose proof (updateChildren_totals nd (getChildren order node) l4 node)
      as Ht.
    pose proof (Hv node) as Hvn.
    rewrite Hrec4 in Hvn, Ht. cbn [option_map] in Hvn, Ht.
    destruct (mapGet
                (state (snd (updateChildren nd (getChildren order node) l4)))
                node) as [d' |] eqn:Hd'; [| discriminate].
    exists (total d', parentValuesBefore d'). split.
    - destruct d' as [t' b' v']. subst nd.
      cbn in Hvn, Ht |- *. inversion Hvn; inversion Ht; subst. reflexivity.
    - intros x Hx. rewrite Hv. now rewrite Hother4. }
  destruct Hupd as (t & Hfinal & Hframe).
  destruct (onUpdate_cache order node delta l2) as (l5 & Hrun5 & _).
  rewrite Hrun5 in Hfinal, Hframe. cbn [snd] in Hfinal, Hframe.
  fold l2. fold delta. rewrite Hrun5. unfold ret. cbn [fst snd].
  intros _. split.
  - eexists. split; [exact Hfinal |].
    exists (values data). cbn [values withParentValuesBefore withTotal
                                withValues].
    now rewrite Hsparse.
  - intros x Hx. rewrite Hframe by assumption. now rewrite Hother2.
Qed.

(** X11.  Reading back what [set] wrote: when the record of the node, if
    there is one, has a total that is not negative, a [set] that returns
    makes every value of the item readable at its slot, by [get] and by
    [has]. *)
Theorem get_after_set (pos : Position) (item : list T) (l : ItemList T)
  (node : OrderNode) (existing : Sparse.SparseItems T) (k : nat) (v : T) :
  getNodeFor order pos = Ok node ->
  (forall d, mapGet (state l) node = Some d -> 0 <= total d) ->
  fst (set order pos item l) = Ok existing ->
  0 <= valueIndex pos ->
  nth_error item k = Some v ->
  fst (get order
         {| nodeID := nodeID pos; valueIndex := valueIndex pos + Z.of_nat k |}
         (snd (set order pos item l))) = Ok (Some v)
  /\ fst (has order
            {| nodeID := nodeID pos;
               valueIndex := valueIndex pos + Z.of_nat k |}
            (snd (set order pos item l))) = Ok true.
Proof.
  intros Hnode Htotal Hok Hindex Hk.
  assert (Hitem : item <> []) by (intros ->; now destruct k).
  destruct (set_installs_values pos l Hnode Htotal Hok Hitem)
    as ((d & Hrec & old & Hvalues) & _).
  assert (Hnode' :
    getNodeFor order
      {| nodeID := nodeID pos; valueIndex := valueIndex pos + Z.of_nat k |}
    = Ok node) by exact Hnode.
  unfold get, has, getInNode, bind, lift, stateGet. rewrite Hnode'.
  cbv beta iota. rewrite Hrec. unfold ret. cbn [fst snd valueIndex].
  rewrite Hvalues, (Sparse_set_getInfo old item k Hindex Hk).
  split; reflexivity.
Qed.

(** X12.  A [set] on one node never changes what another node holds: under
    the same condition on the total, [get] and [has] at a position of a
    different node answer after the [set] as they did before. *)
Theorem set_keeps_other_nodes (pos pos' : Position) (item : list T)
  (l : ItemList T) (node node' : OrderNode) :
  getNodeFor order pos = Ok node ->
  getNodeFor order pos' = Ok node' ->
  sameNode node node' = false ->
  (forall d, mapGet (state l) node = Some d -> 0 <= total d) ->
  fst (get order pos' (snd (set order pos item l))) = fst (get order pos' l)
  /\ fst (has order pos' (snd (set order pos item l)))
     = fst (has order pos' l).
Proof.
  intros Hnode Hnode' Hdiff Htotal.
  destruct (set order pos item l) as [[existing | e] l1] eqn:Hset.
  2: { rewrite (set_throws_before_writing order pos item l Hset). auto. }
  destruct item as [| v0 item].
  { unfold set, bind, lift in Hset. rewrite Hnode in Hset. simpl in Hset.
    unfold ret in Hset. inversion Hset; subst. auto. }
  assert (Hok : fst (set order pos (v0 :: item) l) = Ok existing)
    by now rewrite Hset.
  destruct (set_installs_values pos l Hnode Htotal Hok)
    as (_ & Hframe); [discriminate |].
  specialize (Hframe node' Hdiff). rewrite Hset in Hframe.
  cbn [snd] in Hframe |- *.
  unfold get, has, getInNode, bind, lift, stateGet. rewrite Hnode'.
  cbv beta iota.
  destruct (mapGet (state l1) node') as [d1 |],
           (mapGet (state l) node') as [d0 |];
    cbn [option_map] in Hframe; try discriminate; unfold ret; cbn [fst snd].
  - inversion Hframe as [Hv]. rewrite Hv. auto.
  - auto.
Qed.

(** Whatever the rounds of the totals loop do to the record of [node], its
    sequence stays the one it had or becomes the empty one. *)
Lemma updateTotals_node_values (node : OrderNode) (delta : Z)
  (vals : Sparse.SparseItems T) (current : OrderNode) :
  forall l : ItemList T,
    (forall d, mapGet (state l) node = Some d ->
               values d = vals \/ values d = Sparse.new 0) ->
    forall d,
      mapGet (state (snd (updateTotals node delta current l))) node = Some d ->
      values d = vals \/ values d = Sparse.new 0.
Proof.
  induction current as [i v p IH] using OrderNode_parent_ind.
  intros l Hinv. simpl. unfold bind.
  destruct (getOrCreateData_record node l)
    as (data & l1 & Hget & Hrec1 & Hcases & _).
  rewrite Hget. unfold stateSet at 1. cbv beta iota.
  assert (Hdata : values data = vals \/ values data = Sparse.new 0).
  { destruct Hcases as [[Hold _] | (_ & _ & Hnew)]; [now apply Hinv | now right]. }
  set (l2 := {| state := mapSet (state l1) node
                           (withTotal data (total data + delta));
                cachedIndexNode := cachedIndexNode l1;
                cachedIndex := cachedIndex l1 |}).
  set (current := {| id := i; nextValueIndex := v; parent := p |}).
  set (l3 := snd ((if total data + delta =? 0
                   then stateDelete current else ret tt) l2)).
  assert (H3 :
    (if total data + delta =? 0
     then stateDelete current else ret tt) l2 = (Ok tt, l3)
    /\ forall d, mapGet (state l3) node = Some d ->
                 values d = vals \/ values d = Sparse.new 0).
  { subst l3 l2.
    destruct (total data + delta =? 0);
      unfold stateDelete, ret; cbn [fst snd state]; (split; [reflexivity |]);
      intros d.
    - rewrite mapGet_mapDelete, mapGet_mapSet, sameNode_refl.
      destruct (sameNode current node); [discriminate |].
      intros H; inversion H; subst. exact Hdata.
    - rewrite mapGet_mapSet, sameNode_refl.
      intros H; inversion H; subst. exact Hdata. }
  destruct H3 as [Hrun3 Hinv3]. rewrite Hrun3.
  destruct p as [p |].
  - apply (IH p eq_refl l3 Hinv3).
  - unfold ret. exact Hinv3.
Qed.

(** X13.  Reading back what [delete] erased: after a [delete] that returns,
    every slot it covers is absent, for [has] and for [get]. *)
Theorem has_after_delete (pos : Position) (count : Z) (l : ItemList T)
  (node : OrderNode) (existing : Sparse.SparseItems T) (k : Z) :
  getNodeFor order pos = Ok node ->
  fst (delete order pos count l) = Ok existing ->
  0 <= valueIndex pos ->
  0 <= k < count ->
  fst (has order
         {| nodeID := nodeID pos; valueIndex := valueIndex pos + k |}
         (snd (delete order pos count l))) = Ok false
  /\ fst (get order
            {| nodeID := nodeID pos; valueIndex := valueIndex pos + k |}
            (snd (delete order pos count l))) = Ok None.
Proof.
  intros Hnode Hok Hindex Hk.
  assert (Hnode' :
    getNodeFor order
      {| nodeID := nodeID pos; valueIndex := valueIndex pos + k |}
    = Ok node) by exact Hnode.
  assert (Hrec :
    forall d, mapGet (state (snd (delete order pos count l))) node = Some d ->
              fst (Sparse.getInfo (values d) (valueIndex pos + k))
              = (None, false)).
  { revert Hok. unfold delete, bind, lift. rewrite Hnode.
    destruct (count =? 0) eqn:Hzero; [apply Z.eqb_eq in Hzero; lia |].
    destruct (sameNode node (rootNode order)
              && (valueIndex pos + count - 1 >? 1)); [discriminate |].
    unfold stateGet. cbv beta iota.
    destruct (mapGet (state l) node) as [data |] eqn:Hdata.
    2: { unfold ret. cbn [fst snd]. intros _ d Hd. congruence. }
    destruct (Sparse.delete (values data) (valueIndex pos) count)
      as [newArr displaced] eqn:Hsparse.
    unfold stateSet. cbv beta iota.
    set (l2 := {| state := mapSet (state l) node
                             (withValues data (Sparse.trim newArr));
                  cachedIndexNode := cachedIndexNode l;
                  cachedIndex := cachedIndex l |}).
    set (delta := 0 - Sparse.size displaced).
    intros _ d.
    assert (Hinv :
      forall d0,
        mapGet (state (snd (onUpdate order node delta l2))) node = Some d0 ->
        values d0 = Sparse.trim newArr \/ values d0 = Sparse.new 0).
    { unfold onUpdate, bind, getCachedIndexNode.
      set (l3 := snd ((if sameNodeOpt (cachedIndexNode l2) node then ret tt
                       else setCachedIndexNode None) l2)).
      assert (H3 :
        (if sameNodeOpt (cachedIndexNode l2) node then ret tt
         else setCachedIndexNode None) l2 = (Ok tt, l3)
        /\ state l3 = state l2).
      { subst l3. destruct (sameNodeOpt (cachedIndexNode l2) node);
          unfold ret, setCachedIndexNode; simpl; auto. }
      destruct H3 as (Hrun3 & Hs3). rewrite Hrun3.
      assert (Hinv3 : forall d0, mapGet (state l3) node = Some d0 ->
                                 values d0 = Sparse.trim newArr
                                 \/ values d0 = Sparse.new 0).
      { intros d0. rewrite Hs3. simpl.
        rewrite mapGet_mapSet, sameNode_refl.
        intros H; inversion H; subst. now left. }
      set (l4 := snd ((if delta =? 0 then ret tt
                       else updateTotals node delta node) l3)).
      assert (H4 :
        (if delta =? 0 then ret tt else updateTotals node delta node) l3
        = (Ok tt, l4)
        /\ forall d0, mapGet (state l4) node = Some d0 ->
                      values d0 = Sparse.trim newArr
                      \/ values d0 = Sparse.new 0).
      { subst l4. destruct (delta =? 0).
        - unfold ret. cbn [snd]. auto.
        - destruct (updateTotals_runs node delta node l3) as (l4 & Hrun & _).
          pose proof (@updateTotals_node_values node delta
                        (Sparse.trim newArr) node l3 Hinv3) as Hinv4.
          rewrite Hrun in Hinv4 |- *. auto. }
      destruct H4 as [Hrun4 Hinv4]. rewrite Hrun4.
      unfold stateGet. cbv beta iota.
      destruct (mapGet (state l4) node) as [nd |] eqn:Hnd.
      - intros d0 Hd0.
        pose proof (updateChildren_values nd (getChildren order node) l4 node)
          as Hv.
        rewrite Hd0, Hnd in Hv. cbn [option_map] in Hv.
        inversion Hv as [Hvals]. rewrite Hvals. now apply Hinv4.
      - unfold ret. cbn [snd]. intros d0 Hd0. congruence. }
    destruct (onUpdate_cache order node delta l2) as (l5 & Hrun5 & _).
    rewrite Hrun5 in Hinv |- *. unfold ret. cbn [fst snd] in Hinv |- *.
    intros Hd. destruct (Hinv d Hd) as [Hv | Hv]; rewrite Hv.
    - pose proof (Sparse_delete_getInfo (values data) Hindex Hk) as Hg.
      rewrite Hsparse in Hg. exact Hg.
    - now rewrite getInfo_new. }
  unfold get, has, getInNode, bind, lift, stateGet. rewrite Hnode'.
  cbv beta iota.
  destruct (mapGet (state (snd (delete order pos count l))) node) as [d |]
    eqn:Hd; unfold ret; cbn [fst snd valueIndex].
  - rewrite (Hrec d eq_refl). split; reflexivity.
  - split; reflexivity.
Qed.

End RoundTripFacts.

(** * The earlier [List] class: totals of subtrees *)

(** ** Well-formed trees *)

Unset Implicit Arguments.

Section TreeFacts.

Variable order : Order.

Hypothesis Hwf : wfOrder order.

Lemma known_sameNode (a b : OrderNode) :
  known order a -> known order b -> sameNode a b = true -> a = b.
Proof.
  unfold known. intros Ha Hb Hab. apply sameNode_eq in Hab.
  rewrite Hab in Ha. congruence.
Qed.

Lemma known_of_lookup (pos : Position) (node : OrderNode) :
  getNodeFor order pos = Ok node -> known order node.
Proof.
  unfold getNodeFor, known.
  destruct (getNode order (nodeID pos)) as [n |] eqn:Hget; [| discriminate].
  intros H. inversion H; subst.
  now rewrite (wf_lookup Hwf Hget).
Qed.

Lemma pathToRoot_unfold (node : OrderNode) :
  pathToRoot node
  = node :: match parent node with
            | Some p => pathToRoot p
            | None => []
            end.
Proof. now destruct node. Qed.

Lemma depth_unfold (node : OrderNode) :
  depth node = match parent node with
               | Some p => S (depth p)
               | None => O
               end.
Proof. now destruct node. Qed.

Lemma depth_on_path (node : OrderNode) :
  forall a, In a (pathToRoot node) -> (depth a <= depth node)%nat.
Proof.
  induction node as [i v p IH] using OrderNode_parent_ind.
  intros a. rewrite pathToRoot_unfold. cbn [parent].
  intros [<- | Hin]; [lia |].
  destruct p as [p |]; [| contradiction].
  specialize (IH p eq_refl a Hin).
  rewrite (depth_unfold {| id := i; nextValueIndex := v; parent := Some p |}).
  cbn [parent]. lia.
Qed.

Lemma known_on_path (node : OrderNode) :
  known order node ->
  forall a, In a (pathToRoot node) -> known order a.
Proof.
  induction node as [i v p IH] using OrderNode_parent_ind.
  intros Hknown a. rewrite pathToRoot_unfold. cbn [parent].
  intros [<- | Hin]; [assumption |].
  destruct p as [p |]; [| contradiction].
  apply (IH p eq_refl); [| assumption].
  now apply (wf_parent Hwf Hknown eq_refl).
Qed.

Lemma onPath_In (node x : OrderNode) :
  known order node -> known order x ->
  onPath node x = true <-> In x (pathToRoot node).
Proof.
  intros Hnode Hx. unfold onPath. rewrite existsb_exists. split.
  - intros (a & Hin & Hsame).
    assert (a = x) as <-; [| assumption].
    apply known_sameNode; try assumption.
    now apply (known_on_path _ Hnode).
  - intros Hin. exists x. split; [assumption | apply sameNode_refl].
Qed.

Lemma onPath_self (node : OrderNode) : onPath node node = true.
Proof.
  unfold onPath. rewrite pathToRoot_unfold. cbn [existsb].
  now rewrite sameNode_refl.
Qed.

Lemma onPath_step (node p x : OrderNode) :
  parent node = Some p ->
  onPath node x = sameNode node x || onPath p x.
Proof.
  intros Hp. unfold onPath. rewrite (pathToRoot_unfold node), Hp.
  reflexivity.
Qed.

Lemma onPath_root (node x : OrderNode) :
  parent node = None -> onPath node x = sameNode node x.
Proof.
  intros Hp. unfold onPath. rewrite (pathToRoot_unfold node), Hp.
  cbn [existsb]. apply orb_false_r.
Qed.

(** A node is not among its own proper ancestors. *)
Lemma not_onPath_parent (node p : OrderNode) :
  known order node -> parent node = Some p -> onPath p node = false.
Proof.
  intros Hnode Hp.
  destruct (onPath p node) eqn:Hon; [| reflexivity].
  assert (Hknownp : known order p) by now apply (wf_parent Hwf Hnode Hp).
  apply (onPath_In _ _ Hknownp Hnode) in Hon.
  apply depth_on_path in Hon.
  rewrite (depth_unfold node), Hp in Hon. lia.
Qed.

Lemma NoDup_path (node : OrderNode) :
  known order node -> NoDup (map id (pathToRoot node)).
Proof.
  induction node as [i v p IH] using OrderNode_parent_ind.
  intros Hknown. rewrite pathToRoot_unfold. cbn [parent map].
  destruct p as [p |]; [| repeat constructor; intros []].
  assert (Hknownp : known order p) by now apply (wf_parent Hwf Hknown eq_refl).
  constructor; [| now apply (IH p eq_refl)].
  intros Hin. apply in_map_iff in Hin. destruct Hin as (a & Hid & Hin).
  pose proof (known_on_path _ Hknownp _ Hin) as Hknowna.
  assert (a = {| id := i; nextValueIndex := v; parent := Some p |}) as ->.
  { apply known_sameNode; try assumption.
    unfold sameNode. rewrite Hid. apply String.eqb_refl. }
  apply depth_on_path in Hin. rewrite depth_unfold in Hin.
  cbn [parent] in Hin. lia.
Qed.

Lemma sumZ_cons {A : Type} (f : A -> Z) (x : A) (xs : list A) :
  sumZ f (x :: xs) = f x + sumZ f xs.
Proof. reflexivity. Qed.

Lemma sumZ_ext {A : Type} (f g : A -> Z) (xs : list A) :
  (forall x, In x xs -> f x = g x) -> sumZ f xs = sumZ g xs.
Proof.
  induction xs as [| x xs IH]; intros H; [reflexivity |].
  rewrite !sumZ_cons, (H x), IH; auto using in_eq, in_cons.
Qed.

Lemma sumZ_plus {A : Type} (f g : A -> Z) (xs : list A) :
  sumZ (fun x => f x + g x) xs = sumZ f xs + sumZ g xs.
Proof.
  induction xs as [| x xs IH]; [reflexivity |].
  rewrite !sumZ_cons, IH. lia.
Qed.

Lemma sumZ_scale {A : Type} (k : Z) (f : A -> Z) (xs : list A) :
  sumZ (fun x => k * f x) xs = k * sumZ f xs.
Proof.
  induction xs as [| x xs IH]; [unfold sumZ; simpl; lia |].
  rewrite !sumZ_cons, IH. lia.
Qed.

Lemma sumZ_nonneg {A : Type} (f : A -> Z) (xs : list A) :
  (forall x, In x xs -> 0 <= f x) -> 0 <= sumZ f xs.
Proof.
  induction xs as [| x xs IH]; intros H; [unfold sumZ; simpl; lia |].
  rewrite sumZ_cons.
  pose proof (H x (in_eq _ _)). pose proof (IH (fun y Hy => H y (in_cons _ _ _ Hy))).
  lia.
Qed.

Lemma sumZ_member {A : Type} (f : A -> Z) (xs : list A) (y : A) :
  (forall x, In x xs -> 0 <= f x) -> In y xs -> f y <= sumZ f xs.
Proof.
  induction xs as [| x xs IH]; intros H Hin; [contradiction |].
  rewrite sumZ_cons.
  pose proof (H x (in_eq _ _)).
  pose proof (sumZ_nonneg f xs (fun z Hz => H z (in_cons _ _ _ Hz))).
  destruct Hin as [<- | Hin]; [lia |].
  pose proof (IH (fun z Hz => H z (in_cons _ _ _ Hz)) Hin). lia.
Qed.

(** Among children without repeated ids at most one is [node]. *)
Lemma sumZ_sameNode (node : OrderNode) (cs : list OrderNode) :
  NoDup (map id cs) ->
  sumZ (fun c => indicator (sameNode node c)) cs
  = indicator (existsb (sameNode node) cs).
Proof.
  induction cs as [| c cs IH]; intros Hnodup; [reflexivity |].
  inversion Hnodup as [| ? ? Hnotin Hrest]; subst.
  rewrite sumZ_cons, IH by assumption. cbn [existsb].
  destruct (sameNode node c) eqn:Hc; [| reflexivity].
  destruct (existsb (sameNode node) cs) eqn:Hex; [| reflexivity].
  exfalso. apply Hnotin. apply existsb_exists in Hex.
  destruct Hex as (c' & Hin & Hc').
  apply sameNode_eq in Hc, Hc'. apply in_map_iff.
  exists c'. split; [congruence | assumption].
Qed.

(** Of the children of [x], exactly one lies on the path from [node] to the
    root when [x] is a proper ancestor of [node], and none otherwise. *)
Lemma children_on_path (node : OrderNode) :
  known order node ->
  forall x,
    known order x ->
    sumZ (fun c => indicator (onPath node c)) (getChildren order x)
    = indicator (onPath node x && negb (sameNode node x)).
Proof.
  induction node as [i v p IH] using OrderNode_parent_ind.
  set (node := {| id := i; nextValueIndex := v; parent := p |}).
  intros Hnode x Hx.
  assert (Hchild : forall c, In c (getChildren order x) ->
                             known order c /\ parent c = Some x).
  { intros c Hc. exact (wf_children Hwf Hx Hc). }
  assert (Hself :
    existsb (sameNode node) (getChildren order x) = true ->
    parent node = Some x).
  { intros Hex. apply existsb_exists in Hex.
    destruct Hex as (c & Hin & Hc). destruct (Hchild c Hin) as [Hkc Hpc].
    now rewrite (known_sameNode _ _ Hnode Hkc Hc). }
  destruct p as [p |].
  - assert (Hp : parent node = Some p) by reflexivity.
    assert (Hknownp : known order p) by now apply (wf_parent Hwf Hnode Hp).
    rewrite (sumZ_ext
               (fun c => indicator (onPath node c))
               (fun c => indicator (sameNode node c)
                         + indicator (onPath p c))).
    2: { intros c Hc. rewrite (onPath_step _ _ _ Hp).
         destruct (sameNode node c) eqn:Hsame; [| reflexivity].
         destruct (Hchild c Hc) as [Hkc _].
         rewrite <- (known_sameNode _ _ Hnode Hkc Hsame).
         now rewrite (not_onPath_parent _ _ Hnode Hp). }
    rewrite sumZ_plus, (IH p eq_refl Hknownp x Hx).
    rewrite sumZ_sameNode by now apply (wf_nodup Hwf).
    rewrite (onPath_step _ _ _ Hp).
    destruct (existsb (sameNode node) (getChildren order x)) eqn:Hex.
    + specialize (Hself eq_refl). rewrite Hp in Hself.
      inversion Hself; subst x.
      rewrite onPath_self, sameNode_refl.
      destruct (sameNode node p) eqn:Hnp.
      * apply (known_sameNode _ _ Hnode Hknownp) in Hnp.
        pose proof (depth_unfold node) as Hd. rewrite Hp, <- Hnp in Hd. lia.
      * reflexivity.
    + assert (Hpx : sameNode p x = false).
      { destruct (sameNode p x) eqn:Hpx; [| reflexivity].
        apply (known_sameNode _ _ Hknownp Hx) in Hpx. subst x.
        destruct (wf_parent Hwf Hnode Hp) as [_ Hin].
        assert (existsb (sameNode node) (getChildren order p) = true).
        { apply existsb_exists. exists node. split; [assumption |].
          apply sameNode_refl. }
        congruence. }
      rewrite Hpx.
      destruct (onPath p x) eqn:Hon; cbn [andb negb orb indicator].
      * destruct (sameNode node x) eqn:Hnx; [| reflexivity].
        apply (known_sameNode _ _ Hnode Hx) in Hnx. subst x.
        now rewrite (not_onPath_parent _ _ Hnode Hp) in Hon.
      * now destruct (sameNode node x).
  - assert (Hp : parent node = None) by reflexivity.
    rewrite (sumZ_ext
               (fun c => indicator (onPath node c))
               (fun c => indicator (sameNode node c))).
    2: { intros c _. now rewrite (onPath_root _ _ Hp). }
    rewrite sumZ_sameNode by now apply (wf_nodup Hwf).
    rewrite (onPath_root _ _ Hp).
    destruct (existsb (sameNode node) (getChildren order x)) eqn:Hex.
    + specialize (Hself eq_refl). congruence.
    + now destruct (sameNode node x).
Qed.

End TreeFacts.

(** ** [onUpdate] of the earlier class *)

Section PlainListFacts.

Context {T : Type}.

Variable order : Order.

Lemma plain_mapGet_sameNode (m : list (OrderNode * PlainList.NodeData T))
  (a b : OrderNode) :
  sameNode a b = true -> PlainList.mapGet m a = PlainList.mapGet m b.
Proof.
  intros Hab. apply sameNode_eq in Hab.
  induction m as [| [k d] m IH]; simpl; [reflexivity |].
  unfold sameNode. rewrite Hab. now rewrite IH.
Qed.

Lemma plain_mapGet_mapSet (m : list (OrderNode * PlainList.NodeData T))
  (k x : OrderNode) (d : PlainList.NodeData T) :
  PlainList.mapGet (PlainList.mapSet m k d) x
  = if sameNode k x then Some d else PlainList.mapGet m x.
Proof.
  induction m as [| [k0 d0] rest IH]; simpl.
  - reflexivity.
  - destruct (sameNode k0 k) eqn:Hk; simpl.
    + rewrite (sameNode_trans_l _ _ x Hk). now destruct (sameNode k x).
    + rewrite IH. destruct (sameNode k0 x) eqn:Hx; [| reflexivity].
      destruct (sameNode k x) eqn:Hkx; [| reflexivity].
      apply sameNode_eq in Hx, Hkx. unfold sameNode in Hk.
      rewrite Hx, <- Hkx, String.eqb_refl in Hk. discriminate.
Qed.

Lemma plain_mapGet_mapDelete (m : list (OrderNode * PlainList.NodeData T))
  (k x : OrderNode) :
  PlainList.mapGet (PlainList.mapDelete m k) x
  = if sameNode k x then None else PlainList.mapGet m x.
Proof.
  unfold PlainList.mapDelete.
  induction m as [| [k0 d0] rest IH]; simpl.
  - now destruct (sameNode k x).
  - destruct (sameNode k0 k) eqn:Hk; simpl.
    + rewrite IH. rewrite (sameNode_trans_l _ _ x Hk).
      now destruct (sameNode k x).
    + rewrite IH. destruct (sameNode k0 x) eqn:Hx; [| reflexivity].
      destruct (sameNode k x) eqn:Hkx; [| reflexivity].
      apply sameNode_eq in Hx, Hkx. unfold sameNode in Hk.
      rewrite Hx, <- Hkx, String.eqb_refl in Hk. discriminate.
Qed.

Lemma getOrInit_spec (node : OrderNode) (l : PlainList.Fields T) :
  exists l',
    PlainList.getOrInit node l = (Ok (dataAt l node), l')
    /\ PlainList.cachedIndexNode l' = PlainList.cachedIndexNode l
    /\ PlainList.cachedIndex l' = PlainList.cachedIndex l
    /\ forall x,
         PlainList.mapGet (PlainList.state l') x
         = if sameNode node x then Some (dataAt l node)
           else PlainList.mapGet (PlainList.state l) x.
Proof.
  unfold PlainList.getOrInit, PlainList.bind, PlainList.stateGet, dataAt.
  destruct (PlainList.mapGet (PlainList.state l) node) as [d |] eqn:Hrec.
  - exists l. unfold PlainList.ret. repeat split.
    intros x. destruct (sameNode node x) eqn:Hx; [| reflexivity].
    now rewrite <- (plain_mapGet_sameNode _ _ _ Hx).
  - unfold PlainList.stateSet, PlainList.ret. cbv beta iota.
    eexists. split; [reflexivity |]. cbn. repeat split.
    intros x. apply plain_mapGet_mapSet.
Qed.

(** The loop of [onUpdate], record by record: on the path from [current] to
    the root every total grows by [delta], a record is created where there
    was none and deleted where the total reaches 0; off the path nothing
    changes. *)
Lemma plain_updateTotals_spec (delta : Z) (current : OrderNode) :
  NoDup (map id (pathToRoot current)) ->
  forall l : PlainList.Fields T,
    exists l',
      PlainList.updateTotals delta current l = (Ok tt, l')
      /\ PlainList.cachedIndexNode l' = PlainList.cachedIndexNode l
      /\ PlainList.cachedIndex l' = PlainList.cachedIndex l
      /\ forall x,
           PlainList.mapGet (PlainList.state l') x
           = if onPath current x
             then
               if PlainList.total (dataAt l x) + delta =? 0 then None
               else Some (PlainList.withTotal (dataAt l x)
                            (PlainList.total (dataAt l x) + delta))
             else PlainList.mapGet (PlainList.state l) x.
Proof.
  induction current as [i v p IH] using OrderNode_parent_ind.
  intros Hnodup l. simpl. unfold PlainList.bind.
  set (current := {| id := i; nextValueIndex := v; parent := p |}) in *.
  destruct (getOrInit_spec current l) as (l1 & Hget & Hn1 & Hi1 & Hs1).
  rewrite Hget. unfold PlainList.stateSet at 1. cbv beta iota.
  set (t := PlainList.total (dataAt l current) + delta).
  set (l2 := {| PlainList.state :=
                  PlainList.mapSet (PlainList.state l1) current
                    (PlainList.withTotal (dataAt l current) t);
                PlainList.cachedIndexNode := PlainList.cachedIndexNode l1;
                PlainList.cachedIndex := PlainList.cachedIndex l1 |}).
  set (l3 := snd ((if t =? 0 then PlainList.stateDelete current
                   else PlainList.ret tt) l2)).
  assert (H3 :
    (if t =? 0 then PlainList.stateDelete current else PlainList.ret tt) l2
    = (Ok tt, l3)
    /\ PlainList.cachedIndexNode l3 = PlainList.cachedIndexNode l
    /\ PlainList.cachedIndex l3 = PlainList.cachedIndex l
    /\ forall x,
         PlainList.mapGet (PlainList.state l3) x
         = if sameNode current x
           then if t =? 0 then None
                else Some (PlainList.withTotal (dataAt l current) t)
           else PlainList.mapGet (PlainList.state l) x).
  { subst l3 l2. destruct (t =? 0);
      unfold PlainList.stateDelete, PlainList.ret;
      cbn [fst snd PlainList.state PlainList.cachedIndexNode
             PlainList.cachedIndex];
      (split; [reflexivity |]); (split; [assumption |]);
      (split; [assumption |]); intros x.
    - rewrite plain_mapGet_mapDelete.
      destruct (sameNode current x) eqn:Hx; [reflexivity |].
      now rewrite plain_mapGet_mapSet, Hx, Hs1, Hx.
    - rewrite plain_mapGet_mapSet.
      destruct (sameNode current x) eqn:Hx; [reflexivity |].
      now rewrite Hs1, Hx. }
  destruct H3 as (Hrun3 & Hn3 & Hi3 & Hs3). rewrite Hrun3.
  assert (Hdata : forall x, sameNode current x = true ->
                            dataAt l x = dataAt l current).
  { intros x Hx. unfold dataAt.
    now rewrite (plain_mapGet_sameNode _ _ _ Hx). }
  destruct p as [p |].
  - rewrite pathToRoot_unfold in Hnodup. cbn [parent map] in Hnodup.
    inversion Hnodup as [| ? ? Hnotin Hrest]; subst.
    destruct (IH p eq_refl Hrest l3) as (l4 & Hrun4 & Hn4 & Hi4 & Hs4).
    exists l4. split; [exact Hrun4 |].
    split; [congruence |]. split; [congruence |].
    intros x. rewrite Hs4.
    rewrite (onPath_step current p x eq_refl).
    destruct (sameNode current x) eqn:Hx; cbn [orb].
    + assert (Hoff : onPath p x = false).
      { destruct (onPath p x) eqn:Hon; [| reflexivity].
        exfalso. apply Hnotin. unfold onPath in Hon.
        apply existsb_exists in Hon. destruct Hon as (a & Hin & Ha).
        apply sameNode_eq in Hx, Ha. apply in_map_iff.
        exists a. split; [| assumption].
        subst current. cbn [id] in Hx |- *. congruence. }
      rewrite Hoff, Hs3, Hx, (Hdata x Hx). reflexivity.
    + assert (Hsame : dataAt l3 x = dataAt l x).
      { unfold dataAt. now rewrite Hs3, Hx. }
      rewrite Hsame, Hs3, Hx. reflexivity.
  - exists l3. unfold PlainList.ret. split; [reflexivity |].
    split; [assumption |]. split; [assumption |].
    intros x. rewrite (onPath_root current x eq_refl), Hs3.
    destruct (sameNode current x) eqn:Hx; [| reflexivity].
    now rewrite (Hdata x Hx).
Qed.

(** [onUpdate(node, delta)] of the earlier class, for a delta other than 0
    and a path to the root without repeated ids: the records after it. *)
Lemma plain_onUpdate_records (node : OrderNode) (delta : Z)
  (l : PlainList.Fields T) :
  NoDup (map id (pathToRoot node)) ->
  delta <> 0 ->
  fst (PlainList.onUpdate node delta l) = Ok tt
  /\ forall x,
       PlainList.mapGet
         (PlainList.state (snd (PlainList.onUpdate node delta l))) x
       = if onPath node x
         then
           if PlainList.total (dataAt l x) + delta =? 0 then None
           else Some {| PlainList.total :=
                          PlainList.total (dataAt l x) + delta;
                        PlainList.values := PlainList.values (dataAt l x) |}
         else PlainList.mapGet (PlainList.state l) x.
Proof.
  intros Hnodup Hdelta.
  unfold PlainList.onUpdate, PlainList.bind, PlainList.getCachedIndexNode.
  set (l1 := snd ((if sameNodeOpt (PlainList.cachedIndexNode l) node
                   then PlainList.ret tt
                   else PlainList.setCachedIndexNode None) l)).
  assert (H1 :
    (if sameNodeOpt (PlainList.cachedIndexNode l) node
     then PlainList.ret tt
     else PlainList.setCachedIndexNode None) l = (Ok tt, l1)
    /\ PlainList.state l1 = PlainList.state l).
  { subst l1. destruct (sameNodeOpt (PlainList.cachedIndexNode l) node);
      unfold PlainList.ret, PlainList.setCachedIndexNode; cbn; auto. }
  destruct H1 as [Hrun1 Hs1]. rewrite Hrun1.
  destruct (Z.eqb_spec delta 0) as [Hz | _]; [contradiction |].
  destruct (plain_updateTotals_spec delta node Hnodup l1)
    as (l2 & Hrun2 & _ & _ & Hs2).
  rewrite Hrun2. split; [reflexivity |].
  intros x. cbn [snd]. rewrite Hs2.
  assert (Hdata : dataAt l1 x = dataAt l x).
  { unfold dataAt. now rewrite Hs1. }
  rewrite Hdata, Hs1. reflexivity.
Qed.

End PlainListFacts.

(** ** Consistent totals are kept *)

Section ConsistencyFacts.

Context {T : Type}.

Variable order : Order.

Hypothesis Hwf : wfOrder order.

Lemma sizeAt_nonneg (l : PlainList.Fields T) (x : OrderNode) :
  0 <= sizeAt l x.
Proof.
  unfold sizeAt. destruct (PlainList.mapGet (PlainList.state l) x);
    [apply size_nonneg | lia].
Qed.

Lemma onPath_of_sameNode (node x : OrderNode) :
  sameNode node x = true -> onPath node x = true.
Proof.
  intros H. unfold onPath. rewrite pathToRoot_unfold. cbn [existsb].
  now rewrite H.
Qed.

(** The root lies on every path. *)
Lemma onPath_rootNode (node : OrderNode) :
  known order node -> onPath node (rootNode order) = true.
Proof.
  induction node as [i v p IH] using OrderNode_parent_ind.
  intros Hknown. destruct p as [p |].
  - rewrite (onPath_step
               {| id := i; nextValueIndex := v; parent := Some p |} p _
               eq_refl).
    rewrite (IH p eq_refl); [apply orb_true_r |].
    now apply (wf_parent Hwf Hknown eq_refl).
  - rewrite <- (wf_top Hwf Hknown eq_refl). apply onPath_self.
Qed.

(** Below a node that is not the one written, totals do not decrease on
    the way up. *)
Lemma total_le_parent (node : OrderNode) (delta : Z)
  (l1 : PlainList.Fields T) (y p : OrderNode) :
  (forall x, known order x ->
             totalAt l1 x
             = sizeAt l1 x - (if sameNode node x then delta else 0)
               + sumZ (totalAt l1) (getChildren order x)) ->
  (forall x, known order x -> 0 <= totalAt l1 x) ->
  known order y ->
  parent y = Some p ->
  sameNode node p = false ->
  totalAt l1 y <= totalAt l1 p.
Proof.
  intros H1 H2 Hy Hp Hnp.
  destruct (wf_parent Hwf Hy Hp) as [Hknownp Hin].
  rewrite (H1 p Hknownp), Hnp.
  pose proof (sizeAt_nonneg l1 p).
  assert (totalAt l1 y <= sumZ (totalAt l1) (getChildren order p)).
  { apply sumZ_member; [| assumption].
    intros c Hc. apply H2. exact (proj1 (wf_children Hwf Hknownp Hc)). }
  lia.
Qed.

Lemma totals_up_the_path (node : OrderNode) (delta : Z)
  (l1 : PlainList.Fields T) :
  (forall x, known order x ->
             totalAt l1 x
             = sizeAt l1 x - (if sameNode node x then delta else 0)
               + sumZ (totalAt l1) (getChildren order x)) ->
  (forall x, known order x -> 0 <= totalAt l1 x) ->
  forall y,
    known order y ->
    0 <= totalAt l1 y + delta ->
    (forall a, In a (pathToRoot y) -> a = y \/ sameNode node a = false) ->
    forall a, In a (pathToRoot y) -> 0 <= totalAt l1 a + delta.
Proof.
  intros H1 H2 y.
  induction y as [i v p IH] using OrderNode_parent_ind.
  set (y := {| id := i; nextValueIndex := v; parent := p |}) in *.
  intros Hy Hbase Hcond a. rewrite pathToRoot_unfold. cbn [parent y].
  intros [<- | Hin]; [assumption |].
  destruct p as [p |]; [| contradiction].
  assert (Hp : parent y = Some p) by reflexivity.
  destruct (wf_parent Hwf Hy Hp) as [Hknownp _].
  assert (Hdepth : forall b, In b (pathToRoot p) -> b <> y).
  { intros b Hb ->. apply depth_on_path in Hb.
    rewrite (depth_unfold y), Hp in Hb. lia. }
  assert (Hrest : forall b, In b (pathToRoot p) -> sameNode node b = false).
  { intros b Hb.
    destruct (Hcond b) as [-> | Hfalse]; [| | assumption].
    - rewrite pathToRoot_unfold. cbn [parent y]. now right.
    - now apply Hdepth in Hb. }
  assert (Hpin : In p (pathToRoot p)).
  { rewrite pathToRoot_unfold. now left. }
  apply (IH p eq_refl Hknownp); [| | assumption].
  - pose proof (total_le_parent node delta l1 y p H1 H2 Hy Hp
                  (Hrest p Hpin)).
    lia.
  - intros b Hb. right. now apply Hrest.
Qed.

(** [onUpdate] brings the totals up to date: called for [node] after its
    sequence has changed by [delta] present values, with consistent totals
    everywhere else, it leaves consistent totals. *)
Lemma plain_onUpdate_consistent (node : OrderNode) (delta : Z)
  (l1 : PlainList.Fields T) :
  known order node ->
  (forall x, known order x ->
             totalAt l1 x
             = sizeAt l1 x - (if sameNode node x then delta else 0)
               + sumZ (totalAt l1) (getChildren order x)) ->
  (forall x, known order x -> 0 <= totalAt l1 x) ->
  (forall x d,
      PlainList.mapGet (PlainList.state l1) x = Some d ->
      PlainList.total d <> 0 \/ (sameNode node x = true /\ delta <> 0)) ->
  consistent order (snd (PlainList.onUpdate node delta l1)).
Proof.
  intros Hnode H1 H2 H3.
  destruct (Z.eq_dec delta 0) as [Hzero | Hdelta].
  - (* nothing to add *)
    assert (Hstate :
      PlainList.state (snd (PlainList.onUpdate node delta l1))
      = PlainList.state l1).
    { unfold PlainList.onUpdate, PlainList.bind,
        PlainList.getCachedIndexNode. subst delta.
      destruct (sameNodeOpt (PlainList.cachedIndexNode l1) node);
        reflexivity. }
    assert (Htotal : forall x,
      totalAt (snd (PlainList.onUpdate node delta l1)) x = totalAt l1 x).
    { intros x. unfold totalAt. now rewrite Hstate. }
    assert (Hsize : forall x,
      sizeAt (snd (PlainList.onUpdate node delta l1)) x = sizeAt l1 x).
    { intros x. unfold sizeAt. now rewrite Hstate. }
    constructor.
    + intros x Hx. rewrite Htotal, Hsize, (H1 x Hx).
      rewrite (sumZ_ext _ _ _ (fun c _ => Htotal c)).
      destruct (sameNode node x); lia.
    + intros x Hx. rewrite Htotal. now apply H2.
    + intros x d. rewrite Hstate. intros Hd.
      destruct (H3 x d Hd) as [Hnz | [_ Hnz]]; [assumption | contradiction].
  - destruct (plain_onUpdate_records node delta l1
                (NoDup_path order Hwf node Hnode) Hdelta) as [_ Hs].
    set (l' := snd (PlainList.onUpdate node delta l1)) in *.
    set (T' := fun x => totalAt l1 x
                        + (if onPath node x then delta else 0)).
    assert (F1 : forall x, totalAt l' x = T' x).
    { intros x. unfold totalAt at 1, T'. rewrite Hs.
      destruct (onPath node x).
      - unfold dataAt, totalAt.
        destruct (PlainList.mapGet (PlainList.state l1) x) as [d |];
          cbn [PlainList.total];
          match goal with
          | |- context [?t =? 0] => destruct (Z.eqb_spec t 0)
          end; cbn [PlainList.total]; lia.
      - unfold totalAt. destruct (PlainList.mapGet (PlainList.state l1) x);
          lia. }
    assert (F2 : forall x,
      sizeAt l' x
      = if onPath node x && (T' x =? 0) then 0 else sizeAt l1 x).
    { intros x. unfold sizeAt at 1, T'. rewrite Hs.
      destruct (onPath node x); cbn [andb].
      - unfold dataAt, totalAt, sizeAt.
        destruct (PlainList.mapGet (PlainList.state l1) x) as [d |];
          cbn [PlainList.total PlainList.values];
          match goal with
          | |- context [?t =? 0] => destruct (Z.eqb_spec t 0)
          end; cbn [PlainList.values]; rewrite ?size_new; reflexivity.
      - reflexivity. }
    assert (Hbase : 0 <= totalAt l1 node + delta).
    { rewrite (H1 node Hnode), sameNode_refl.
      pose proof (sizeAt_nonneg l1 node).
      assert (0 <= sumZ (totalAt l1) (getChildren order node)).
      { apply sumZ_nonneg. intros c Hc. apply H2.
        exact (proj1 (wf_children Hwf Hnode Hc)). }
      lia. }
    assert (Fnn : forall x, known order x -> 0 <= T' x).
    { intros x Hx. unfold T'.
      destruct (onPath node x) eqn:Hon.
      - apply (totals_up_the_path node delta l1 H1 H2 node Hnode Hbase).
        + intros a Ha.
          destruct (sameNode node a) eqn:Hsame; [left | now right].
          symmetry. apply (known_sameNode order); try assumption.
          exact (known_on_path order Hwf node Hnode a Ha).
        + now apply (onPath_In order Hwf node x Hnode Hx).
      - pose proof (H2 x Hx). lia. }
    constructor.
    + intros x Hx. rewrite F1, F2.
      rewrite (sumZ_ext _ _ _ (fun c _ => F1 c)).
      assert (Hsum :
        sumZ T' (getChildren order x)
        = sumZ (totalAt l1) (getChildren order x)
          + delta * indicator (onPath node x && negb (sameNode node x))).
      { rewrite <- (children_on_path order Hwf node Hnode x Hx).
        rewrite <- sumZ_scale, <- sumZ_plus.
        apply sumZ_ext. intros c _. unfold T', indicator.
        destruct (onPath node c); lia. }
      assert (Hchildren : 0 <= sumZ T' (getChildren order x)).
      { apply sumZ_nonneg. intros c Hc. apply Fnn.
        exact (proj1 (wf_children Hwf Hx Hc)). }
      pose proof (sizeAt_nonneg l1 x) as Hsize.
      pose proof (H1 x Hx) as Heq.
      rewrite Hsum in Hchildren |- *. unfold T' at 1 2.
      destruct (sameNode node x) eqn:Hsame.
      * rewrite (onPath_of_sameNode node x Hsame) in *.
        cbn [andb negb indicator] in *.
        destruct (Z.eqb_spec (totalAt l1 x + delta) 0); lia.
      * destruct (onPath node x); cbn [andb negb indicator] in *;
          [destruct (Z.eqb_spec (totalAt l1 x + delta) 0) |]; lia.
    + intros x Hx. rewrite F1. now apply Fnn.
    + intros x d. rewrite Hs.
      destruct (onPath node x) eqn:Hon.
      * match goal with
        | |- context [?t =? 0] => destruct (Z.eqb_spec t 0)
        end; [discriminate |].
        intros Hd. inversion Hd; subst. assumption.
      * intros Hd. destruct (H3 x d Hd) as [Hnz | [Hsame _]];
          [assumption |].
        rewrite (onPath_of_sameNode node x Hsame) in Hon. discriminate.
Qed.

Lemma dataAt_sameNode (l : PlainList.Fields T) (a b : OrderNode) :
  sameNode a b = true -> dataAt l a = dataAt l b.
Proof.
  intros H. unfold dataAt. now rewrite (plain_mapGet_sameNode _ _ _ H).
Qed.

(** Replacing the sequence of [node] and calling [onUpdate] with the change
    of its size keeps consistent totals. *)
Lemma plain_write_consistent (node : OrderNode)
  (newArr : Sparse.SparseItems T) (delta : Z) (l l1 : PlainList.Fields T) :
  known order node ->
  consistent order l ->
  Sparse.size newArr
  = Sparse.size (PlainList.values (dataAt l node)) + delta ->
  (PlainList.mapGet (PlainList.state l) node = None -> delta <> 0) ->
  (forall x,
      PlainList.mapGet (PlainList.state l1) x
      = if sameNode node x
        then Some (PlainList.withValues (dataAt l node) newArr)
        else PlainList.mapGet (PlainList.state l) x) ->
  consistent order (snd (PlainList.onUpdate node delta l1)).
Proof.
  intros Hnode [Hsum Hnonneg Hnonzero] Hsize Hfresh Hl1.
  assert (Htotal : forall x, totalAt l1 x = totalAt l x).
  { intros x. unfold totalAt. rewrite Hl1.
    destruct (sameNode node x) eqn:Hx; [| reflexivity].
    cbn [PlainList.withValues PlainList.total].
    rewrite (dataAt_sameNode l node x Hx). unfold dataAt.
    now destruct (PlainList.mapGet (PlainList.state l) x). }
  assert (Hsizes : forall x,
    sizeAt l1 x = sizeAt l x + (if sameNode node x then delta else 0)).
  { intros x. unfold sizeAt. rewrite Hl1.
    destruct (sameNode node x) eqn:Hx; [| lia].
    cbn [PlainList.withValues PlainList.values]. rewrite Hsize.
    rewrite (dataAt_sameNode l node x Hx). unfold dataAt.
    destruct (PlainList.mapGet (PlainList.state l) x);
      cbn [PlainList.values]; rewrite ?size_new; lia. }
  apply (plain_onUpdate_consistent node delta l1 Hnode).
  - intros x Hx. rewrite Htotal, Hsizes.
    rewrite (sumZ_ext _ _ _ (fun c _ => Htotal c)).
    rewrite (Hsum x Hx). destruct (sameNode node x); lia.
  - intros x Hx. rewrite Htotal. now apply Hnonneg.
  - intros x d. rewrite Hl1.
    destruct (sameNode node x) eqn:Hx.
    + intros Hd. inversion Hd; subst. cbn [PlainList.withValues
                                              PlainList.total].
      unfold dataAt.
      destruct (PlainList.mapGet (PlainList.state l) node) as [d0 |] eqn:Hd0.
      * left. exact (Hnonzero node d0 Hd0).
      * right. split; [reflexivity | now apply Hfresh].
    + intros Hd. left. exact (Hnonzero x d Hd).
Qed.

(** The list that [set] hands to [onUpdate]. *)
Lemma plain_set_steps (pos : Position) (vals : list T)
  (l : PlainList.Fields T) (node : OrderNode) :
  getNodeFor order pos = Ok node ->
  vals <> [] ->
  sameNode node (rootNode order)
  && (valueIndex pos + Z.of_nat (List.length vals) - 1 >? 1) = false ->
  exists l1,
    PlainList.set order pos vals l
    = PlainList.onUpdate node
        (Z.of_nat (List.length vals)
         - Sparse.size
             (snd (Sparse.set (PlainList.values (dataAt l node))
                     (valueIndex pos) vals))) l1
    /\ forall x,
         PlainList.mapGet (PlainList.state l1) x
         = if sameNode node x
           then Some (PlainList.withValues (dataAt l node)
                        (fst (Sparse.set (PlainList.values (dataAt l node))
                                (valueIndex pos) vals)))
           else PlainList.mapGet (PlainList.state l) x.
Proof.
  intros Hnode Hvals Hrange.
  unfold PlainList.set, PlainList.bind, PlainList.lift. rewrite Hnode.
  destruct (Z.eqb_spec (Z.of_nat (List.length vals)) 0) as [Hz | _].
  { destruct vals; [congruence | simpl in Hz; lia]. }
  rewrite Hrange.
  destruct (getOrInit_spec node l) as (l0 & Hget & _ & _ & Hs0).
  rewrite Hget.
  destruct (Sparse.set (PlainList.values (dataAt l node)) (valueIndex pos)
              vals) as [newArr existing].
  unfold PlainList.stateSet. cbv beta iota. cbn [fst snd].
  eexists. split; [reflexivity |].
  intros x. cbn [PlainList.state]. rewrite plain_mapGet_mapSet, Hs0.
  now destruct (sameNode node x).
Qed.

(** X15.  [set] of the earlier class keeps the totals consistent: if before
    the call every total is the number of present values in its subtree,
    none is negative and no record has total 0, the same holds after it. *)
Theorem plain_set_consistent (pos : Position) (vals : list T)
  (l : PlainList.Fields T) :
  consistent order l ->
  consistent order (snd (PlainList.set order pos vals l)).
Proof.
  intros Hcons.
  destruct (getNodeFor order pos) as [node | e] eqn:Hnode.
  2: { unfold PlainList.set, PlainList.bind, PlainList.lift.
       now rewrite Hnode. }
  destruct vals as [| v0 vals].
  { unfold PlainList.set, PlainList.bind, PlainList.lift.
    now rewrite Hnode. }
  destruct (sameNode node (rootNode order)
            && (valueIndex pos + Z.of_nat (List.length (v0 :: vals)) - 1 >? 1))
    eqn:Hrange.
  { unfold PlainList.set, PlainList.bind, PlainList.lift.
    rewrite Hnode, Hrange.
    now destruct (Z.of_nat (List.length (v0 :: vals)) =? 0). }
  destruct (plain_set_steps pos (v0 :: vals) l node Hnode) as (l1 & Hrun & Hl1);
    [discriminate | assumption |].
  rewrite Hrun.
  pose proof (Sparse_set_size (PlainList.values (dataAt l node))
                (valueIndex pos) (v0 :: vals)) as (Hsize & Hbound & Hle).
  apply (plain_write_consistent node
           (fst (Sparse.set (PlainList.values (dataAt l node))
                   (valueIndex pos) (v0 :: vals)))
           (Z.of_nat (List.length (v0 :: vals))
            - Sparse.size
                (snd (Sparse.set (PlainList.values (dataAt l node))
                        (valueIndex pos) (v0 :: vals))))
           l l1
           (known_of_lookup order Hwf pos node Hnode) Hcons);
    [lia | | exact Hl1].
  intros Hnone. unfold dataAt in Hle, Hbound |- *.
  rewrite Hnone in Hle, Hbound |- *.
  cbn [PlainList.values] in Hle, Hbound |- *. rewrite size_new in Hle.
  cbn [List.length] in *. lia.
Qed.

(** The list that [delete] hands to [onUpdate]. *)
Lemma plain_delete_steps (pos : Position) (count : Q)
  (l : PlainList.Fields T) (node : OrderNode)
  (data : PlainList.NodeData T) :
  getNodeFor order pos = Ok node ->
  fst (PlainList.delete order pos count l) = Ok tt ->
  Qeq_bool count 0 = false ->
  PlainList.mapGet (PlainList.state l) node = Some data ->
  exists l1,
    PlainList.delete order pos count l
    = PlainList.onUpdate node
        (0 - Sparse.size
               (snd (Sparse.delete (PlainList.values data) (valueIndex pos)
                       (ValueList.toInteger count)))) l1
    /\ forall x,
         PlainList.mapGet (PlainList.state l1) x
         = if sameNode node x
           then Some (PlainList.withValues data
                        (fst (Sparse.delete (PlainList.values data)
                                (valueIndex pos)
                                (ValueList.toInteger count))))
           else PlainList.mapGet (PlainList.state l) x.
Proof.
  intros Hnode Hok Hzero Hdata. revert Hok.
  unfold PlainList.delete, PlainList.bind, PlainList.lift.
  rewrite Hnode, Hzero.
  destruct (negb (Qle_bool 0 count) || negb (ValueList.isInteger count));
    [discriminate |].
  destruct (sameNode node (rootNode order)
            && (valueIndex pos + ValueList.toInteger count - 1 >? 1));
    [discriminate |].
  unfold PlainList.stateGet. cbv beta iota. rewrite Hdata.
  destruct (Sparse.delete (PlainList.values data) (valueIndex pos)
              (ValueList.toInteger count)) as [newArr existing].
  unfold PlainList.stateSet. cbv beta iota. cbn [fst snd].
  intros _. eexists. split; [reflexivity |].
  intros x. cbn [PlainList.state]. apply plain_mapGet_mapSet.
Qed.

(** X16.  [delete] of the earlier class keeps the totals consistent. *)
Theorem plain_delete_consistent (pos : Position) (count : Q)
  (l : PlainList.Fields T) :
  consistent order l ->
  consistent order (snd (PlainList.delete order pos count l)).
Proof.
  intros Hcons.
  destruct (getNodeFor order pos) as [node | e] eqn:Hnode.
  2: { unfold PlainList.delete, PlainList.bind, PlainList.lift.
       now rewrite Hnode. }
  destruct (PlainList.delete order pos count l) as [[[] | e] l'] eqn:Hrun.
  2: { (* a throw leaves the list as it was *)
       revert Hrun.
       unfold PlainList.delete, PlainList.bind, PlainList.lift.
       rewrite Hnode.
       destruct (Qeq_bool count 0); [discriminate |].
       destruct (negb (Qle_bool 0 count)
                 || negb (ValueList.isInteger count)).
       { unfold PlainList.throw. intros H; inversion H; subst. assumption. }
       destruct (sameNode node (rootNode order)
                 && (valueIndex pos + ValueList.toInteger count - 1 >? 1)).
       { unfold PlainList.throw. intros H; inversion H; subst. assumption. }
       unfold PlainList.stateGet. cbv beta iota.
       destruct (PlainList.mapGet (PlainList.state l) node) as [data |];
         [| discriminate].
       destruct (Sparse.delete (PlainList.values data) (valueIndex pos)
                   (ValueList.toInteger count)) as [newArr existing].
       unfold PlainList.stateSet. cbv beta iota.
       match goal with
       | |- context [PlainList.onUpdate node ?d ?l0] =>
           destruct (Z.eq_dec d 0) as [Hd | Hd];
           [ unfold PlainList.onUpdate, PlainList.bind,
               PlainList.getCachedIndexNode; rewrite Hd;
             destruct (sameNodeOpt (PlainList.cachedIndexNode l0) node);
             discriminate
           | pose proof (proj1 (plain_onUpdate_records node d l0
                                  (NoDup_path order Hwf node
                                     (known_of_lookup order Hwf pos node
                                        Hnode)) Hd)) as Hok;
             destruct (PlainList.onUpdate node d l0) as [[[] | e1] l2];
             cbn [fst] in Hok; discriminate ]
       end. }
  cbn [snd].
  destruct (Qeq_bool count 0) eqn:Hzero.
  { revert Hrun. unfold PlainList.delete, PlainList.bind, PlainList.lift.
    rewrite Hnode, Hzero. unfold PlainList.ret.
    intros H; inversion H; subst. assumption. }
  destruct (PlainList.mapGet (PlainList.state l) node) as [data |] eqn:Hdata.
  2: { revert Hrun. unfold PlainList.delete, PlainList.bind, PlainList.lift.
       rewrite Hnode, Hzero.
       destruct (negb (Qle_bool 0 count)
                 || negb (ValueList.isInteger count)); [discriminate |].
       destruct (sameNode node (rootNode order)
                 && (valueIndex pos + ValueList.toInteger count - 1 >? 1));
         [discriminate |].
       unfold PlainList.stateGet. cbv beta iota. rewrite Hdata.
       unfold PlainList.ret. intros H; inversion H; subst. assumption. }
  assert (Hok : fst (PlainList.delete order pos count l) = Ok tt)
    by now rewrite Hrun.
  destruct (plain_delete_steps pos count l node data Hnode Hok Hzero Hdata)
    as (l1 & Hsteps & Hl1).
  rewrite Hsteps in Hrun.
  replace l' with (snd (PlainList.onUpdate node
                          (0 - Sparse.size
                                 (snd (Sparse.delete (PlainList.values data)
                                         (valueIndex pos)
                                         (ValueList.toInteger count)))) l1))
    by now rewrite Hrun.
  pose proof (Sparse_delete_size (PlainList.values data) (valueIndex pos)
                (ValueList.toInteger count)) as (Hsize & Hbound).
  assert (Hd : dataAt l node = data) by (unfold dataAt; now rewrite Hdata).
  apply (plain_write_consistent node
           (fst (Sparse.delete (PlainList.values data) (valueIndex pos)
                   (ValueList.toInteger count)))
           (0 - Sparse.size
                  (snd (Sparse.delete (PlainList.values data)
                          (valueIndex pos) (ValueList.toInteger count))))
           l l1
           (known_of_lookup order Hwf pos node Hnode) Hcons).
  - rewrite Hd. lia.
  - congruence.
  - now rewrite Hd.
Qed.

Lemma plain_length_reads (l : PlainList.Fields T) :
  PlainList.length order l = (Ok (totalAt l (rootNode order)), l).
Proof.
  unfold PlainList.length, PlainList.totalOf, PlainList.bind,
    PlainList.stateGet, totalAt.
  now destruct (PlainList.mapGet (PlainList.state l) (rootNode order)).
Qed.

(** After [onUpdate(node, delta)] the totals on the path from [node] to
    the root have grown by [delta], and no other total has changed. *)
Lemma plain_onUpdate_totalAt (node : OrderNode) (delta : Z)
  (l : PlainList.Fields T) (x : OrderNode) :
  known order node ->
  totalAt (snd (PlainList.onUpdate node delta l)) x
  = totalAt l x + (if onPath node x then delta else 0).
Proof.
  intros Hnode.
  destruct (Z.eq_dec delta 0) as [Hzero | Hdelta].
  - subst delta.
    unfold PlainList.onUpdate, PlainList.bind, PlainList.getCachedIndexNode.
    unfold totalAt.
    destruct (sameNodeOpt (PlainList.cachedIndexNode l) node),
             (onPath node x); cbn; lia.
  - destruct (plain_onUpdate_records node delta l
                (NoDup_path order Hwf node Hnode) Hdelta) as [_ Hs].
    unfold totalAt at 1. rewrite Hs.
    destruct (onPath node x).
    + unfold dataAt, totalAt.
      destruct (PlainList.mapGet (PlainList.state l) x) as [d |];
        cbn [PlainList.total];
        match goal with
        | |- context [?t =? 0] => destruct (Z.eqb_spec t 0)
        end; cbn [PlainList.total]; lia.
    + unfold totalAt. destruct (PlainList.mapGet (PlainList.state l) x);
        lia.
Qed.

(** [onUpdate] of the earlier class ends normally. *)
Lemma plain_onUpdate_runs (node : OrderNode) (delta : Z)
  (l : PlainList.Fields T) :
  known order node ->
  fst (PlainList.onUpdate node delta l) = Ok tt.
Proof.
  intros Hknown.
  unfold PlainList.onUpdate, PlainList.bind, PlainList.getCachedIndexNode.
  destruct (Z.eqb_spec delta 0) as [Hz | Hdelta].
  - destruct (sameNodeOpt (PlainList.cachedIndexNode l) node); reflexivity.
  - pose proof (proj1 (plain_onUpdate_records node delta l
                         (NoDup_path order Hwf node Hknown) Hdelta)) as H.
    revert H.
    unfold PlainList.onUpdate, PlainList.bind,
      PlainList.getCachedIndexNode.
    destruct (Z.eqb_spec delta 0); [contradiction | exact (fun H => H)].
Qed.

(** X14.  [onUpdate(node, delta)] of the earlier class ends normally.  For
    a delta of 0 it leaves every record as it was.  Otherwise the record of
    [node] and of each of its ancestors gets its total increased by [delta]
    and keeps its sequence, a record with total [delta] and the empty
    sequence is created where there was none, and a record whose total
    reaches 0 is deleted from the map; the record of every other node stays
    as it was. *)
Theorem plain_onUpdate_totals (node : OrderNode) (delta : Z)
  (l : PlainList.Fields T) :
  known order node ->
  fst (PlainList.onUpdate node delta l) = Ok tt
  /\ forall x,
       PlainList.mapGet
         (PlainList.state (snd (PlainList.onUpdate node delta l))) x
       = if (delta =? 0) || negb (onPath node x)
         then PlainList.mapGet (PlainList.state l) x
         else if PlainList.total (dataAt l x) + delta =? 0 then None
              else Some {| PlainList.total :=
                             PlainList.total (dataAt l x) + delta;
                           PlainList.values :=
                             PlainList.values (dataAt l x) |}.
Proof.
  intros Hknown. split; [now apply plain_onUpdate_runs |].
  intros x.
  destruct (Z.eqb_spec delta 0) as [Hz | Hdelta]; cbn [orb].
  - assert (Hstate :
      PlainList.state (snd (PlainList.onUpdate node delta l))
      = PlainList.state l).
    { unfold PlainList.onUpdate, PlainList.bind,
        PlainList.getCachedIndexNode.
      rewrite Hz.
      destruct (sameNodeOpt (PlainList.cachedIndexNode l) node);
        reflexivity. }
    now rewrite Hstate.
  - destruct (plain_onUpdate_records node delta l
                (NoDup_path order Hwf node Hknown) Hdelta) as [_ Hs].
    rewrite Hs. now destruct (onPath node x).
Qed.

(** X17.  [set] of the earlier class moves the length by the number of
    slots that become present: the length of the item less the number of
    values it replaces. *)
Theorem plain_set_length (pos : Position) (vals : list T)
  (l : PlainList.Fields T) (node : OrderNode) :
  getNodeFor order pos = Ok node ->
  vals <> [] ->
  fst (PlainList.set order pos vals l) = Ok tt ->
  fst (PlainList.length order (snd (PlainList.set order pos vals l)))
  = Ok (totalAt l (rootNode order)
        + Z.of_nat (List.length vals)
        - Sparse.size
            (snd (Sparse.set (PlainList.values (dataAt l node))
                    (valueIndex pos) vals))).
Proof.
  intros Hnode Hvals Hok.
  assert (Hknown : known order node)
    by exact (known_of_lookup order Hwf pos node Hnode).
  assert (Hrange :
    sameNode node (rootNode order)
    && (valueIndex pos + Z.of_nat (List.length vals) - 1 >? 1) = false).
  { revert Hok. unfold PlainList.set, PlainList.bind, PlainList.lift.
    rewrite Hnode.
    destruct (Z.eqb_spec (Z.of_nat (List.length vals)) 0) as [Hz | _].
    { destruct vals; [congruence | simpl in Hz; lia]. }
    destruct (sameNode node (rootNode order)
              && (valueIndex pos + Z.of_nat (List.length vals) - 1 >? 1));
      [discriminate | reflexivity]. }
  destruct (plain_set_steps pos vals l node Hnode Hvals Hrange)
    as (l1 & Hrun & Hl1).
  rewrite Hrun, plain_length_reads. cbn [fst].
  rewrite (plain_onUpdate_totalAt node _ l1 (rootNode order) Hknown).
  rewrite (onPath_rootNode node Hknown).
  assert (Htotal : totalAt l1 (rootNode order) = totalAt l (rootNode order)).
  { unfold totalAt. rewrite Hl1.
    destruct (sameNode node (rootNode order)) eqn:Hx; [| reflexivity].
    cbn [PlainList.withValues PlainList.total].
    rewrite (dataAt_sameNode l node _ Hx). unfold dataAt.
    now destruct (PlainList.mapGet (PlainList.state l) (rootNode order)). }
  rewrite Htotal. f_equal. lia.
Qed.

(** X18.  [delete] of the earlier class lowers the length by the number of
    present values among the slots it covers. *)
Theorem plain_delete_length (pos : Position) (count : Q)
  (l : PlainList.Fields T) (node : OrderNode) :
  getNodeFor order pos = Ok node ->
  fst (PlainList.delete order pos count l) = Ok tt ->
  fst (PlainList.length order (snd (PlainList.delete order pos count l)))
  = Ok (totalAt l (rootNode order)
        - (if Qeq_bool count 0 then 0
           else Sparse.size
                  (snd (Sparse.delete (PlainList.values (dataAt l node))
                          (valueIndex pos) (ValueList.toInteger count))))).
Proof.
  intros Hnode Hok.
  assert (Hknown : known order node)
    by exact (known_of_lookup order Hwf pos node Hnode).
  destruct (Qeq_bool count 0) eqn:Hzero.
  { unfold PlainList.delete, PlainList.bind, PlainList.lift.
    rewrite Hnode, Hzero. unfold PlainList.ret. cbn [snd].
    rewrite plain_length_reads. cbn [fst]. f_equal. lia. }
  destruct (PlainList.mapGet (PlainList.state l) node) as [data |] eqn:Hdata.
  - destruct (plain_delete_steps pos count l node data Hnode Hok Hzero Hdata)
      as (l1 & Hrun & Hl1).
    rewrite Hrun, plain_length_reads. cbn [fst].
    rewrite (plain_onUpdate_totalAt node _ l1 (rootNode order) Hknown).
    rewrite (onPath_rootNode node Hknown).
    assert (Hd : dataAt l node = data) by (unfold dataAt; now rewrite Hdata).
    assert (Htotal : totalAt l1 (rootNode order)
                     = totalAt l (rootNode order)).
    { unfold totalAt. rewrite Hl1.
      destruct (sameNode node (rootNode order)) eqn:Hx; [| reflexivity].
      cbn [PlainList.withValues PlainList.total].
      rewrite <- (plain_mapGet_sameNode _ _ _ Hx), Hdata. reflexivity. }
    rewrite Htotal, Hd. f_equal; lia.
  - assert (Hsame : snd (PlainList.delete order pos count l) = l).
    { revert Hok. unfold PlainList.delete, PlainList.bind, PlainList.lift.
      rewrite Hnode, Hzero.
      destruct (negb (Qle_bool 0 count)
                || negb (ValueList.isInteger count)); [discriminate |].
      destruct (sameNode node (rootNode order)
                && (valueIndex pos + ValueList.toInteger count - 1 >? 1));
        [discriminate |].
      unfold PlainList.stateGet. cbv beta iota. now rewrite Hdata. }
    rewrite Hsame, plain_length_reads. cbn [fst]. f_equal.
    pose proof (Sparse_delete_size (PlainList.values (dataAt l node))
                  (valueIndex pos) (ValueList.toInteger count))
      as (_ & Hbound).
    unfold dataAt in Hbound |- *. rewrite Hdata in Hbound |- *.
    cbn [PlainList.values] in Hbound |- *. rewrite size_new in Hbound. lia.
Qed.

(** X19.  Reading back what [set] of the earlier class wrote: on a list
    with consistent totals, a [set] that returns makes every value of the
    item readable at its slot. *)
Theorem plain_get_after_set (pos : Position) (vals : list T)
  (l : PlainList.Fields T) (node : OrderNode) (k : nat) (v : T) :
  consistent order l ->
  getNodeFor order pos = Ok node ->
  fst (PlainList.set order pos vals l) = Ok tt ->
  0 <= valueIndex pos ->
  nth_error vals k = Some v ->
  fst (PlainList.get order
         {| nodeID := nodeID pos; valueIndex := valueIndex pos + Z.of_nat k |}
         (snd (PlainList.set order pos vals l))) = Ok (Some v)
  /\ fst (PlainList.has order
            {| nodeID := nodeID pos;
               valueIndex := valueIndex pos + Z.of_nat k |}
            (snd (PlainList.set order pos vals l))) = Ok true.
Proof.
  intros Hcons Hnode Hok Hindex Hk.
  assert (Hvals : vals <> []) by (intros ->; now destruct k).
  assert (Hknown : known order node)
    by exact (known_of_lookup order Hwf pos node Hnode).
  assert (Hrange :
    sameNode node (rootNode order)
    && (valueIndex pos + Z.of_nat (List.length vals) - 1 >? 1) = false).
  { revert Hok. unfold PlainList.set, PlainList.bind, PlainList.lift.
    rewrite Hnode.
    destruct (Z.eqb_spec (Z.of_nat (List.length vals)) 0) as [Hz | _].
    { destruct vals; [congruence | simpl in Hz; lia]. }
    destruct (sameNode node (rootNode order)
              && (valueIndex pos + Z.of_nat (List.length vals) - 1 >? 1));
      [discriminate | reflexivity]. }
  destruct (plain_set_steps pos vals l node Hnode Hvals Hrange)
    as (l1 & Hrun & Hl1).
  set (newArr := fst (Sparse.set (PlainList.values (dataAt l node))
                        (valueIndex pos) vals)) in *.
  set (delta := Z.of_nat (List.length vals)
                - Sparse.size
                    (snd (Sparse.set (PlainList.values (dataAt l node))
                            (valueIndex pos) vals))) in *.
  assert (Hrec :
    exists t,
      PlainList.mapGet
        (PlainList.state (snd (PlainList.onUpdate node delta l1))) node
      = Some {| PlainList.total := t; PlainList.values := newArr |}).
  { pose proof (Hl1 node) as Hl1n. rewrite sameNode_refl in Hl1n.
    destruct (Z.eq_dec delta 0) as [Hzero | Hdelta].
    - exists (PlainList.total (dataAt l node)).
      unfold PlainList.onUpdate, PlainList.bind,
        PlainList.getCachedIndexNode.
      rewrite Hzero.
      destruct (sameNodeOpt (PlainList.cachedIndexNode l1) node);
        cbn; exact Hl1n.
    - destruct (plain_onUpdate_records node delta l1
                  (NoDup_path order Hwf node Hknown) Hdelta) as [_ Hs].
      rewrite Hs, onPath_self.
      assert (Hd1 : dataAt l1 node
                    = PlainList.withValues (dataAt l node) newArr).
      { unfold dataAt at 1. now rewrite Hl1n. }
      rewrite Hd1. cbn [PlainList.withValues PlainList.total
                          PlainList.values].
      pose proof (Sparse_set_size (PlainList.values (dataAt l node))
                    (valueIndex pos) vals) as (Hsize & Hbound & Hle).
      fold newArr in Hsize.
      destruct Hcons as [Hsum Hnonneg _].
      pose proof (Hsum node Hknown) as Heq.
      assert (0 <= sumZ (totalAt l) (getChildren order node)).
      { apply sumZ_nonneg. intros c Hc. apply Hnonneg.
        exact (proj1 (wf_children Hwf Hknown Hc)). }
      assert (Htotal : PlainList.total (dataAt l node) = totalAt l node).
      { unfold dataAt, totalAt.
        now destruct (PlainList.mapGet (PlainList.state l) node). }
      assert (Hsz : Sparse.size (PlainList.values (dataAt l node))
                    = sizeAt l node).
      { unfold dataAt, sizeAt.
        destruct (PlainList.mapGet (PlainList.state l) node);
          cbn [PlainList.values]; rewrite ?size_new; reflexivity. }
      assert (0 < Z.of_nat (List.length vals)).
      { destruct vals; [congruence | cbn [List.length]; lia]. }
      match goal with
      | |- context [?t =? 0] => destruct (Z.eqb_spec t 0) as [Hz | _]
      end; [subst delta; lia |].
      eexists. reflexivity. }
  destruct Hrec as [t Hrec].
  assert (Hnode' :
    getNodeFor order
      {| nodeID := nodeID pos; valueIndex := valueIndex pos + Z.of_nat k |}
    = Ok node) by exact Hnode.
  rewrite Hrun.
  unfold PlainList.get, PlainList.has, PlainList.getInNode, PlainList.bind,
    PlainList.lift, PlainList.stateGet.
  rewrite Hnode'. cbv beta iota. rewrite Hrec.
  unfold PlainList.ret. cbn [fst snd valueIndex PlainList.values].
  rewrite <- (getInfo_trim newArr).
  subst newArr.
  rewrite (@Sparse_set_getInfo T (PlainList.values (dataAt l node))
             (valueIndex pos) vals k v Hindex Hk).
  split; reflexivity.
Qed.

(** X20.  Reading back what [delete] of the earlier class erased: after a
    [delete] that returns, every slot it covers is absent. *)
Theorem plain_has_after_delete (pos : Position) (count : Q)
  (l : PlainList.Fields T) (node : OrderNode) (k : Z) :
  getNodeFor order pos = Ok node ->
  fst (PlainList.delete order pos count l) = Ok tt ->
  0 <= valueIndex pos ->
  0 <= k < ValueList.toInteger count ->
  fst (PlainList.has order
         {| nodeID := nodeID pos; valueIndex := valueIndex pos + k |}
         (snd (PlainList.delete order pos count l))) = Ok false
  /\ fst (PlainList.get order
            {| nodeID := nodeID pos; valueIndex := valueIndex pos + k |}
            (snd (PlainList.delete order pos count l))) = Ok None.
Proof.
  intros Hnode Hok Hindex Hk.
  assert (Hknown : known order node)
    by exact (known_of_lookup order Hwf pos node Hnode).
  assert (Hnode' :
    getNodeFor order
      {| nodeID := nodeID pos; valueIndex := valueIndex pos + k |}
    = Ok node) by exact Hnode.
  assert (Hzero : Qeq_bool count 0 = false).
  { destruct (Qeq_bool count 0) eqn:Hz; [| reflexivity].
    apply Qeq_bool_iff in Hz. unfold Qeq in Hz. simpl in Hz.
    unfold ValueList.toInteger in Hk.
    replace (Qnum count) with 0 in Hk by lia.
    rewrite Z.div_0_l in Hk by discriminate. lia. }
  assert (Hrec :
    forall d,
      PlainList.mapGet
        (PlainList.state (snd (PlainList.delete order pos count l))) node
      = Some d ->
      fst (Sparse.getInfo (PlainList.values d) (valueIndex pos + k))
      = (None, false)).
  { destruct (PlainList.mapGet (PlainList.state l) node) as [data |]
      eqn:Hdata.
    - destruct (plain_delete_steps pos count l node data Hnode Hok Hzero
                  Hdata) as (l1 & Hrun & Hl1).
      rewrite Hrun.
      set (delta := 0 - Sparse.size
                          (snd (Sparse.delete (PlainList.values data)
                                  (valueIndex pos)
                                  (ValueList.toInteger count)))) in *.
      set (newArr := fst (Sparse.delete (PlainList.values data)
                            (valueIndex pos) (ValueList.toInteger count)))
        in *.
      pose proof (Hl1 node) as Hl1n. rewrite sameNode_refl in Hl1n.
      assert (Hgood :
        fst (Sparse.getInfo newArr (valueIndex pos + k)) = (None, false)).
      { rewrite <- (getInfo_trim newArr). subst newArr.
        exact (@Sparse_delete_getInfo T (PlainList.values data)
                 (valueIndex pos) (ValueList.toInteger count) k Hindex Hk). }
      destruct (Z.eq_dec delta 0) as [Hz | Hdelta].
      + intros d Hd.
        assert (Hd' : PlainList.mapGet (PlainList.state l1) node = Some d).
        { revert Hd. unfold PlainList.onUpdate, PlainList.bind,
            PlainList.getCachedIndexNode.
          rewrite Hz.
          destruct (sameNodeOpt (PlainList.cachedIndexNode l1) node);
            exact (fun H => H). }
        rewrite Hl1n in Hd'. injection Hd' as <-. exact Hgood.
      + destruct (plain_onUpdate_records node delta l1
                    (NoDup_path order Hwf node Hknown) Hdelta) as [_ Hs].
        intros d. rewrite Hs, onPath_self.
        assert (Hd1 : dataAt l1 node = PlainList.withValues data newArr).
        { unfold dataAt at 1. now rewrite Hl1n. }
        rewrite Hd1.
        match goal with
        | |- context [?t =? 0] => destruct (Z.eqb_spec t 0)
        end; [discriminate |].
        intros Hd. injection Hd as <-. exact Hgood.
    - assert (Hsame : snd (PlainList.delete order pos count l) = l).
      { revert Hok. unfold PlainList.delete, PlainList.bind, PlainList.lift.
        rewrite Hnode, Hzero.
        destruct (negb (Qle_bool 0 count)
                  || negb (ValueList.isInteger count)); [discriminate |].
        destruct (sameNode node (rootNode order)
                  && (valueIndex pos + ValueList.toInteger count - 1 >? 1));
          [discriminate |].
        unfold PlainList.stateGet. cbv beta iota. now rewrite Hdata. }
      rewrite Hsame. intros d Hd. congruence. }
  unfold PlainList.get, PlainList.has, PlainList.getInNode, PlainList.bind,
    PlainList.lift, PlainList.stateGet.
  rewrite Hnode'. cbv beta iota.
  destruct (PlainList.mapGet
              (PlainList.state (snd (PlainList.delete order pos count l)))
              node) as [d |] eqn:Hd;
    unfold PlainList.ret; cbn [fst snd valueIndex].
  - rewrite (Hrec d eq_refl). split; reflexivity.
  - split; reflexivity.
Qed.

End ConsistencyFacts.

(** * Further properties of [ItemList]: saving, loading, iterating *)

(** ** Saving and loading back *)

Section LoadSaveFacts.

Context {T : Type}.

Variable order : Order.

Lemma mapGet_sameNode (m : list (OrderNode * NodeData T)) (a b : OrderNode) :
  sameNode a b = true -> mapGet m a = mapGet m b.
Proof.
  intros Hab. induction m as [| [k d] rest IH]; [reflexivity |].
  cbn [mapGet]. rewrite IH.
  replace (sameNode k b) with (sameNode k a); [reflexivity |].
  unfold sameNode in *. apply String.eqb_eq in Hab. now rewrite Hab.
Qed.

Lemma mapGet_absent (m : list (OrderNode * NodeData T)) (x : OrderNode) :
  ~ In (id x) (map (fun r => id (fst r)) m) -> mapGet m x = None.
Proof.
  induction m as [| [k d] rest IH]; [reflexivity |].
  cbn [map fst In mapGet]. intros Hnot.
  destruct (sameNode k x) eqn:Hk.
  - apply sameNode_eq in Hk. tauto.
  - apply IH. tauto.
Qed.

Lemma objGet_objSet {S : Type} (obj : list (string * S)) (key k : string)
  (v : S) :
  objGet (objSet obj key v) k
  = if String.eqb key k then Some v else objGet obj k.
Proof.
  induction obj as [| [k0 v0] rest IH]; cbn [objSet objGet].
  - reflexivity.
  - destruct (String.eqb_spec k0 key) as [-> | Hne]; cbn [objGet].
    + now destruct (String.eqb key k).
    + rewrite IH. destruct (String.eqb_spec k0 k) as [-> | _];
        [| reflexivity].
      destruct (String.eqb_spec key k) as [-> | _]; [congruence | reflexivity].
Qed.

Lemma objGet_absent {S : Type} (obj : list (string * S)) (k : string) :
  ~ In k (map fst obj) -> objGet obj k = None.
Proof.
  induction obj as [| [k0 v0] rest IH]; [reflexivity |].
  cbn [map fst In objGet]. intros Hnot.
  destruct (String.eqb_spec k0 k); [tauto | apply IH; tauto].
Qed.

Lemma objSet_NoDup {S : Type} (obj : list (string * S)) (key : string)
  (v : S) :
  NoDup (map fst obj) -> NoDup (map fst (objSet obj key v)).
Proof.
  induction obj as [| [k0 v0] rest IH]; cbn [objSet map fst]; intros Hnd.
  - constructor; [intros [] | constructor].
  - inversion Hnd as [| ? ? Hnot Hrest]; subst.
    destruct (String.eqb_spec k0 key) as [-> | Hne]; cbn [map fst].
    + now constructor.
    + constructor; [| now apply IH].
      rewrite objSet_keys. intros [H | H]; [congruence | contradiction].
Qed.

Lemma saveLoop_NoDup {S : Type} (f : Sparse.SparseItems T -> S)
  (records : list (OrderNode * NodeData T)) :
  forall acc, NoDup (map fst acc) -> NoDup (map fst (saveLoop f records acc)).
Proof.
  induction records as [| [node data] rest IH]; intros acc Hnd;
    cbn [saveLoop]; [exact Hnd |].
  apply IH. destruct (negb (Sparse.isEmpty (values data)));
    [now apply objSet_NoDup | exact Hnd].
Qed.

(** What [save] holds under the id of a node: the saved sequence of its
    record, unless the sequence has no present value. *)
Lemma saveLoop_objGet {S : Type} (f : Sparse.SparseItems T -> S)
  (records : list (OrderNode * NodeData T)) :
  NoDup (map (fun r => id (fst r)) records) ->
  forall (acc : list (string * S)) (x : OrderNode),
    objGet (saveLoop f records acc) (id x)
    = match mapGet records x with
      | Some d =>
          if Sparse.isEmpty (values d) then objGet acc (id x)
          else Some (f (values d))
      | None => objGet acc (id x)
      end.
Proof.
  induction records as [| [node data] rest IH]; intros Hnd acc x;
    cbn [saveLoop mapGet]; [reflexivity |].
  cbn [map fst] in Hnd. inversion Hnd as [| ? ? Hnot Hrest]; subst.
  rewrite (IH Hrest).
  destruct (sameNode node x) eqn:Hx.
  - pose proof (sameNode_eq _ _ Hx) as Hid.
    rewrite (mapGet_absent rest x) by (rewrite <- Hid; exact Hnot).
    destruct (Sparse.isEmpty (values data)); cbn [negb]; [reflexivity |].
    rewrite objGet_objSet, Hid, String.eqb_refl. reflexivity.
  - assert (Hacc :
      objGet (if negb (Sparse.isEmpty (values data))
              then objSet acc (id node) (f (values data)) else acc) (id x)
      = objGet acc (id x)).
    { destruct (negb (Sparse.isEmpty (values data))); [| reflexivity].
      rewrite objGet_objSet. unfold sameNode in Hx. now rewrite Hx. }
    rewrite Hacc. reflexivity.
Qed.

(** [onUpdate] after a write that did not lower the number of present
    values: it ends normally, the node keeps its record and its sequence,
    and the sequences of all other records stay as they were. *)
Lemma onUpdate_keeps_values (node : OrderNode) (delta : Z) (l : ItemList T)
  (d : NodeData T) :
  mapGet (state l) node = Some d ->
  0 <= total d ->
  0 <= delta ->
  exists l',
    onUpdate order node delta l = (Ok tt, l')
    /\ option_map values (mapGet (state l') node) = Some (values d)
    /\ forall x, sameNode node x = false ->
                 option_map values (mapGet (state l') x)
                 = option_map values (mapGet (state l) x).
Proof.
  intros Hrec Htotal Hdelta.
  destruct (onUpdate_cache order node delta l) as (l5 & Hrun5 & _).
  exists l5. split; [exact Hrun5 |].
  replace l5 with (snd (onUpdate order node delta l))
    by now rewrite Hrun5.
  clear l5 Hrun5.
  unfold onUpdate, bind, getCachedIndexNode.
  set (l3 := snd ((if sameNodeOpt (cachedIndexNode l) node then ret tt
                   else setCachedIndexNode None) l)).
  assert (H3 :
    (if sameNodeOpt (cachedIndexNode l) node then ret tt
     else setCachedIndexNode None) l = (Ok tt, l3)
    /\ state l3 = state l).
  { subst l3. destruct (sameNodeOpt (cachedIndexNode l) node);
      unfold ret, setCachedIndexNode; simpl; auto. }
  destruct H3 as (Hrun3 & Hs3). rewrite Hrun3.
  assert (H4 :
    exists l4 t,
      (if delta =? 0 then ret tt else updateTotals node delta node) l3
      = (Ok tt, l4)
      /\ mapGet (state l4) node = Some (withTotal d t)
      /\ forall x, sameNode node x = false ->
                   mapGet (state l4) x = mapGet (state l) x).
  { destruct (Z.eqb_spec delta 0) as [Hz | Hz].
    - exists l3, (total d). unfold ret. rewrite Hs3.
      split; [reflexivity |]. split; [| auto].
      rewrite Hrec. now destruct d.
    - assert (Hpos : 0 < delta) by lia.
      destruct (updateTotals_runs node delta node l3) as (l4 & Hrun4 & _).
      destruct (@updateTotals_growing T node delta node Hpos l3 d)
        as (t & _ & Hn & Ho).
      + now rewrite Hs3.
      + exact Htotal.
      + rewrite Hrun4 in Hn, Ho. cbn [snd] in Hn, Ho.
        exists l4, t. rewrite <- Hs3. auto. }
  destruct H4 as (l4 & t & Hrun4 & Hrec4 & Hother4). rewrite Hrun4.
  unfold stateGet. cbv beta iota. rewrite Hrec4.
  pose proof (updateChildren_values (withTotal d t) (getChildren order node)
                l4) as Hv.
  split.
  - rewrite Hv, Hrec4. reflexivity.
  - intros x Hx. rewrite Hv. now rewrite Hother4.
Qed.

(** One round of the loop of [load], for a node without a record. *)
Lemma load_round (node : OrderNode) (vals : Sparse.SparseItems T)
  (l : ItemList T) :
  mapGet (state l) node = None ->
  exists l',
    (data <- getOrCreateData node ;;
     stateSet node (withValues data vals) ;;
     onUpdate order node (Sparse.size vals - Sparse.size (values data))) l
    = (Ok tt, l')
    /\ option_map values (mapGet (state l') node) = Some vals
    /\ forall x, sameNode node x = false ->
                 option_map values (mapGet (state l') x)
                 = option_map values (mapGet (state l) x).
Proof.
  intros Hnone. unfold bind.
  destruct (getOrCreateData_record node l)
    as (data & l1 & Hget & Hrec1 & [[Hold _] | (_ & Hzero & Hnew)] & Hother);
    [congruence |].
  rewrite Hget. unfold stateSet. cbv beta iota.
  set (l2 := {| state := mapSet (state l1) node (withValues data vals);
                cachedIndexNode := cachedIndexNode l1;
                cachedIndex := cachedIndex l1 |}).
  assert (Hrec2 : mapGet (state l2) node = Some (withValues data vals)).
  { simpl. now rewrite mapGet_mapSet, sameNode_refl. }
  assert (Hother2 : forall x, sameNode node x = false ->
                              mapGet (state l2) x = mapGet (state l) x).
  { intros x Hx. simpl. rewrite mapGet_mapSet, Hx. now apply Hother. }
  destruct (onUpdate_keeps_values node
              (Sparse.size vals - Sparse.size (values data)) l2
              (withValues data vals) Hrec2)
    as (l' & Hrun & Hnode & Hrest).
  - cbn [withValues total]. lia.
  - rewrite Hnew, size_new. pose proof (size_nonneg vals). lia.
  - exists l'. split; [exact Hrun |]. split; [exact Hnode |].
    intros x Hx. rewrite (Hrest x Hx). now rewrite Hother2.
Qed.

(** The sequences after the loop of [load]: under each id of the saved
    state the loaded sequence, and elsewhere what was there before. *)
Lemma loadLoop_values {S : Type} (loadArray : S -> Sparse.SparseItems T)
  (savedState : list (string * S)) :
  (forall i node, getNode order i = Some node -> id node = i) ->
  NoDup (map fst savedState) ->
  (forall k, In k (map fst savedState) -> knownID order k = true) ->
  forall l : ItemList T,
    (forall x, In (id x) (map fst savedState) ->
               mapGet (state l) x = None) ->
    fst (loadLoop order loadArray savedState l) = Ok tt
    /\ forall x,
         option_map values
           (mapGet (state (snd (loadLoop order loadArray savedState l))) x)
         = match objGet savedState (id x) with
           | Some s => Some (loadArray s)
           | None => option_map values (mapGet (state l) x)
           end.
Proof.
  intros Hlookup.
  induction savedState as [| [k s] rest IH]; intros Hnd Hknown l Hfresh.
  - cbn [loadLoop objGet]. unfold ret. split; [reflexivity | reflexivity].
  - cbn [map fst] in Hnd. inversion Hnd as [| ? ? Hnot Hrest]; subst.
    cbn [loadLoop].
    pose proof (Hknown k (or_introl eq_refl)) as Hk. unfold knownID in Hk.
    destruct (getNode order k) as [node |] eqn:Hnode; [| discriminate].
    pose proof (Hlookup k node Hnode) as Hid.
    destruct (load_round node (loadArray s) l) as (l' & Hrun & Hval & Hoth).
    { apply Hfresh. left. now rewrite Hid. }
    unfold bind in Hrun |- *.
    destruct (getOrCreateData node l) as [[data | e] l1];
      [| discriminate].
    unfold bind.
    match type of Hrun with
    | ?c = _ => destruct c as [[[] | e] l2] eqn:Hc
    end; [| discriminate].
    injection Hrun as ->.
    assert (Hfresh' :
      forall x, In (id x) (map fst rest) -> mapGet (state l') x = None).
    { intros x Hx.
      assert (Hdiff : sameNode node x = false).
      { unfold sameNode. apply String.eqb_neq. intros Heq.
        apply Hnot. now rewrite <- Hid, Heq. }
      pose proof (Hoth x Hdiff) as Hsame.
      rewrite (Hfresh x (or_intror Hx)) in Hsame.
      destruct (mapGet (state l') x); [discriminate | reflexivity]. }
    destruct (IH Hrest (fun k0 H => Hknown k0 (or_intror H)) l' Hfresh')
      as (Hok & Hvals).
    revert Hc. unfold stateSet. cbv beta iota. intros Hc.
    rewrite Hc. cbv beta iota.
    split; [exact Hok |].
    intros x. rewrite Hvals. cbn [objGet].
    destruct (String.eqb_spec k (id x)) as [Hkx | Hkx].
    + rewrite objGet_absent by (rewrite <- Hkx; exact Hnot).
      assert (Hsame : sameNode node x = true).
      { unfold sameNode. apply String.eqb_eq. congruence. }
      rewrite <- (mapGet_sameNode _ _ _ Hsame). exact Hval.
    + destruct (objGet rest (id x)); [reflexivity |].
      apply Hoth. unfold sameNode. apply String.eqb_neq. congruence.
Qed.

(** A sequence without a present value answers absent at every slot from
    0 on. *)
Lemma getInfo_isEmpty (arr : Sparse.SparseItems T) :
  Sparse.isEmpty arr = true ->
  forall index, 0 <= index ->
                fst (Sparse.getInfo arr index) = (None, false).
Proof.
  unfold Sparse.isEmpty. intros Hsize. apply Z.eqb_eq in Hsize.
  induction arr as [| [vs | n] rest IH]; intros index Hindex;
    cbn [Sparse.getInfo Sparse.size] in *.
  - reflexivity.
  - pose proof (size_nonneg rest).
    assert (Hvs : vs = [])
      by (destruct vs; [reflexivity | cbn [List.length] in Hsize; lia]).
    subst vs. cbn [List.length Z.of_nat] in *.
    destruct (Z.ltb_spec index 0); [lia |].
    specialize (IH Hsize (index - 0) ltac:(lia)).
    destruct (Sparse.getInfo rest (index - 0)) as [[v p] b].
    cbn [fst] in IH |- *. exact IH.
  - destruct (Z.ltb_spec index n); [reflexivity |].
    apply IH; [exact Hsize | lia].
Qed.

(** X21.  Loading what [save] returned: when the codec of sequences is
    inverted by [loadArray], the order looks up every node of the list under
    its id, and no two records are of one id, [load(save())] ends normally
    and every position from slot 0 on reads, by [get] and by [has], as it
    read in the list that was saved. *)
Theorem load_save_reads {S : Type} (saveArray : Sparse.SparseItems T -> S)
  (loadArray : S -> Sparse.SparseItems T) (l l0 : ItemList T)
  (pos : Position) :
  (forall arr, loadArray (saveArray arr) = arr) ->
  (forall i node, getNode order i = Some node -> id node = i) ->
  NoDup (recordIDs l) ->
  forallb (knownID order) (recordIDs l) = true ->
  0 <= valueIndex pos ->
  fst (load order (save saveArray l) loadArray l0) = Ok tt
  /\ fst (get order pos
            (snd (load order (save saveArray l) loadArray l0)))
     = fst (get order pos l)
  /\ fst (has order pos
            (snd (load order (save saveArray l) loadArray l0)))
     = fst (has order pos l).
Proof.
  intros Hcodec Hlookup Hnd Hknown Hindex.
  unfold load, bind, clear. cbv beta iota.
  set (l1 := {| state := []; cachedIndexNode := None;
                cachedIndex := cachedIndex l0 |}).
  assert (Hkeys : forall k, In k (map fst (save saveArray l)) ->
                            knownID order k = true).
  { intros k Hk. apply save_keys in Hk.
    destruct Hk as (node & data & Hin & Hid & _).
    rewrite forallb_forall in Hknown. apply Hknown.
    unfold recordIDs. rewrite <- Hid.
    apply (in_map (fun r => id (fst r)) _ _ Hin). }
  destruct (loadLoop_values loadArray (save saveArray l) Hlookup
              (saveLoop_NoDup saveArray (state l) [] (NoDup_nil _))
              Hkeys l1 (fun _ _ => eq_refl)) as (Hok & Hvals).
  destruct (loadLoop order loadArray (save saveArray l) l1)
    as [r l'] eqn:Hrun.
  cbn [fst snd] in Hok, Hvals |- *. subst r.
  split; [reflexivity |].
  assert (Hread :
    forall node,
      fst (match mapGet (state l') node with
           | Some d => Sparse.getInfo (values d) (valueIndex pos)
           | None => (None, false, 0)
           end)
      = fst (match mapGet (state l) node with
             | Some d => Sparse.getInfo (values d) (valueIndex pos)
             | None => (None, false, 0)
             end)).
  { intros node. pose proof (Hvals node) as Hv.
    unfold save in Hv. rewrite (saveLoop_objGet saveArray _ Hnd) in Hv.
    cbn [objGet mapGet state] in Hv.
    destruct (mapGet (state l) node) as [d |].
    - destruct (Sparse.isEmpty (values d)) eqn:Hempty.
      + rewrite (getInfo_isEmpty _ Hempty _ Hindex).
        destruct (mapGet (state l') node); [discriminate | reflexivity].
      + rewrite Hcodec in Hv.
        destruct (mapGet (state l') node) as [d' |]; [| discriminate].
        cbn [option_map] in Hv. injection Hv as ->. reflexivity.
    - destruct (mapGet (state l') node); [discriminate | reflexivity]. }
  unfold get, has, getInNode, bind, lift, stateGet.
  destruct (getNodeFor order pos) as [node | e]; [| split; reflexivity].
  cbv beta iota. pose proof (Hread node) as Hr.
  destruct (mapGet (state l') node) as [d' |],
           (mapGet (state l) node) as [d |];
    unfold ret; cbn [fst snd] in Hr |- *; rewrite ?Hr;
    split; try reflexivity;
    try (now rewrite <- Hr); try (now inversion Hr).
Qed.

End LoadSaveFacts.

(** ** Saving again after loading *)

Section SaveAgainFacts.

Context {T : Type}.

Variable order : Order.

Lemma mapSet_shape_present (m : list (OrderNode * NodeData T))
  (k : OrderNode) (d d0 : NodeData T) :
  mapGet m k = Some d0 ->
  values d = values d0 ->
  shape (mapSet m k d) = shape m.
Proof.
  intros Hget Hvalues.
  induction m as [| [k0 d1] rest IH]; [discriminate |].
  cbn [mapGet mapSet] in *.
  destruct (sameNode k0 k).
  - injection Hget as ->. unfold shape. cbn [map fst snd].
    now rewrite Hvalues.
  - unfold shape in *. cbn [map fst snd]. now rewrite (IH Hget).
Qed.

Lemma mapSet_shape_absent (m : list (OrderNode * NodeData T))
  (k : OrderNode) (d : NodeData T) :
  mapGet m k = None ->
  shape (mapSet m k d) = shape m ++ [(id k, values d)].
Proof.
  intros Hget.
  induction m as [| [k0 d1] rest IH]; [reflexivity |].
  cbn [mapGet mapSet] in *.
  destruct (sameNode k0 k); [discriminate |].
  unfold shape in *. cbn [map fst snd app]. now rewrite (IH Hget).
Qed.

Lemma mapSet_twice (m : list (OrderNode * NodeData T)) (k : OrderNode)
  (d1 d2 : NodeData T) :
  mapSet (mapSet m k d1) k d2 = mapSet m k d2.
Proof.
  induction m as [| [k0 d0] rest IH]; cbn [mapSet].
  - now rewrite sameNode_refl.
  - destruct (sameNode k0 k) eqn:Hk; cbn [mapSet]; rewrite Hk;
      [reflexivity | now rewrite IH].
Qed.

Lemma mapGet_shape_absent (m : list (OrderNode * NodeData T))
  (x : OrderNode) :
  ~ In (id x) (map fst (shape m)) -> mapGet m x = None.
Proof.
  intros Hnot. apply mapGet_absent.
  unfold shape in Hnot. rewrite map_map in Hnot. exact Hnot.
Qed.

(** On a node without a record [getOrCreateData] adds a record with total 0
    and the empty sequence, at the end of the map. *)
Lemma getOrCreateData_fresh (node : OrderNode) (l : ItemList T) :
  mapGet (state l) node = None ->
  exists data,
    getOrCreateData node l
    = (Ok data,
       {| state := mapSet (state l) node data;
          cachedIndexNode := cachedIndexNode l;
          cachedIndex := cachedIndex l |})
    /\ total data = 0
    /\ values data = Sparse.new 0.
Proof.
  intros Hnone. unfold getOrCreateData, bind, stateGet. rewrite Hnone.
  destruct (parent node) as [p |];
    [destruct (mapGet (state l) p) |];
    unfold ret, stateSet; cbv beta iota;
    eexists; (split; [reflexivity | split; reflexivity]).
Qed.

Lemma updateChildren_shape (nodeData : NodeData T)
  (children : list OrderNode) :
  forall l : ItemList T,
    shape (state (snd (updateChildren nodeData children l)))
    = shape (state l).
Proof.
  induction children as [| child rest IH]; intros l; cbn [updateChildren].
  - reflexivity.
  - unfold bind, stateGet.
    destruct (mapGet (state l) child) as [cd |] eqn:Hchild.
    + unfold stateSet at 1. cbv beta iota. rewrite IH. cbn [state].
      now apply (mapSet_shape_present _ _ _ cd).
    + unfold ret at 1. apply IH.
Qed.

Lemma updateTotals_shape (node : OrderNode) (delta : Z)
  (current : OrderNode) :
  0 < delta ->
  forall (l : ItemList T) (d : NodeData T),
    mapGet (state l) node = Some d ->
    0 <= total d ->
    shape (state (snd (updateTotals node delta current l)))
    = shape (state l).
Proof.
  intros Hdelta.
  induction current as [i v p IH] using OrderNode_parent_ind.
  intros l d Hrec Htotal. simpl. unfold bind.
  destruct (getOrCreateData_record node l)
    as (data & l1 & Hget & Hrec1 & [[Hold Heq] | [Hnone _]] & Hother);
    [| congruence].
  subst l1. assert (data = d) by congruence. subst data.
  rewrite Hget. unfold stateSet at 1. simpl.
  destruct (Z.eqb_spec (total d + delta) 0) as [Hz | Hz]; [lia |].
  unfold ret at 1.
  set (l2 := {| state := mapSet (state l) node
                           (withTotal d (total d + delta));
                cachedIndexNode := cachedIndexNode l;
                cachedIndex := cachedIndex l |}).
  assert (Hrec2 : mapGet (state l2) node
                  = Some (withTotal d (total d + delta))).
  { simpl. now rewrite mapGet_mapSet, sameNode_refl. }
  assert (Hshape2 : shape (state l2) = shape (state l)).
  { simpl. now apply (mapSet_shape_present _ _ _ d). }
  destruct p as [p |].
  - rewrite (IH p eq_refl l2 _ Hrec2); [exact Hshape2 | simpl; lia].
  - exact Hshape2.
Qed.

(** After a write that did not lower the number of present values,
    [onUpdate] leaves the ids and the sequences of the map as they are. *)
Lemma onUpdate_shape (node : OrderNode) (delta : Z) (l : ItemList T)
  (d : NodeData T) :
  mapGet (state l) node = Some d ->
  0 <= total d ->
  0 <= delta ->
  shape (state (snd (onUpdate order node delta l))) = shape (state l).
Proof.
  intros Hrec Htotal Hdelta.
  unfold onUpdate, bind, getCachedIndexNode.
  set (l3 := snd ((if sameNodeOpt (cachedIndexNode l) node then ret tt
                   else setCachedIndexNode None) l)).
  assert (H3 :
    (if sameNodeOpt (cachedIndexNode l) node then ret tt
     else setCachedIndexNode None) l = (Ok tt, l3)
    /\ state l3 = state l).
  { subst l3. destruct (sameNodeOpt (cachedIndexNode l) node);
      unfold ret, setCachedIndexNode; simpl; auto. }
  destruct H3 as (Hrun3 & Hs3). rewrite Hrun3.
  assert (H4 :
    exists l4,
      (if delta =? 0 then ret tt else updateTotals node delta node) l3
      = (Ok tt, l4)
      /\ shape (state l4) = shape (state l)).
  { destruct (Z.eqb_spec delta 0) as [Hz | Hz].
    - exists l3. unfold ret. now rewrite Hs3.
    - assert (Hpos : 0 < delta) by lia.
      destruct (updateTotals_runs node delta node l3) as (l4 & Hrun4 & _).
      exists l4. split; [exact Hrun4 |].
      pose proof (updateTotals_shape node delta node Hpos l3 d) as Hsh.
      rewrite Hrun4, Hs3 in Hsh. cbn [snd] in Hsh. now apply Hsh. }
  destruct H4 as (l4 & Hrun4 & Hshape4). rewrite Hrun4.
  unfold stateGet. cbv beta iota.
  destruct (mapGet (state l4) node) as [nd |].
  - now rewrite updateChildren_shape.
  - unfold ret. exact Hshape4.
Qed.

(** One round of the loop of [load], for a node without a record, adds the
    node with the loaded sequence at the end of the map. *)
Lemma load_round_shape (node : OrderNode) (vals : Sparse.SparseItems T)
  (l : ItemList T) :
  mapGet (state l) node = None ->
  shape
    (state
       (snd ((data <- getOrCreateData node ;;
              stateSet node (withValues data vals) ;;
              onUpdate order node
                (Sparse.size vals - Sparse.size (values data))) l)))
  = shape (state l) ++ [(id node, vals)].
Proof.
  intros Hnone. unfold bind.
  destruct (getOrCreateData_fresh node l Hnone)
    as (data & Hget & Hzero & Hnew).
  rewrite Hget. unfold stateSet. cbv beta iota. cbn [state].
  rewrite mapSet_twice.
  set (l2 := {| state := mapSet (state l) node (withValues data vals);
                cachedIndexNode := cachedIndexNode l;
                cachedIndex := cachedIndex l |}).
  rewrite (onUpdate_shape node _ l2 (withValues data vals)).
  - subst l2. cbn [state].
    now rewrite (mapSet_shape_absent _ _ _ Hnone).
  - subst l2. cbn [state]. now rewrite mapGet_mapSet, sameNode_refl.
  - cbn [withValues total]. lia.
  - rewrite Hnew, size_new. pose proof (size_nonneg vals). lia.
Qed.

(** The map after the loop of [load]: the records that were there, then
    one record for each entry of the saved state, in its order. *)
Lemma loadLoop_shape {S : Type} (loadArray : S -> Sparse.SparseItems T)
  (savedState : list (string * S)) :
  (forall i node, getNode order i = Some node -> id node = i) ->
  NoDup (map fst savedState) ->
  (forall k, In k (map fst savedState) -> knownID order k = true) ->
  forall l : ItemList T,
    (forall k, In k (map fst savedState) ->
               ~ In k (map fst (shape (state l)))) ->
    shape (state (snd (loadLoop order loadArray savedState l)))
    = shape (state l)
      ++ map (fun entry => (fst entry, loadArray (snd entry))) savedState.
Proof.
  intros Hlookup.
  induction savedState as [| [k s] rest IH]; intros Hnd Hknown l Hfresh.
  - cbn [loadLoop map]. unfold ret. cbn [snd]. now rewrite app_nil_r.
  - cbn [map fst] in Hnd. inversion Hnd as [| ? ? Hnot Hrest]; subst.
    cbn [loadLoop].
    pose proof (Hknown k (or_introl eq_refl)) as Hk. unfold knownID in Hk.
    destruct (getNode order k) as [node |] eqn:Hnode; [| discriminate].
    pose proof (Hlookup k node Hnode) as Hid.
    assert (Hnone : mapGet (state l) node = None).
    { apply mapGet_shape_absent. rewrite Hid. apply Hfresh. now left. }
    destruct (load_round order node (loadArray s) l Hnone)
      as (l' & Hrun & _).
    pose proof (load_round_shape node (loadArray s) l Hnone) as Hshape.
    rewrite Hrun in Hshape. cbn [snd] in Hshape.
    assert (Hloop :
      loadLoop order loadArray ((k, s) :: rest) l
      = loadLoop order loadArray rest l').
    { cbn [loadLoop]. rewrite Hnode.
      revert Hrun. unfold bind.
      destruct (getOrCreateData node l) as [[data | e] l1];
        [| discriminate].
      unfold stateSet. cbv beta iota.
      match goal with
      | |- ?c = _ -> _ => destruct c as [[[] | e] l2]
      end; [| discriminate].
      intros H. now injection H as ->. }
    cbn [loadLoop] in Hloop. rewrite Hnode in Hloop. rewrite Hloop.
    rewrite IH; try assumption.
    + rewrite Hshape, Hid. cbn [map fst snd]. now rewrite <- app_assoc.
    + intros k0 Hk0. now apply Hknown; right.
    + intros k0 Hk0. rewrite Hshape, map_app. cbn [map fst].
      intros Hin. apply in_app_or in Hin.
      destruct Hin as [Hin | [Heq | []]].
      * exact (Hfresh k0 (or_intror Hk0) Hin).
      * apply Hnot. now rewrite <- Hid, Heq.
Qed.

Lemma objSet_append {S : Type} (obj : list (string * S)) (key : string)
  (v : S) :
  ~ In key (map fst obj) -> objSet obj key v = obj ++ [(key, v)].
Proof.
  induction obj as [| [k0 v0] rest IH]; cbn [objSet map fst In app];
    intros Hnot; [reflexivity |].
  destruct (String.eqb_spec k0 key); [tauto |].
  rewrite IH by tauto. reflexivity.
Qed.

Lemma objSet_In {S : Type} (obj : list (string * S)) (key : string)
  (v : S) (entry : string * S) :
  In entry (objSet obj key v) -> entry = (key, v) \/ In entry obj.
Proof.
  induction obj as [| [k0 v0] rest IH]; cbn [objSet In].
  - intros [<- | []]. now left.
  - destruct (String.eqb_spec k0 key) as [-> | _]; cbn [In].
    + intros [<- | H]; [now left | right; now right].
    + intros [<- | H]; [right; now left |].
      destruct (IH H) as [-> | Hin]; [now left | right; now right].
Qed.

(** Every entry of a saved state holds the saved form of a sequence with a
    present value. *)
Lemma saveLoop_entries {S : Type} (f : Sparse.SparseItems T -> S)
  (records : list (OrderNode * NodeData T)) :
  forall (acc : list (string * S)) (entry : string * S),
    In entry (saveLoop f records acc) ->
    In entry acc
    \/ exists arr, snd entry = f arr /\ Sparse.isEmpty arr = false.
Proof.
  induction records as [| [node data] rest IH]; intros acc entry;
    cbn [saveLoop]; [now left |].
  intros Hin. destruct (IH _ _ Hin) as [Hacc | Hnew]; [| now right].
  destruct (Sparse.isEmpty (values data)) eqn:Hempty; cbn [negb] in Hacc;
    [now left |].
  destruct (objSet_In _ _ _ _ Hacc) as [-> | Hold]; [| now left].
  right. exists (values data). split; [reflexivity | exact Hempty].
Qed.

(** Saving a map whose records are the loaded entries gives the entries. *)
Lemma saveLoop_of_entries {S : Type} (f : Sparse.SparseItems T -> S)
  (loadArray : S -> Sparse.SparseItems T) (entries : list (string * S)) :
  forall (m : list (OrderNode * NodeData T)) (acc : list (string * S)),
    shape m = map (fun entry => (fst entry, loadArray (snd entry))) entries ->
    NoDup (map fst entries) ->
    (forall entry, In entry entries ->
                   f (loadArray (snd entry)) = snd entry
                   /\ Sparse.isEmpty (loadArray (snd entry)) = false) ->
    (forall entry, In entry entries -> ~ In (fst entry) (map fst acc)) ->
    saveLoop f m acc = acc ++ entries.
Proof.
  induction entries as [| [k s] rest IH]; intros m acc Hshape Hnd Hgood Hacc.
  - destruct m; [| discriminate]. cbn [saveLoop]. now rewrite app_nil_r.
  - destruct m as [| [node data] m']; [discriminate |].
    unfold shape in Hshape. cbn [map fst snd] in Hshape.
    injection Hshape as Hid Hvalues Hrest.
    cbn [map fst] in Hnd. inversion Hnd as [| ? ? Hnot Hnd']; subst.
    destruct (Hgood (id node, s) (or_introl eq_refl)) as [Hf Hempty].
    cbn [snd] in Hf, Hempty.
    cbn [saveLoop]. rewrite Hvalues, Hempty, Hf. cbn [negb].
    rewrite objSet_append
      by exact (Hacc (id node, s) (or_introl eq_refl)).
    rewrite (IH m' (acc ++ [(id node, s)]) Hrest Hnd').
    + now rewrite <- app_assoc.
    + intros entry Hin. apply Hgood. now right.
    + intros entry Hin. rewrite map_app. cbn [map fst].
      intros Hk. apply in_app_or in Hk.
      destruct Hk as [Hk | [Heq | []]].
      * exact (Hacc entry (or_intror Hin) Hk).
      * apply Hnot. rewrite Heq. now apply in_map.
Qed.

(** X27.  Saving again after loading: when [loadArray] inverts [saveArray]
    and the order looks every node of the list up under its id, the saved
    state of the list that [load(save())] builds is the saved state it was
    built from. *)
Theorem save_load_save {S : Type} (saveArray : Sparse.SparseItems T -> S)
  (loadArray : S -> Sparse.SparseItems T) (l l0 : ItemList T) :
  (forall arr, loadArray (saveArray arr) = arr) ->
  (forall i node, getNode order i = Some node -> id node = i) ->
  forallb (knownID order) (recordIDs l) = true ->
  save saveArray (snd (load order (save saveArray l) loadArray l0))
  = save saveArray l.
Proof.
  intros Hcodec Hlookup Hknown.
  unfold load, bind, clear. cbv beta iota.
  set (l1 := {| state := []; cachedIndexNode := None;
                cachedIndex := cachedIndex l0 |}).
  assert (Hnd : NoDup (map fst (save saveArray l)))
    by exact (saveLoop_NoDup saveArray (state l) [] (NoDup_nil _)).
  assert (Hkeys : forall k, In k (map fst (save saveArray l)) ->
                            knownID order k = true).
  { intros k Hk. apply save_keys in Hk.
    destruct Hk as (node & data & Hin & Hid & _).
    rewrite forallb_forall in Hknown. apply Hknown.
    unfold recordIDs. rewrite <- Hid.
    apply (in_map (fun r => id (fst r)) _ _ Hin). }
  pose proof (loadLoop_shape loadArray (save saveArray l) Hlookup Hnd Hkeys
                l1 (fun _ _ H => H)) as Hshape.
  cbn [state shape map app] in Hshape.
  destruct (loadLoop order loadArray (save saveArray l) l1) as [r l'].
  cbn [snd] in Hshape |- *.
  unfold save at 1.
  apply (saveLoop_of_entries saveArray loadArray (save saveArray l)
           (state l') [] Hshape Hnd).
  - intros entry Hin.
    destruct (saveLoop_entries saveArray (state l) [] entry Hin)
      as [[] | (arr & Harr & Hempty)].
    rewrite Harr, Hcodec. split; [reflexivity | exact Hempty].
  - intros entry _ [].
Qed.

End SaveAgainFacts.

(** ** [List.delete] of list.ts and [ItemList.delete] *)

Section DeleteFacts.

Context {T : Type}.

Variable order : Order.

Lemma isInteger_zero (count : Q) :
  ValueList.isInteger count = true ->
  Qeq_bool count 0 = (ValueList.toInteger count =? 0).
Proof.
  unfold ValueList.isInteger, ValueList.toInteger. intros Hint.
  apply Z.eqb_eq in Hint.
  pose proof (Z.div_mod (Qnum count) (Zpos (Qden count)) ltac:(lia)) as Hdm.
  rewrite Hint, Z.add_0_r in Hdm.
  destruct (Qeq_bool count 0) eqn:Hq.
  - apply Qeq_bool_iff in Hq. unfold Qeq in Hq. cbn in Hq.
    symmetry. apply Z.eqb_eq.
    assert (Qnum count = 0) by lia. nia.
  - symmetry. apply Z.eqb_neq. intros Hz.
    assert (Hq' : Qeq_bool count 0 = true).
    { apply Qeq_bool_iff. unfold Qeq. cbn. nia. }
    congruence.
Qed.

(** X22.  For a count that is a non-negative integer, [List.delete] of
    list.ts does to the list what [ItemList.delete] does, fails where it
    fails and with the same error, and returns nothing. *)
Theorem ValueList_delete_valid_count (pos : Position) (count : Q)
  (l : ItemList T) :
  Qle_bool 0 count = true ->
  ValueList.isInteger count = true ->
  snd (ValueList.delete order pos count l)
  = snd (delete order pos (ValueList.toInteger count) l)
  /\ fst (ValueList.delete order pos count l)
     = match fst (delete order pos (ValueList.toInteger count) l) with
       | Ok _ => Ok tt
       | Throw e => Throw e
       end.
Proof.
  intros Hle Hint.
  unfold ValueList.delete, delete, bind, lift.
  destruct (getNodeFor order pos) as [node | e]; [| split; reflexivity].
  rewrite (isInteger_zero count Hint), Hle, Hint. cbn [negb orb].
  destruct (ValueList.toInteger count =? 0); [split; reflexivity |].
  destruct (sameNode node (rootNode order)
            && (valueIndex pos + ValueList.toInteger count - 1 >? 1));
    [split; reflexivity |].
  unfold stateGet. cbv beta iota.
  destruct (mapGet (state l) node) as [data |]; [| split; reflexivity].
  destruct (Sparse.delete (values data) (valueIndex pos)
              (ValueList.toInteger count)) as [newArr existing].
  unfold stateSet. cbv beta iota.
  match goal with
  | |- context [onUpdate order node ?d ?l0] =>
      destruct (onUpdate_cache order node d l0) as (l2 & Hrun & _)
  end.
  rewrite Hrun. split; reflexivity.
Qed.

End DeleteFacts.

(** ** What [entries] yields *)

Section EntriesFacts.

Context {T : Type}.

Variable order : Order.

Hypothesis Hwf : wfOrder order.

Variable maxDepth : nat.

Hypothesis Hdepth : forall x, known order x -> (depth x <= maxDepth)%nat.

Variable l : ItemList T.

Hypothesis Hregular :
  forall node d, mapGet (state l) node = Some d -> regularRuns (values d).

Lemma presentFrom_In (slots : list (option T)) :
  forall (from slot : Z) (v : T),
    In (slot, v) (Sparse.presentFrom slots from) ->
    from <= slot
    /\ nth_error slots (Z.to_nat (slot - from)) = Some (Some v).
Proof.
  induction slots as [| [w |] rest IH]; intros from slot v;
    cbn [Sparse.presentFrom In].
  - intros [].
  - intros [Heq | Hin].
    + injection Heq as <- <-. rewrite Z.sub_diag. split; [lia | reflexivity].
    + destruct (IH _ _ _ Hin) as [Hle Hnth]. split; [lia |].
      replace (Z.to_nat (slot - from))
        with (S (Z.to_nat (slot - (from + 1)))) by lia.
      exact Hnth.
  - intros Hin. destruct (IH _ _ _ Hin) as [Hle Hnth]. split; [lia |].
    replace (Z.to_nat (slot - from))
      with (S (Z.to_nat (slot - (from + 1)))) by lia.
    exact Hnth.
Qed.

Lemma nextSlice_incl (slicer : Sparse.Slicer T) (endSlot : option Z) :
  incl (fst (Sparse.nextSlice slicer endSlot)) slicer
  /\ incl (snd (Sparse.nextSlice slicer endSlot)) slicer.
Proof.
  induction slicer as [| [slot v] rest IH]; cbn [Sparse.nextSlice].
  - split; apply incl_refl.
  - destruct (match endSlot with
              | Some e => slot <? e
              | None => true
              end).
    + destruct (Sparse.nextSlice rest endSlot) as [out rest'].
      cbn [fst snd] in IH |- *. destruct IH as [Hout Hrest]. split.
      * intros x [<- | Hx]; [now left | right; now apply Hout].
      * intros x Hx. right. now apply Hrest.
    + cbn [fst snd]. split; [intros x [] | apply incl_refl].
Qed.

Lemma emitSlice_In (node : OrderNode) (slice : list (Z * T))
  (start end_ : Z) :
  forall (index : Z) (pos : Position) (v : T),
    In (pos, v) (fst (fst (emitSlice node slice start end_ index))) ->
    exists slot,
      pos = {| nodeID := id node; valueIndex := slot |}
      /\ In (slot, v) slice.
Proof.
  induction slice as [| [slot w] rest IH]; intros index pos v;
    cbn [emitSlice].
  - intros [].
  - assert (Hhead :
      In (pos, v)
        (if index >=? start
         then [({| nodeID := id node; valueIndex := slot |}, w)]
         else []) ->
      exists slot0,
        pos = {| nodeID := id node; valueIndex := slot0 |}
        /\ In (slot0, v) ((slot, w) :: rest)).
    { destruct (index >=? start); [| intros []].
      intros [Heq | []]. injection Heq as <- <-.
      exists slot. split; [reflexivity | now left]. }
    destruct (index + 1 >=? end_); cbn [fst]; [exact Hhead |].
    specialize (IH (index + 1) pos v).
    destruct (emitSlice node rest start end_ (index + 1))
      as [[out' index2] returned].
    cbn [fst] in IH |- *. intros Hin. apply in_app_or in Hin.
    destruct Hin as [Hin | Hin]; [now apply Hhead |].
    destruct (IH Hin) as (slot0 & Hpos & Hslot).
    exists slot0. split; [exact Hpos | now right].
Qed.

(** A slot that the slicer of a record hands out reads back through [get]
    and [has]. *)
Lemma slicer_reads (node : OrderNode) (d : NodeData T) (slot : Z) (v : T) :
  known order node ->
  mapGet (state l) node = Some d ->
  In (slot, v) (Sparse.newSlicer (values d)) ->
  fst (get order {| nodeID := id node; valueIndex := slot |} l)
  = Ok (Some v)
  /\ fst (has order {| nodeID := id node; valueIndex := slot |} l)
     = Ok true.
Proof.
  intros Hknown Hrec Hin.
  destruct (presentFrom_In _ _ _ _ Hin) as [Hle Hnth].
  rewrite Z.sub_0_r in Hnth.
  pose proof (@getInfo_slots T (values d) (Hregular node d Hrec) slot Hle)
    as Hinfo.
  rewrite Hnth in Hinfo.
  unfold get, has, getInNode, bind, lift, stateGet, getNodeFor.
  cbn [nodeID valueIndex]. unfold known in Hknown. rewrite Hknown.
  cbv beta iota. rewrite Hrec. unfold ret. cbn [fst snd].
  rewrite Hinfo. split; reflexivity.
Qed.

(** Every pair the loop of [entries] yields reads back. *)
Lemma entriesLoop_sound :
  forall (fuel : nat) (stack : list (@Frame T)) (start end_ index : Z)
         (out : list (Position * T)),
    Forall (frameOf order l) stack ->
    entriesLoop order fuel l stack start end_ index = Some out ->
    forall pos v,
      In (pos, v) out ->
      fst (get order pos l) = Ok (Some v)
      /\ fst (has order pos l) = Ok true.
Proof.
  induction fuel as [| fuel IH]; intros stack start end_ index out Hstack;
    cbn [entriesLoop]; [discriminate |].
  destruct stack as [| top below].
  { intros Hout. injection Hout as <-. intros pos v []. }
  inversion Hstack as [| ? ? Htop Hbelow]; subst.
  destruct Htop as (Hknown & Hrec & Hslicer).
  set (children := getChildren order (frameNode top)).
  set (endValueIndex :=
         option_map nextValueIndex (nth_error children (nextChildIndex top))).
  pose proof (nextSlice_incl (valuesSlicer top) endValueIndex)
    as [Hslice Hrest].
  destruct (Sparse.nextSlice (valuesSlicer top) endValueIndex)
    as [slice slicer'].
  cbn [fst snd] in Hslice, Hrest.
  pose proof (emitSlice_In (frameNode top) slice start end_ index) as Hemit.
  destruct (emitSlice (frameNode top) slice start end_ index)
    as [[out0 index1] returned].
  cbn [fst] in Hemit.
  assert (Hout0 :
    forall pos v, In (pos, v) out0 ->
                  fst (get order pos l) = Ok (Some v)
                  /\ fst (has order pos l) = Ok true).
  { intros pos v Hin. destruct (Hemit pos v Hin) as (slot & -> & Hslot).
    apply (slicer_reads (frameNode top) (frameData top) slot v Hknown Hrec).
    apply Hslicer, Hslice, Hslot. }
  destruct returned.
  { intros Hout. injection Hout as <-. exact Hout0. }
  set (top' := {| frameNode := frameNode top;
                  frameData := frameData top;
                  nextChildIndex := S (nextChildIndex top);
                  valuesSlicer := slicer' |}).
  assert (Htop' : frameOf order l top').
  { split; [exact Hknown |]. split; [exact Hrec |].
    intros x Hx. apply Hslicer, Hrest, Hx. }
  assert (Hcont :
    forall stack' index',
      Forall (frameOf order l) stack' ->
      option_map (app out0)
        (entriesLoop order fuel l stack' start end_ index') = Some out ->
      forall pos v,
        In (pos, v) out ->
        fst (get order pos l) = Ok (Some v)
        /\ fst (has order pos l) = Ok true).
  { intros stack' index' Hstack' Hrun pos v Hin.
    destruct (entriesLoop order fuel l stack' start end_ index')
      as [out' |] eqn:Hloop; [| discriminate].
    cbn [option_map] in Hrun. injection Hrun as <-.
    apply in_app_or in Hin. destruct Hin as [Hin | Hin];
      [now apply Hout0 |].
    exact (IH stack' start end_ index' out' Hstack' Hloop pos v Hin). }
  destruct (nth_error children (nextChildIndex top)) as [child |] eqn:Hnth.
  - destruct (mapGet (state l) child) as [childData |] eqn:Hchild.
    + destruct (index1 + total childData <=? start).
      * apply Hcont. now constructor.
      * apply Hcont. constructor; [| now constructor].
        split; [| split; [exact Hchild | apply incl_refl]].
        apply nth_error_In in Hnth.
        exact (proj1 (wf_children Hwf Hknown Hnth)).
    + apply Hcont. now constructor.
  - apply Hcont. exact Hbelow.
Qed.

(** A node at the greatest depth has no children. *)
Lemma deepest_without_children (x : OrderNode) :
  known order x ->
  (maxDepth - depth x = 0)%nat ->
  getChildren order x = [].
Proof.
  intros Hknown Hdeep.
  destruct (getChildren order x) as [| child rest] eqn:Hchildren;
    [reflexivity |].
  assert (Hin : In child (getChildren order x))
    by (rewrite Hchildren; now left).
  destruct (wf_children Hwf Hknown Hin) as [Hk Hp].
  pose proof (Hdepth child Hk) as Hd. pose proof (Hdepth x Hknown).
  rewrite (depth_unfold child), Hp in Hd. lia.
Qed.

(** The rounds of a new frame are those of the subtree of its node. *)
Lemma frameRounds_new (child : OrderNode) (cd : NodeData T)
  (slicer : Sparse.Slicer T) :
  known order child ->
  frameRounds order maxDepth
    {| frameNode := child; frameData := cd; nextChildIndex := 0;
       valuesSlicer := slicer |}
  = subtreeRounds order (maxDepth - depth child) child.
Proof.
  intros Hknown. unfold frameRounds. cbn [frameNode nextChildIndex skipn].
  destruct (maxDepth - depth child)%nat as [| h] eqn:Hh.
  - rewrite (deepest_without_children child Hknown Hh). reflexivity.
  - reflexivity.
Qed.

(** With fuel for the rounds of its stack the loop of [entries] ends. *)
Lemma entriesLoop_returns :
  forall (fuel : nat) (stack : list (@Frame T)) (start end_ index : Z),
    Forall (fun f => known order (frameNode f)) stack ->
    (stackRounds order maxDepth stack < fuel)%nat ->
    exists out, entriesLoop order fuel l stack start end_ index = Some out.
Proof.
  induction fuel as [| fuel IH]; intros stack start end_ index Hstack Hfuel;
    [lia |].
  cbn [entriesLoop].
  destruct stack as [| top below]; [eexists; reflexivity |].
  inversion Hstack as [| ? ? Hknown Hbelow]; subst.
  set (children := getChildren order (frameNode top)) in *.
  destruct (Sparse.nextSlice (valuesSlicer top)
              (option_map nextValueIndex
                 (nth_error children (nextChildIndex top))))
    as [slice slicer'].
  destruct (emitSlice (frameNode top) slice start end_ index)
    as [[out0 index1] returned].
  destruct returned; [eexists; reflexivity |].
  assert (Hcont :
    forall stack' index',
      Forall (fun f => known order (frameNode f)) stack' ->
      (stackRounds order maxDepth stack' < fuel)%nat ->
      exists out,
        option_map (app out0)
          (entriesLoop order fuel l stack' start end_ index') = Some out).
  { intros stack' index' Hs Hf.
    destruct (IH stack' start end_ index' Hs Hf) as [out' Hout'].
    rewrite Hout'. eexists. reflexivity. }
  cbn [stackRounds fold_right] in Hfuel.
  fold (stackRounds order maxDepth below) in Hfuel.
  destruct (nth_error children (nextChildIndex top)) as [child |] eqn:Hnth.
  - set (top' := {| frameNode := frameNode top;
                    frameData := frameData top;
                    nextChildIndex := S (nextChildIndex top);
                    valuesSlicer := slicer' |}).
    assert (Hskip :
      skipn (nextChildIndex top) children
      = child :: skipn (S (nextChildIndex top)) children).
    { clear - Hnth. revert Hnth. generalize (nextChildIndex top) as n.
      induction children as [| c cs IHc]; intros [| n]; cbn;
        try discriminate.
      - intros H. now injection H as ->.
      - apply IHc. }
    assert (Hchild : known order child /\ parent child = Some (frameNode top)).
    { apply (wf_children Hwf Hknown). fold children.
      eapply nth_error_In. exact Hnth. }
    destruct Hchild as [Hkc Hpc].
    assert (Hlevel :
      pred (maxDepth - depth (frameNode top)) = (maxDepth - depth child)%nat).
    { rewrite (depth_unfold child), Hpc. lia. }
    assert (Hstep :
      frameRounds order maxDepth top
      = (frameRounds order maxDepth top'
         + S (subtreeRounds order (maxDepth - depth child) child))%nat).
    { unfold frameRounds. cbn [frameNode nextChildIndex top'].
      fold children. rewrite Hskip. cbn [fold_right]. rewrite Hlevel. lia. }
    assert (Hstack' : Forall (fun f => known order (frameNode f))
                        (top' :: below)) by now constructor.
    assert (Hrounds : (stackRounds order maxDepth (top' :: below) < fuel)%nat).
    { cbn [stackRounds fold_right].
      fold (stackRounds order maxDepth below). lia. }
    destruct (mapGet (state l) child) as [childData |].
    + destruct (index1 + total childData <=? start).
      * now apply Hcont.
      * apply Hcont; [now constructor |].
        cbn [stackRounds fold_right].
        fold (stackRounds order maxDepth below).
        rewrite (frameRounds_new child childData _ Hkc). lia.
    + now apply Hcont.
  - apply Hcont; [exact Hbelow |].
    unfold frameRounds in Hfuel. lia.
Qed.

(** X23.  Over a well-formed order tree of bounded depth and a list whose
    sequences have no run of negative length, [entries] ends within the
    rounds of the tree, for every range, and every pair it yields is a
    present value of the list: [get] returns the value at the position and
    [has] is true there. *)
Theorem entries_yields_present (start end_ : option Z) :
  exists out,
    entries order
      (S (subtreeRounds order (maxDepth - depth (rootNode order))
            (rootNode order)))
      l start end_ = Some out
    /\ forall pos v,
         In (pos, v) out ->
         fst (get order pos l) = Ok (Some v)
         /\ fst (has order pos l) = Ok true.
Proof.
  unfold entries.
  destruct (mapGet (state l) (rootNode order)) as [rootData |] eqn:Hroot.
  - destruct (normalizeSliceRange (total rootData) start end_)
      as [[s e] |].
    + set (frame := {| frameNode := rootNode order;
                       frameData := rootData;
                       nextChildIndex := 0;
                       valuesSlicer := Sparse.newSlicer (values rootData) |}).
      destruct (entriesLoop_returns
                  (S (subtreeRounds order
                        (maxDepth - depth (rootNode order)) (rootNode order)))
                  [frame] s e 0) as [out Hout].
      * constructor; [exact (wf_root Hwf) | constructor].
      * cbn [stackRounds fold_right]. subst frame.
        rewrite (frameRounds_new (rootNode order) rootData
                   (Sparse.newSlicer (values rootData)) (wf_root Hwf)).
        lia.
      * exists out. split; [exact Hout |].
        apply (entriesLoop_sound
                 (S (subtreeRounds order
                       (maxDepth - depth (rootNode order)) (rootNode order)))
                 [frame] s e 0 out); [| exact Hout].
        constructor; [| constructor].
        split; [exact (wf_root Hwf) |].
        split; [exact Hroot | apply incl_refl].
    + exists []. split; [reflexivity | intros pos v []].
  - destruct (normalizeSliceRange 0 start end_) as [[s e] |] eqn:Hrange.
    + apply normalizeSliceRange_bounds in Hrange; lia.
    + exists []. split; [reflexivity | intros pos v []].
Qed.

End EntriesFacts.

(** ** The range of [entries] *)

(** X24.  [normalizeSliceRange] on a list of length [len]: a range it
    returns is not empty and lies within [[0, len]]; bounds that already
    describe such a range come back unchanged; a negative bound from
    [-len] on stands for the bound plus [len]; a missing end stands for
    [len] and a missing start for 0. *)
Theorem normalizeSliceRange_range (len : Z) (start end_ : option Z) :
  0 <= len ->
  match normalizeSliceRange len start end_ with
  | Some (s, e) => 0 <= s < e /\ e <= len
  | None => True
  end
  /\ (forall s e,
        0 <= s < e -> e <= len ->
        normalizeSliceRange len (Some s) (Some e) = Some (s, e))
  /\ (forall s,
        - len <= s < 0 ->
        normalizeSliceRange len (Some s) end_
        = normalizeSliceRange len (Some (s + len)) end_)
  /\ (forall e,
        - len <= e < 0 ->
        normalizeSliceRange len start (Some e)
        = normalizeSliceRange len start (Some (e + len)))
  /\ normalizeSliceRange len start None
     = normalizeSliceRange len start (Some len)
  /\ normalizeSliceRange len None end_
     = normalizeSliceRange len (Some 0) end_.
Proof.
  intros Hlen.
  repeat split; try intros s e Hs He; try intros s Hs;
    unfold normalizeSliceRange;
    try destruct start as [s0 |]; try destruct end_ as [e0 |];
    repeat match goal with
           | |- context [?a <? ?b] => destruct (Z.ltb_spec a b)
           | |- context [?a >=? ?b] =>
               let H := fresh in
               destruct (a >=? b) eqn:H;
               [apply Z.geb_le in H
               | rewrite Z.geb_leb in H; apply Z.leb_gt in H]
           | |- context [?a <=? ?b] => destruct (Z.leb_spec a b)
           end;
    try reflexivity; try lia; try exact I;
    repeat match goal with
           | |- Some _ = Some _ => f_equal
           | |- (_, _) = (_, _) => f_equal
           end; try lia.
Qed.

(** * The earlier [List] class: reading other nodes *)

(** ** Other nodes under [set] and [delete] *)

Section PlainFrameFacts.

Context {T : Type}.

Variable order : Order.

Hypothesis Hwf : wfOrder order.

Lemma plain_get_has_readAt (pos : Position) (node : OrderNode)
  (l : PlainList.Fields T) :
  getNodeFor order pos = Ok node ->
  fst (PlainList.get order pos l)
  = Ok (fst (readAt (PlainList.mapGet (PlainList.state l) node)
               (valueIndex pos)))
  /\ fst (PlainList.has order pos l)
     = Ok (snd (readAt (PlainList.mapGet (PlainList.state l) node)
                  (valueIndex pos))).
Proof.
  intros Hnode.
  unfold PlainList.get, PlainList.has, PlainList.getInNode, PlainList.bind,
    PlainList.lift, PlainList.stateGet, readAt.
  rewrite Hnode. cbv beta iota.
  destruct (PlainList.mapGet (PlainList.state l) node);
    unfold PlainList.ret; cbn [fst snd]; split; reflexivity.
Qed.

(** In a list with consistent totals, the total of an ancestor covers its
    own present values and the total of the node below it. *)
Lemma ancestor_total (l : PlainList.Fields T) :
  consistent order l ->
  forall y,
    known order y ->
    forall a,
      In a (pathToRoot y) ->
      totalAt l y <= totalAt l a
      /\ (sameNode y a = false -> sizeAt l a + totalAt l y <= totalAt l a).
Proof.
  intros [Hsum Hnonneg _].
  induction y as [i v p IH] using OrderNode_parent_ind.
  intros Hknown a Ha.
  rewrite pathToRoot_unfold in Ha. cbn [parent] in Ha.
  destruct Ha as [<- | Ha].
  { split; [lia |]. rewrite sameNode_refl. discriminate. }
  destruct p as [p |]; [| destruct Ha].
  set (y := {| id := i; nextValueIndex := v; parent := Some p |}) in *.
  destruct (wf_parent Hwf Hknown eq_refl) as [Hkp Hchild].
  assert (Hstep : sizeAt l p + totalAt l y <= totalAt l p).
  { rewrite (Hsum p Hkp).
    pose proof (sumZ_member (totalAt l) (getChildren order p) y) as Hm.
    assert (totalAt l y <= sumZ (totalAt l) (getChildren order p)).
    { apply Hm; [| exact Hchild].
      intros c Hc. apply Hnonneg.
      exact (proj1 (wf_children Hwf Hkp Hc)). }
    lia. }
  pose proof (sizeAt_nonneg l p) as Hsize.
  destruct (IH p eq_refl Hkp a Ha) as [Hle Hstrict].
  split; [lia |].
  intros _.
  destruct (sameNode p a) eqn:Hpa.
  - assert (a = p).
    { symmetry. apply (known_sameNode order p a Hkp); [| exact Hpa].
      exact (known_on_path order Hwf p Hkp a Ha). }
    subst a. exact Hstep.
  - specialize (Hstrict eq_refl). pose proof (sizeAt_nonneg l a). lia.
Qed.

(** The maintenance step after a write at [node] leaves every other node
    reading as before, from slot 0 on. *)
Lemma plain_onUpdate_frame (node : OrderNode)
  (newArr : Sparse.SparseItems T) (delta : Z) (l l1 : PlainList.Fields T)
  (x : OrderNode) (index : Z) :
  known order node ->
  known order x ->
  consistent order l ->
  0 <= totalAt l node + delta ->
  (forall y,
      PlainList.mapGet (PlainList.state l1) y
      = if sameNode node y
        then Some (PlainList.withValues (dataAt l node) newArr)
        else PlainList.mapGet (PlainList.state l) y) ->
  sameNode node x = false ->
  0 <= index ->
  readAt (PlainList.mapGet
            (PlainList.state (snd (PlainList.onUpdate node delta l1))) x)
    index
  = readAt (PlainList.mapGet (PlainList.state l) x) index.
Proof.
  intros Hknown Hkx Hcons Hbound Hl1 Hdiff Hindex.
  pose proof (Hl1 x) as Hx1. rewrite Hdiff in Hx1.
  destruct (Z.eq_dec delta 0) as [Hz | Hdelta].
  { assert (Hstate :
      PlainList.state (snd (PlainList.onUpdate node delta l1))
      = PlainList.state l1).
    { unfold PlainList.onUpdate, PlainList.bind,
        PlainList.getCachedIndexNode.
      rewrite Hz.
      destruct (sameNodeOpt (PlainList.cachedIndexNode l1) node);
        reflexivity. }
    now rewrite Hstate, Hx1. }
  destruct (plain_onUpdate_records node delta l1
              (NoDup_path order Hwf node Hknown) Hdelta) as [_ Hs].
  rewrite Hs.
  destruct (onPath node x) eqn:Hpath; [| now rewrite Hx1].
  assert (Hd1 : dataAt l1 x = dataAt l x).
  { unfold dataAt. now rewrite Hx1. }
  rewrite Hd1.
  assert (Hin : In x (pathToRoot node))
    by now apply (onPath_In order Hwf node x Hknown Hkx).
  destruct (ancestor_total l Hcons node Hknown x Hin) as [_ Hanc].
  specialize (Hanc Hdiff).
  assert (Htotal : PlainList.total (dataAt l x) = totalAt l x).
  { unfold dataAt, totalAt.
    now destruct (PlainList.mapGet (PlainList.state l) x). }
  destruct (Z.eqb_spec (PlainList.total (dataAt l x) + delta) 0)
    as [Hzero | _].
  - unfold readAt at 1.
    destruct (PlainList.mapGet (PlainList.state l) x) as [d |] eqn:Hd;
      [| reflexivity].
    assert (Hsize : sizeAt l x = Sparse.size (PlainList.values d)).
    { unfold sizeAt. now rewrite Hd. }
    pose proof (size_nonneg (PlainList.values d)).
    unfold readAt. symmetry. apply getInfo_isEmpty; [| exact Hindex].
    unfold Sparse.isEmpty. apply Z.eqb_eq. lia.
  - unfold readAt at 1. cbn [PlainList.values].
    unfold dataAt, readAt.
    destruct (PlainList.mapGet (PlainList.state l) x) as [d |];
      [reflexivity |].
    cbn [PlainList.values]. now rewrite getInfo_new.
Qed.

(** X25.  In the earlier class, on a list with consistent totals over a
    well-formed order tree, [set] on one node does not change what [get]
    and [has] answer at a position, from slot 0 on, of another node. *)
Theorem plain_set_keeps_other_nodes (pos pos' : Position) (vals : list T)
  (l : PlainList.Fields T) (node node' : OrderNode) :
  consistent order l ->
  getNodeFor order pos = Ok node ->
  getNodeFor order pos' = Ok node' ->
  sameNode node node' = false ->
  0 <= valueIndex pos' ->
  fst (PlainList.get order pos' (snd (PlainList.set order pos vals l)))
  = fst (PlainList.get order pos' l)
  /\ fst (PlainList.has order pos' (snd (PlainList.set order pos vals l)))
     = fst (PlainList.has order pos' l).
Proof.
  intros Hcons Hnode Hnode' Hdiff Hindex.
  assert (Hknown : known order node)
    by exact (known_of_lookup order Hwf pos node Hnode).
  assert (Hknown' : known order node')
    by exact (known_of_lookup order Hwf pos' node' Hnode').
  destruct (plain_get_has_readAt pos' node'
              (snd (PlainList.set order pos vals l)) Hnode') as [Hg Hh].
  destruct (plain_get_has_readAt pos' node' l Hnode') as [Hg0 Hh0].
  rewrite Hg, Hh, Hg0, Hh0.
  assert (Hread :
    readAt (PlainList.mapGet
              (PlainList.state (snd (PlainList.set order pos vals l))) node')
      (valueIndex pos')
    = readAt (PlainList.mapGet (PlainList.state l) node') (valueIndex pos')).
  { destruct vals as [| v0 vals].
    { unfold PlainList.set, PlainList.bind, PlainList.lift.
      rewrite Hnode. reflexivity. }
    destruct (sameNode node (rootNode order)
              && (valueIndex pos + Z.of_nat (List.length (v0 :: vals)) - 1
                  >? 1)) eqn:Hrange.
    { unfold PlainList.set, PlainList.bind, PlainList.lift.
      rewrite Hnode.
      destruct (Z.eqb_spec (Z.of_nat (List.length (v0 :: vals))) 0);
        [reflexivity |].
      rewrite Hrange. reflexivity. }
    destruct (plain_set_steps order pos (v0 :: vals) l node Hnode
                ltac:(discriminate) Hrange) as (l1 & Hrun & Hl1).
    rewrite Hrun.
    apply (plain_onUpdate_frame node
             (fst (Sparse.set (PlainList.values (dataAt l node))
                     (valueIndex pos) (v0 :: vals))));
      try assumption.
    pose proof (Sparse_set_size (PlainList.values (dataAt l node))
                  (valueIndex pos) (v0 :: vals)) as (_ & Hb & Hle).
    destruct Hcons as [_ Hnonneg _].
    pose proof (Hnonneg node Hknown). lia. }
  rewrite Hread. split; reflexivity.
Qed.

(** X26.  The same for [delete] of the earlier class. *)
Theorem plain_delete_keeps_other_nodes (pos pos' : Position) (count : Q)
  (l : PlainList.Fields T) (node node' : OrderNode) :
  consistent order l ->
  getNodeFor order pos = Ok node ->
  getNodeFor order pos' = Ok node' ->
  sameNode node node' = false ->
  0 <= valueIndex pos' ->
  fst (PlainList.get order pos' (snd (PlainList.delete order pos count l)))
  = fst (PlainList.get order pos' l)
  /\ fst (PlainList.has order pos'
            (snd (PlainList.delete order pos count l)))
     = fst (PlainList.has order pos' l).
Proof.
  intros Hcons Hnode Hnode' Hdiff Hindex.
  assert (Hknown : known order node)
    by exact (known_of_lookup order Hwf pos node Hnode).
  assert (Hknown' : known order node')
    by exact (known_of_lookup order Hwf pos' node' Hnode').
  destruct (plain_get_has_readAt pos' node'
              (snd (PlainList.delete order pos count l)) Hnode') as [Hg Hh].
  destruct (plain_get_has_readAt pos' node' l Hnode') as [Hg0 Hh0].
  rewrite Hg, Hh, Hg0, Hh0.
  assert (Hread :
    readAt (PlainList.mapGet
              (PlainList.state (snd (PlainList.delete order pos count l)))
              node')
      (valueIndex pos')
    = readAt (PlainList.mapGet (PlainList.state l) node') (valueIndex pos')).
  { destruct (PlainList.delete order pos count l) as [[[] | e] l2] eqn:Hrun.
    2: { (* a throw comes before any write *)
      revert Hrun. unfold PlainList.delete, PlainList.bind, PlainList.lift.
      rewrite Hnode.
      destruct (Qeq_bool count 0); [discriminate |].
      destruct (negb (Qle_bool 0 count)
                || negb (ValueList.isInteger count));
        [unfold PlainList.throw; intros H; now inversion H |].
      destruct (sameNode node (rootNode order)
                && (valueIndex pos + ValueList.toInteger count - 1 >? 1));
        [unfold PlainList.throw; intros H; now inversion H |].
      unfold PlainList.stateGet. cbv beta iota.
      destruct (PlainList.mapGet (PlainList.state l) node) as [data |];
        [| discriminate].
      destruct (Sparse.delete (PlainList.values data) (valueIndex pos)
                  (ValueList.toInteger count)) as [newArr existing].
      unfold PlainList.stateSet. cbv beta iota.
      match goal with
      | |- PlainList.onUpdate ?n ?d ?l0 = _ -> _ =>
          pose proof (plain_onUpdate_runs order Hwf n d l0 Hknown) as Hok
      end.
      intros Hq. rewrite Hq in Hok. discriminate Hok. }
    cbn [snd].
    destruct (Qeq_bool count 0) eqn:Hzero.
    { revert Hrun. unfold PlainList.delete, PlainList.bind, PlainList.lift.
      rewrite Hnode, Hzero. unfold PlainList.ret.
      intros H. now inversion H. }
    destruct (PlainList.mapGet (PlainList.state l) node) as [data |]
      eqn:Hdata.
    - assert (Hok : fst (PlainList.delete order pos count l) = Ok tt)
        by now rewrite Hrun.
      destruct (plain_delete_steps order pos count l node data Hnode Hok
                  Hzero Hdata) as (l1 & Hsteps & Hl1).
      replace l2 with (snd (PlainList.delete order pos count l))
        by now rewrite Hrun.
      rewrite Hsteps.
      assert (Hd : dataAt l node = data)
        by (unfold dataAt; now rewrite Hdata).
      apply (plain_onUpdate_frame node
               (fst (Sparse.delete (PlainList.values data) (valueIndex pos)
                       (ValueList.toInteger count))));
        try assumption.
      + pose proof (Sparse_delete_size (PlainList.values data)
                      (valueIndex pos) (ValueList.toInteger count))
          as (_ & Hb).
        destruct Hcons as [Hsum Hnonneg _].
        pose proof (Hsum node Hknown) as Heq.
        assert (0 <= sumZ (totalAt l) (getChildren order node)).
        { apply sumZ_nonneg. intros c Hc. apply Hnonneg.
          exact (proj1 (wf_children Hwf Hknown Hc)). }
        assert (Hsz : sizeAt l node = Sparse.size (PlainList.values data)).
        { unfold sizeAt. now rewrite Hdata. }
        lia.
      + now rewrite Hd.
    - revert Hrun. unfold PlainList.delete, PlainList.bind, PlainList.lift.
      rewrite Hnode, Hzero.
      destruct (negb (Qle_bool 0 count)
                || negb (ValueList.isInteger count)); [discriminate |].
      destruct (sameNode node (rootNode order)
                && (valueIndex pos + ValueList.toInteger count - 1 >? 1));
        [discriminate |].
      unfold PlainList.stateGet. cbv beta iota. rewrite Hdata.
      unfold PlainList.ret. intros H. now inversion H. }
  rewrite Hread. split; reflexivity.
Qed.

End PlainFrameFacts.

(** * The cache of [indexOfPosition] on the lists the interface builds *)

(** ** The tree *)

Section CacheTreeFacts.

Variable order : Order.

Hypothesis Hwf : wfOrder order.

Lemma root_parent : parent (rootNode order) = None.
Proof.
  destruct (parent (rootNode order)) as [p |] eqn:Hp; [| reflexivity].
  pose proof (wf_root Hwf) as Hroot.
  destruct (wf_parent Hwf Hroot Hp) as [Hkp _].
  pose proof (not_onPath_parent order Hwf (rootNode order) p Hroot Hp) as Hno.
  pose proof (onPath_rootNode order Hwf p Hkp) as Hyes.
  congruence.
Qed.

Lemma topOf_root (x : OrderNode) :
  known order x -> topOf x = rootNode order.
Proof.
  induction x as [i v p IH] using OrderNode_parent_ind.
  intros Hknown. destruct p as [p |]; cbn [topOf parent].
  - apply (IH p eq_refl). exact (proj1 (wf_parent Hwf Hknown eq_refl)).
  - exact (wf_top Hwf Hknown eq_refl).
Qed.

Lemma depth_child (p c : OrderNode) :
  known order p -> In c (getChildren order p) -> depth c = S (depth p).
Proof.
  intros Hkp Hin. destruct (wf_children Hwf Hkp Hin) as [_ Hparent].
  now rewrite (depth_unfold c), Hparent.
Qed.

Lemma onPath_depth (node x : OrderNode) :
  known order node -> known order x ->
  onPath node x = true -> (depth x <= depth node)%nat.
Proof.
  intros Hn Hx Hpath. apply depth_on_path.
  now apply (onPath_In order Hwf node x Hn Hx).
Qed.

(** A known node with the id of a child of [p] is that child. *)
Lemma known_child (p c x : OrderNode) :
  known order p -> In c (getChildren order p) -> known order x ->
  sameNode c x = true -> x = c /\ parent x = Some p.
Proof.
  intros Hkp Hin Hkx Hsame.
  destruct (wf_children Hwf Hkp Hin) as [Hkc Hparent].
  assert (c = x) by exact (known_sameNode order c x Hkc Hkx Hsame).
  subst x. auto.
Qed.

End CacheTreeFacts.

(** ** The rounds of the totals loop *)

Section CacheMaintenanceFacts.

Context {T : Type}.

Variable order : Order.

Hypothesis Hwf : wfOrder order.

(** The totals loop of [onUpdate] when the total of [node] cannot reach 0
    before the last round: the record of [node] gets the delta once for
    each node from [current] up, and in the last round it is the record of
    the topmost ancestor that is deleted, if the total is 0 then. *)
Lemma updateTotals_rounds (node : OrderNode) (delta : Z)
  (current : OrderNode) :
  forall (l : ItemList T) (d : NodeData T),
    mapGet (state l) node = Some d ->
    (forall j, 1 <= j < Z.of_nat (S (depth current)) ->
               total d + j * delta <> 0) ->
    forall x,
      mapGet (state (snd (updateTotals node delta current l))) x
      = if (total d + Z.of_nat (S (depth current)) * delta =? 0)
           && sameNode (topOf current) x
        then None
        else if sameNode node x
             then Some (withTotal d
                          (total d + Z.of_nat (S (depth current)) * delta))
             else mapGet (state l) x.
Proof.
  induction current as [i v p IH] using OrderNode_parent_ind.
  intros l d Hrec Hrounds x. cbn [updateTotals]. unfold bind.
  destruct (getOrCreateData_record node l)
    as (data & l1 & Hget & Hrec1 & [[Hold Heq] | [Hnone _]] & Hother);
    [| congruence].
  subst l1. assert (data = d) by congruence. subst data.
  rewrite Hget. unfold stateSet at 1. cbv beta iota.
  cbn [withTotal total].
  set (l2 := {| state := mapSet (state l) node
                           (withTotal d (total d + delta));
                cachedIndexNode := cachedIndexNode l;
                cachedIndex := cachedIndex l |}).
  destruct p as [p |]; rewrite depth_unfold in Hrounds |- *;
    cbn [parent topOf] in Hrounds |- *.
  - assert (Hfirst : total d + delta <> 0).
    { specialize (Hrounds 1). rewrite Z.mul_1_l in Hrounds.
      apply Hrounds. lia. }
    destruct (Z.eqb_spec (total d + delta) 0) as [Hz | _]; [contradiction |].
    unfold ret at 1. cbv beta iota.
    rewrite (IH p eq_refl l2 (withTotal d (total d + delta))).
    + cbn [withTotal total parentValuesBefore values].
      replace (total d + delta + Z.of_nat (S (depth p)) * delta)
        with (total d + Z.of_nat (S (S (depth p))) * delta) by lia.
      destruct ((total d + Z.of_nat (S (S (depth p))) * delta =? 0)
                && sameNode (topOf p) x); [reflexivity |].
      destruct (sameNode node x) eqn:Hx; [reflexivity |].
      subst l2. cbn [state]. now rewrite mapGet_mapSet, Hx.
    + subst l2. cbn [state]. now rewrite mapGet_mapSet, sameNode_refl.
    + intros j Hj. cbn [withTotal total].
      replace (total d + delta + j * delta)
        with (total d + (j + 1) * delta) by lia.
      apply Hrounds. lia.
  - replace (total d + Z.of_nat 1 * delta) with (total d + delta) by lia.
    destruct (Z.eqb_spec (total d + delta) 0) as [Hz | Hz]; cbn [andb].
    + unfold stateDelete. cbv beta iota. unfold ret. cbn [snd state].
      rewrite mapGet_mapDelete.
      destruct (sameNode {| id := i; nextValueIndex := v; parent := None |}
                  x); [reflexivity |].
      subst l2. cbn [state]. now rewrite mapGet_mapSet.
    + unfold ret. cbn [snd]. subst l2. cbn [state].
      now rewrite mapGet_mapSet.
Qed.

(** The offsets loop of [onUpdate] touches the children it is given and
    nothing else. *)
Lemma updateChildren_other (nodeData : NodeData T)
  (children : list OrderNode) (x : OrderNode) :
  (forall c, In c children -> sameNode c x = false) ->
  forall l : ItemList T,
    mapGet (state (snd (updateChildren nodeData children l))) x
    = mapGet (state l) x.
Proof.
  induction children as [| child rest IH]; intros Hnot l;
    cbn [updateChildren]; [reflexivity |].
  unfold bind, stateGet.
  assert (Hrest : forall c, In c rest -> sameNode c x = false)
    by (intros c Hc; apply Hnot; now right).
  destruct (mapGet (state l) child) as [cd |].
  - unfold stateSet at 1. cbv beta iota. rewrite (IH Hrest). cbn [state].
    rewrite mapGet_mapSet, (Hnot child (or_introl eq_refl)). reflexivity.
  - unfold ret at 1. apply (IH Hrest).
Qed.

Lemma updateChildren_offsets_only (nodeData : NodeData T)
  (children : list OrderNode) (l : ItemList T) (x : OrderNode) :
  match mapGet (state (snd (updateChildren nodeData children l))) x,
        mapGet (state l) x with
  | Some d', Some d => total d' = total d /\ values d' = values d
  | None, None => True
  | _, _ => False
  end.
Proof.
  pose proof (updateChildren_values nodeData children l x) as Hv.
  pose proof (updateChildren_totals nodeData children l x) as Ht.
  destruct (mapGet (state (snd (updateChildren nodeData children l))) x),
           (mapGet (state l) x); cbn [option_map] in Hv, Ht;
    try discriminate; [| exact I].
  split; congruence.
Qed.

(** No node is its own child. *)
Lemma not_own_child (m c : OrderNode) :
  known order m -> In c (getChildren order m) -> sameNode c m = false.
Proof.
  intros Hkm Hin. destruct (sameNode c m) eqn:Hsame; [| reflexivity].
  destruct (known_child order Hwf m c m Hkm Hin Hkm Hsame) as [_ Hparent].
  pose proof (depth_unfold m) as Hd. rewrite Hparent in Hd. lia.
Qed.

(** [onUpdate] after a write at the node [m] of a list the interface
    builds.  Before the write the total of [m] was its number of present
    values [sOld] times the number of nodes on its path; the delta is the
    change of that number.  Afterwards the same holds of the record of [m];
    the records of the other nodes are as they were, but for the offsets of
    the children of [m] and for the record of the root, which is deleted
    when the last value of [m] goes. *)
Lemma onUpdate_written (m : OrderNode) (lw : ItemList T) (dw : NodeData T)
  (sOld : Z) :
  known order m ->
  mapGet (state lw) m = Some dw ->
  0 <= sOld ->
  total dw = (Z.of_nat (depth m) + 1) * sOld ->
  (forall d',
      mapGet (state (snd (onUpdate order m
                            (Sparse.size (values dw) - sOld) lw))) m
      = Some d' ->
      total d' = (Z.of_nat (depth m) + 1) * Sparse.size (values d')
      /\ values d' = values dw
      /\ parentValuesBefore d' = parentValuesBefore dw)
  /\ forall x,
       known order x ->
       sameNode m x = false ->
       (sameNode (rootNode order) x = false ->
        match mapGet (state (snd (onUpdate order m
                                    (Sparse.size (values dw) - sOld) lw))) x,
              mapGet (state lw) x with
        | Some d', Some d => total d' = total d /\ values d' = values d
        | None, None => True
        | _, _ => False
        end
        /\ (parent x <> Some m ->
            mapGet (state (snd (onUpdate order m
                                  (Sparse.size (values dw) - sOld) lw))) x
            = mapGet (state lw) x))
       /\ (sameNode (rootNode order) x = true ->
           mapGet (state (snd (onUpdate order m
                                 (Sparse.size (values dw) - sOld) lw))) x
           = mapGet (state lw) x
           \/ mapGet (state (snd (onUpdate order m
                                    (Sparse.size (values dw) - sOld) lw))) x
              = None).
Proof.
  intros Hknown Hrec HsOld Htotal.
  set (delta := Sparse.size (values dw) - sOld).
  set (rounds := Z.of_nat (depth m) + 1) in *.
  pose proof (size_nonneg (values dw)) as Hsize.
  unfold onUpdate, bind, getCachedIndexNode.
  set (l3 := snd ((if sameNodeOpt (cachedIndexNode lw) m then ret tt
                   else setCachedIndexNode None) lw)).
  assert (H3 :
    (if sameNodeOpt (cachedIndexNode lw) m then ret tt
     else setCachedIndexNode None) lw = (Ok tt, l3)
    /\ state l3 = state lw).
  { subst l3. destruct (sameNodeOpt (cachedIndexNode lw) m);
      unfold ret, setCachedIndexNode; simpl; auto. }
  destruct H3 as (Hrun3 & Hs3). rewrite Hrun3.
  (* the totals loop *)
  assert (H4 :
    exists l4,
      (if delta =? 0 then ret tt else updateTotals m delta m) l3
      = (Ok tt, l4)
      /\ (forall d4,
             mapGet (state l4) m = Some d4 ->
             total d4 = rounds * Sparse.size (values dw)
             /\ values d4 = values dw
             /\ parentValuesBefore d4 = parentValuesBefore dw)
      /\ (forall x,
             sameNode m x = false ->
             (sameNode (rootNode order) x = false ->
              mapGet (state l4) x = mapGet (state lw) x)
             /\ (mapGet (state l4) x = mapGet (state lw) x
                 \/ mapGet (state l4) x = None))).
  { destruct (Z.eqb_spec delta 0) as [Hz | Hz].
    - exists l3. unfold ret. split; [reflexivity |]. rewrite Hs3. split.
      + intros d4 Hd4. assert (d4 = dw) by congruence. subst d4.
        split; [| split; reflexivity].
        rewrite Htotal. subst delta. f_equal. lia.
      + intros x _. split; [reflexivity | now left].
    - destruct (updateTotals_runs m delta m l3) as (l4 & Hrun4 & _).
      exists l4. split; [exact Hrun4 |].
      assert (Hrounds :
        forall j, 1 <= j < Z.of_nat (S (depth m)) ->
                  total dw + j * delta <> 0).
      { intros j Hj Hzero. rewrite Htotal in Hzero. subst delta rounds.
        assert (0 <= (Z.of_nat (depth m) + 1 - j) * sOld)
          by (apply Z.mul_nonneg_nonneg; lia).
        assert (0 <= j * Sparse.size (values dw))
          by (apply Z.mul_nonneg_nonneg; lia).
        assert (Hsum :
          (Z.of_nat (depth m) + 1 - j) * sOld
          + j * Sparse.size (values dw) = 0) by lia.
        assert (Ha : (Z.of_nat (depth m) + 1 - j) * sOld = 0) by lia.
        assert (Hb : j * Sparse.size (values dw) = 0) by lia.
        apply Z.mul_eq_0 in Ha. apply Z.mul_eq_0 in Hb.
        apply Hz. lia. }
      assert (Hlast :
        total dw + Z.of_nat (S (depth m)) * delta
        = rounds * Sparse.size (values dw)).
      { rewrite Htotal. subst delta rounds. lia. }
      pose proof (updateTotals_rounds m delta m l3 dw) as Hstate.
      rewrite Hs3 in Hstate. specialize (Hstate Hrec Hrounds).
      rewrite Hrun4 in Hstate. cbn [snd] in Hstate.
      rewrite Hlast, (topOf_root order Hwf m Hknown) in Hstate.
      split.
      + intros d4. rewrite Hstate, sameNode_refl.
        destruct ((rounds * Sparse.size (values dw) =? 0)
                  && sameNode (rootNode order) m); [discriminate |].
        intros H. injection H as <-. cbn [withTotal total values
                                            parentValuesBefore].
        auto.
      + intros x Hx. rewrite (Hstate x), Hx. split.
        * intros Hroot. rewrite Hroot, andb_false_r. reflexivity.
        * destruct ((rounds * Sparse.size (values dw) =? 0)
                    && sameNode (rootNode order) x); [now right | now left]. }
  destruct H4 as (l4 & Hrun4 & Hm4 & Hother4). fold delta. rewrite Hrun4.
  unfold stateGet. cbv beta iota.
  (* the offsets loop *)
  assert (H5 :
    forall x,
      (forall c, In c (getChildren order m) -> sameNode c x = false) ->
      mapGet (state (snd (match mapGet (state l4) m with
                          | Some nd =>
                              updateChildren nd (getChildren order m)
                          | None => ret tt
                          end l4))) x
      = mapGet (state l4) x).
  { intros x Hnot. destruct (mapGet (state l4) m) as [nd |];
      [now apply updateChildren_other | reflexivity]. }
  assert (H6 :
    forall x,
      match mapGet (state (snd (match mapGet (state l4) m with
                                | Some nd =>
                                    updateChildren nd (getChildren order m)
                                | None => ret tt
                                end l4))) x,
            mapGet (state l4) x with
      | Some d', Some d => total d' = total d /\ values d' = values d
      | None, None => True
      | _, _ => False
      end).
  { intros x. destruct (mapGet (state l4) m) as [nd |].
    - apply updateChildren_offsets_only.
    - unfold ret. cbn [snd]. destruct (mapGet (state l4) x); auto. }
  split.
  - intros d'. rewrite H5 by (intros c Hc; now apply not_own_child).
    intros Hd'. destruct (Hm4 d' Hd') as (Ht & Hv & Hp).
    rewrite Hv. auto.
  - intros x Hkx Hx. destruct (Hother4 x Hx) as [Hsame Hroot]. split.
    + intros Hnotroot. specialize (Hsame Hnotroot). split.
      * rewrite <- Hsame. apply H6.
      * intros Hparent. rewrite H5; [exact Hsame |].
        intros c Hc. destruct (sameNode c x) eqn:Hcx; [| reflexivity].
        destruct (known_child order Hwf m c x Hknown Hc Hkx Hcx)
          as [_ Hp]. contradiction.
    + intros Hisroot.
      assert (x = rootNode order).
      { symmetry.
        exact (known_sameNode order _ _ (wf_root Hwf) Hkx Hisroot). }
      subst x.
      rewrite H5; [exact Hroot |].
      intros c Hc. destruct (sameNode c (rootNode order)) eqn:Hcx;
        [| reflexivity].
      destruct (known_child order Hwf m c (rootNode order) Hknown Hc
                  (wf_root Hwf) Hcx) as [_ Hp].
      rewrite (root_parent order Hwf) in Hp. discriminate.
Qed.

End CacheMaintenanceFacts.

(** ** The walk up the tree *)

Section CacheWalkFacts.

Context {T : Type}.

Variable order : Order.

Hypothesis Hwf : wfOrder order.

Lemma sameNode_sym (a b : OrderNode) : sameNode a b = sameNode b a.
Proof. unfold sameNode. apply String.eqb_sym. Qed.

Lemma totalOf_recordTotal (x : OrderNode) (l : ItemList T) :
  totalOf x l = (Ok (recordTotal l x), l).
Proof.
  unfold totalOf, bind, stateGet, recordTotal.
  now destruct (mapGet (state l) x).
Qed.

(** The sum over the siblings depends on their totals alone. *)
Lemma siblingsBefore_agree (siblings : list OrderNode) (current : OrderNode)
  (l l' : ItemList T) :
  (forall s, In s siblings -> sameNode s current = false ->
             recordTotal l s = recordTotal l' s) ->
  forall b,
    fst (siblingsBefore siblings current b l)
    = fst (siblingsBefore siblings current b l').
Proof.
  induction siblings as [| child rest IH]; intros Hsame b;
    cbn [siblingsBefore]; [reflexivity |].
  destruct (sameNode child current) eqn:Hc; [reflexivity |].
  unfold bind. rewrite !totalOf_recordTotal.
  rewrite (Hsame child (or_introl eq_refl) Hc).
  apply IH. intros s Hs. apply Hsame. now right.
Qed.

(** The walk up the tree from [current] reads the offsets of the proper
    ancestors of [current] and the totals of nodes that are off its path
    and no deeper than it. *)
Lemma walkUp_agree (l l' : ItemList T) (current : OrderNode) :
  known order current ->
  (forall x, known order x -> onPath current x = true ->
             sameNode current x = false ->
             recordOffset l x = recordOffset l' x) ->
  (forall x, known order x -> (depth x <= depth current)%nat ->
             onPath current x = false ->
             recordTotal l x = recordTotal l' x) ->
  forall b, fst (walkUp order current b l) = fst (walkUp order current b l').
Proof.
  induction current as [i v p IH] using OrderNode_parent_ind.
  intros Hknown Hoffsets Htotals b.
  destruct p as [p |]; cbn [walkUp parent]; [| reflexivity].
  set (current := {| id := i; nextValueIndex := v; parent := Some p |}) in *.
  destruct (wf_parent Hwf Hknown eq_refl) as [Hkp Hchild].
  assert (Hdepth : depth current = S (depth p)) by apply depth_unfold.
  assert (Hnotp : onPath p current = false)
    by exact (not_onPath_parent order Hwf current p Hknown eq_refl).
  assert (Hstep : forall x, onPath current x = sameNode current x || onPath p x)
    by (intros x; exact (onPath_step current p x eq_refl)).
  assert (Hdiff : sameNode current p = false).
  { destruct (sameNode current p) eqn:Hs; [| reflexivity].
    assert (current = p)
      by exact (known_sameNode order current p Hknown Hkp Hs).
    rewrite <- H in Hnotp at 1. rewrite onPath_self in Hnotp. discriminate. }
  unfold bind, stateGet.
  assert (Hoff : recordOffset l p = recordOffset l' p).
  { apply Hoffsets; [exact Hkp | | exact Hdiff].
    rewrite Hstep, onPath_self. apply orb_true_r. }
  unfold recordOffset in Hoff. rewrite Hoff.
  set (b1 := b + match mapGet (state l') p with
                 | Some pd => parentValuesBefore pd
                 | None => 0
                 end).
  pose proof (siblingsBefore_agree (getChildren order p) current l l') as Hs.
  destruct (@siblingsBefore_reads T (getChildren order p) current b1 l)
    as [t Ht].
  destruct (@siblingsBefore_reads T (getChildren order p) current b1 l')
    as [t' Ht'].
  assert (t = t').
  { specialize (Hs
      ltac:(intros s Hin Hnot;
            apply Htotals;
            [exact (proj1 (wf_children Hwf Hkp Hin))
            | rewrite (depth_child order Hwf p s Hkp Hin), Hdepth; lia
            | rewrite Hstep, sameNode_sym, Hnot; cbn [orb];
              destruct (onPath p s) eqn:Hps; [| reflexivity];
              pose proof (onPath_depth order Hwf p s Hkp
                            (proj1 (wf_children Hwf Hkp Hin)) Hps);
              rewrite (depth_child order Hwf p s Hkp Hin) in *; lia])
      b1).
    rewrite Ht, Ht' in Hs. cbn [fst] in Hs. congruence. }
  subst t'. rewrite Ht, Ht'.
  apply (IH p eq_refl Hkp).
  - intros x Hkx Hpx Hneq. apply Hoffsets; [exact Hkx | |].
    + rewrite Hstep, Hpx. apply orb_true_r.
    + destruct (sameNode current x) eqn:Hcx; [| reflexivity].
      assert (current = x)
        by exact (known_sameNode order current x Hknown Hkx Hcx).
      subst x. congruence.
  - intros x Hkx Hdx Hpx. apply Htotals; [exact Hkx | lia |].
    rewrite Hstep, Hpx, orb_false_r.
    destruct (sameNode current x) eqn:Hcx; [| reflexivity].
    assert (current = x)
      by exact (known_sameNode order current x Hknown Hkx Hcx).
    subst x. lia.
Qed.

(** On a list whose cache is not stale [indexOfPosition] returns what it
    returns with the cache emptied. *)
Lemma indexOfPosition_dropCache (l : ItemList T) (pos : Position)
  (dir : SearchDir) :
  cacheValid order l ->
  fst (indexOfPosition order pos dir l)
  = fst (indexOfPosition order pos dir (dropCache l)).
Proof.
  intros Hvalid.
  destruct (getNodeFor order pos) as [node | e] eqn:Hnode.
  2: { unfold indexOfPosition, bind, lift. now rewrite Hnode. }
  destruct (@getInNode_reads_state T node (valueIndex pos) l) as [info Hinfo].
  destruct (@childrenBefore_reads_state T (getChildren order node)
              (valueIndex pos) l (snd info)) as [vb Hvb].
  destruct (@walkUp_reads_state T order node l 0) as [bw Hbw].
  rewrite (@indexOfPosition_eval T order pos dir l node info vb bw Hnode
             (Hinfo l eq_refl) (Hvb l eq_refl) (Hbw l eq_refl)).
  rewrite (@indexOfPosition_eval T order pos dir (dropCache l) node info vb
             bw Hnode (Hinfo (dropCache l) eq_refl)
             (Hvb (dropCache l) eq_refl) (Hbw (dropCache l) eq_refl)).
  cbv zeta. cbn [fst dropCache cachedIndexNode sameNodeOpt].
  destruct (sameNodeOpt (cachedIndexNode l) node) eqn:Hhit; [| reflexivity].
  unfold cacheValid in Hvalid.
  destruct (cachedIndexNode l) as [n |]; [| discriminate].
  cbn [sameNodeOpt] in Hhit. destruct Hvalid as [Hkn Hwalk].
  assert (n = node).
  { apply (known_sameNode order n node Hkn); [| exact Hhit].
    exact (known_of_lookup order Hwf pos node Hnode). }
  subst n. rewrite (Hbw l eq_refl) in Hwalk. cbn [fst] in Hwalk.
  injection Hwalk as ->. reflexivity.
Qed.

(** [indexOfPosition] changes no record and leaves a cache that is not
    stale. *)
Lemma indexOfPosition_keeps_valid (l : ItemList T) (pos : Position)
  (dir : SearchDir) :
  cacheValid order l ->
  state (snd (indexOfPosition order pos dir l)) = state l
  /\ cacheValid order (snd (indexOfPosition order pos dir l)).
Proof.
  intros Hvalid.
  destruct (getNodeFor order pos) as [node | e] eqn:Hnode.
  2: { unfold indexOfPosition, bind, lift. rewrite Hnode. cbn [snd]. auto. }
  destruct (@getInNode_reads_state T node (valueIndex pos) l) as [info Hinfo].
  destruct (@childrenBefore_reads_state T (getChildren order node)
              (valueIndex pos) l (snd info)) as [vb Hvb].
  destruct (@walkUp_reads_state T order node l 0) as [bw Hbw].
  rewrite (@indexOfPosition_eval T order pos dir l node info vb bw Hnode
             (Hinfo l eq_refl) (Hvb l eq_refl) (Hbw l eq_refl)).
  cbv zeta. cbn [snd].
  destruct (sameNodeOpt (cachedIndexNode l) node); [auto |].
  split; [reflexivity |].
  unfold cacheValid. cbn [cachedIndexNode cachedIndex].
  split; [exact (known_of_lookup order Hwf pos node Hnode) |].
  now rewrite (Hbw {| state := state l; cachedIndexNode := Some node;
                      cachedIndex := bw |} eq_refl).
Qed.

End CacheWalkFacts.

(** ** What the mutators keep *)

Section CacheBuiltFacts.

Context {T : Type}.

Variable order : Order.

Hypothesis Hwf : wfOrder order.

(** [getOrCreateData]: the record there is, or a new one with total 0, the
    empty sequence, and offset 0 when the node has no parent. *)
Lemma getOrCreateData_cases (m : OrderNode) (l : ItemList T) :
  exists data l1,
    getOrCreateData m l = (Ok data, l1)
    /\ cachedIndexNode l1 = cachedIndexNode l
    /\ cachedIndex l1 = cachedIndex l
    /\ (forall x,
           mapGet (state l1) x
           = if sameNode m x then Some data else mapGet (state l) x)
    /\ (mapGet (state l) m = Some data
        \/ total data = 0
           /\ values data = Sparse.new 0
           /\ (parent m = None -> parentValuesBefore data = 0)).
Proof.
  unfold getOrCreateData, bind, stateGet.
  destruct (mapGet (state l) m) as [data |] eqn:Hrec.
  - exists data, l. unfold ret. repeat split; auto.
    intros x. destruct (sameNode m x) eqn:Hx; [| reflexivity].
    now rewrite <- (mapGet_sameNode _ _ _ Hx).
  - destruct (parent m) as [p |];
      [destruct (mapGet (state l) p) |];
      unfold ret, stateSet; cbv beta iota;
      eexists; eexists;
      (split; [reflexivity |]); cbn [state cachedIndexNode cachedIndex];
      (split; [reflexivity |]); (split; [reflexivity |]);
      (split; [intros x; apply mapGet_mapSet |]);
      right; cbn [total values parentValuesBefore];
      (split; [reflexivity |]); (split; [reflexivity |]);
      intros H; try discriminate H; reflexivity.
Qed.

(** [onUpdate] after a write at [m] keeps what holds of the lists the
    interface builds. *)
Lemma written_built (m : OrderNode) (l lw : ItemList T) (dw : NodeData T)
  (sOld : Z) :
  built order l ->
  known order m ->
  cachedIndexNode lw = cachedIndexNode l ->
  cachedIndex lw = cachedIndex l ->
  (forall x,
      mapGet (state lw) x
      = if sameNode m x then Some dw else mapGet (state l) x) ->
  0 <= sOld ->
  total dw = (Z.of_nat (depth m) + 1) * sOld ->
  (sameNode m (rootNode order) = true -> parentValuesBefore dw = 0) ->
  built order (snd (onUpdate order m (Sparse.size (values dw) - sOld) lw)).
Proof.
  intros [_ Hcache Htotals Hroot Hknownrec] Hknown Hcn Hci Hlw HsOld Htotal
    Hoffset.
  assert (Hrec : mapGet (state lw) m = Some dw)
    by now rewrite Hlw, sameNode_refl.
  destruct (onUpdate_written order Hwf m lw dw sOld Hknown Hrec HsOld Htotal)
    as [Hm Hother].
  destruct (@onUpdate_cache T order m (Sparse.size (values dw) - sOld) lw)
    as (l' & Hrun & Hcn' & Hci').
  rewrite Hrun in Hm, Hother |- *. cbn [snd] in Hm, Hother |- *.
  assert (Hlwx : forall x, sameNode m x = false ->
                           mapGet (state lw) x = mapGet (state l) x)
    by (intros x Hx; now rewrite Hlw, Hx).
  assert (Hrootx : forall x, known order x ->
                             sameNode (rootNode order) x = true ->
                             x = rootNode order).
  { intros x Hkx Hx. symmetry.
    exact (known_sameNode order _ _ (wf_root Hwf) Hkx Hx). }
  constructor.
  - exact Hwf.
  - (* the cache *)
    unfold cacheValid. rewrite Hcn', Hci', Hcn, Hci.
    destruct (sameNodeOpt (cachedIndexNode l) m) eqn:Hhit; [| exact I].
    unfold cacheValid in Hcache.
    destruct (cachedIndexNode l) as [n |]; [| discriminate].
    cbn [sameNodeOpt] in Hhit. destruct Hcache as [Hkn Hwalk].
    assert (n = m) by exact (known_sameNode order n m Hkn Hknown Hhit).
    subst n. split; [exact Hknown |].
    rewrite <- Hwalk. symmetry.
    apply (walkUp_agree order Hwf l l' m Hknown).
    + intros x Hkx Hpath Hx. unfold recordOffset.
      destruct (Hother x Hkx Hx) as [Hnotroot Hisroot].
      destruct (sameNode (rootNode order) x) eqn:Hr.
      * pose proof (Hrootx x Hkx Hr). subst x.
        destruct (Hisroot eq_refl) as [Hsame | Hnone].
        -- now rewrite Hsame, (Hlwx _ Hx).
        -- rewrite Hnone.
           destruct (mapGet (state l) (rootNode order)) as [d |] eqn:Hd;
             [| reflexivity].
           exact (Hroot d eq_refl).
      * destruct (Hnotroot eq_refl) as [_ Hsame].
        rewrite Hsame, (Hlwx _ Hx); [reflexivity |].
        intros Hparent.
        pose proof (onPath_depth order Hwf m x Hknown Hkx Hpath).
        pose proof (depth_unfold x) as Hd. rewrite Hparent in Hd. lia.
    + intros x Hkx Hdx Hpath. unfold recordTotal.
      assert (Hx : sameNode m x = false).
      { destruct (sameNode m x) eqn:Hx; [| reflexivity].
        rewrite (onPath_of_sameNode m x Hx) in Hpath. discriminate. }
      assert (Hr : sameNode (rootNode order) x = false).
      { destruct (sameNode (rootNode order) x) eqn:Hr; [| reflexivity].
        pose proof (Hrootx x Hkx Hr). subst x.
        rewrite (onPath_rootNode order Hwf m Hknown) in Hpath.
        discriminate. }
      destruct (Hother x Hkx Hx) as [Hnotroot _].
      destruct (Hnotroot Hr) as [Hrel _].
      rewrite (Hlwx _ Hx) in Hrel.
      destruct (mapGet (state l') x), (mapGet (state l) x);
        try contradiction; [symmetry; tauto | reflexivity].
  - (* the totals *)
    intros x d' Hkx Hd'.
    destruct (sameNode m x) eqn:Hx.
    + assert (m = x) by exact (known_sameNode order m x Hknown Hkx Hx).
      subst x. exact (proj1 (Hm d' Hd')).
    + destruct (Hother x Hkx Hx) as [Hnotroot Hisroot].
      destruct (sameNode (rootNode order) x) eqn:Hr.
      * destruct (Hisroot eq_refl) as [Hsame | Hnone]; [| congruence].
        rewrite Hsame, (Hlwx _ Hx) in Hd'. exact (Htotals x d' Hkx Hd').
      * destruct (Hnotroot eq_refl) as [Hrel _].
        rewrite Hd', (Hlwx _ Hx) in Hrel.
        destruct (mapGet (state l) x) as [d |] eqn:Hd; [| contradiction].
        destruct Hrel as [Ht Hv]. rewrite Ht, Hv.
        exact (Htotals x d Hkx Hd).
  - (* the offset of the root *)
    intros d' Hd'.
    destruct (sameNode m (rootNode order)) eqn:Hx.
    + assert (m = rootNode order)
        by exact (known_sameNode order m _ Hknown (wf_root Hwf) Hx).
      subst m. rewrite (proj2 (proj2 (Hm d' Hd'))). now apply Hoffset.
    + destruct (Hother (rootNode order) (wf_root Hwf) Hx) as [_ Hisroot].
      destruct (Hisroot (sameNode_refl _)) as [Hsame | Hnone];
        [| congruence].
      rewrite Hsame, (Hlwx _ Hx) in Hd'. exact (Hroot d' Hd').
  - (* records are of nodes of the order *)
    intros x Hsome.
    destruct (sameNode m x) eqn:Hx.
    + unfold knownID. rewrite <- (sameNode_eq _ _ Hx).
      unfold known in Hknown. now rewrite Hknown.
    + apply Hknownrec. rewrite <- (Hlwx _ Hx).
      pose proof (@onUpdate_other_totals T order m
                    (Sparse.size (values dw) - sOld) lw x Hx) as Hcases.
      rewrite Hrun in Hcases. cbn [snd] in Hcases.
      destruct Hcases as [Heq | Hnone]; [| contradiction].
      intros Hlwnone. rewrite Hlwnone in Heq.
      destruct (mapGet (state l') x); [discriminate | contradiction].
Qed.

(** The three writes: [getOrCreateData] or the record found, the new
    sequence, [onUpdate] with the change of the number of present values. *)
Lemma write_built (m : OrderNode) (l l1 : ItemList T) (data : NodeData T)
  (vals : Sparse.SparseItems T) :
  built order l ->
  known order m ->
  cachedIndexNode l1 = cachedIndexNode l ->
  cachedIndex l1 = cachedIndex l ->
  (forall x,
      mapGet (state l1) x
      = if sameNode m x then Some data else mapGet (state l) x) ->
  (mapGet (state l) m = Some data
   \/ total data = 0
      /\ values data = Sparse.new 0
      /\ (parent m = None -> parentValuesBefore data = 0)) ->
  built order
    (snd (onUpdate order m (Sparse.size vals - Sparse.size (values data))
            (snd (stateSet m (withValues data vals) l1)))).
Proof.
  intros Hbuilt Hknown Hcn Hci Hl1 Hcases.
  apply (written_built m l
           (snd (stateSet m (withValues data vals) l1))
           (withValues data vals) (Sparse.size (values data)) Hbuilt Hknown).
  - exact Hcn.
  - exact Hci.
  - intros x. unfold stateSet. cbn [snd state].
    rewrite mapGet_mapSet, Hl1. now destruct (sameNode m x).
  - apply size_nonneg.
  - cbn [withValues total].
    destruct Hcases as [Hold | (Hzero & Hnew & _)].
    + exact (built_totals Hbuilt Hknown Hold).
    + rewrite Hzero, Hnew, size_new. lia.
  - intros Hroot. cbn [withValues parentValuesBefore].
    assert (m = rootNode order)
      by exact (known_sameNode order m _ Hknown (wf_root Hwf) Hroot).
    subst m.
    destruct Hcases as [Hold | (_ & _ & Hoff)].
    + exact (built_root Hbuilt Hold).
    + apply Hoff. exact (root_parent order Hwf).
Qed.

Lemma set_built (l : ItemList T) (pos : Position) (item : list T) :
  built order l -> built order (snd (set order pos item l)).
Proof.
  intros Hbuilt. unfold set, bind, lift.
  destruct (getNodeFor order pos) as [m | e] eqn:Hnode; [| exact Hbuilt].
  pose proof (known_of_lookup order Hwf pos m Hnode) as Hknown.
  destruct (Z.of_nat (List.length item) =? 0); [exact Hbuilt |].
  destruct (sameNode m (rootNode order)
            && (valueIndex pos + Z.of_nat (List.length item) - 1 >? 1));
    [exact Hbuilt |].
  destruct (getOrCreateData_cases m l)
    as (data & l1 & Hget & Hcn & Hci & Hl1 & Hcases).
  rewrite Hget.
  pose proof (Sparse_set_size (values data) (valueIndex pos) item)
    as (Hsize & _).
  destruct (Sparse.set (values data) (valueIndex pos) item)
    as [newArr existing].
  cbn [fst snd] in Hsize.
  pose proof (write_built m l l1 data (Sparse.trim newArr) Hbuilt Hknown
                Hcn Hci Hl1 Hcases) as Hwrite.
  replace (Sparse.size (Sparse.trim newArr) - Sparse.size (values data))
    with (Z.of_nat (List.length item) - Sparse.size existing) in Hwrite
    by (rewrite size_trim; lia).
  unfold stateSet in Hwrite |- *. cbv beta iota. cbn [snd] in Hwrite.
  match type of Hwrite with
  | built order (snd ?c) => destruct c as [[[] | e] l2]
  end; exact Hwrite.
Qed.

Lemma delete_built (l : ItemList T) (pos : Position) (count : Z) :
  built order l -> built order (snd (delete order pos count l)).
Proof.
  intros Hbuilt. unfold delete, bind, lift.
  destruct (getNodeFor order pos) as [m | e] eqn:Hnode; [| exact Hbuilt].
  pose proof (known_of_lookup order Hwf pos m Hnode) as Hknown.
  destruct (count =? 0); [exact Hbuilt |].
  destruct (sameNode m (rootNode order)
            && (valueIndex pos + count - 1 >? 1)); [exact Hbuilt |].
  unfold stateGet. cbv beta iota.
  destruct (mapGet (state l) m) as [data |] eqn:Hrec; [| exact Hbuilt].
  pose proof (Sparse_delete_size (values data) (valueIndex pos) count)
    as (Hsize & _).
  destruct (Sparse.delete (values data) (valueIndex pos) count)
    as [newArr existing].
  cbn [fst snd] in Hsize.
  assert (Hl : forall x,
             mapGet (state l) x
             = if sameNode m x then Some data else mapGet (state l) x).
  { intros x. destruct (sameNode m x) eqn:Hx; [| reflexivity].
    now rewrite <- (mapGet_sameNode _ _ _ Hx). }
  pose proof (write_built m l l data (Sparse.trim newArr) Hbuilt Hknown
                eq_refl eq_refl Hl (or_introl Hrec)) as Hwrite.
  replace (Sparse.size (Sparse.trim newArr) - Sparse.size (values data))
    with (0 - Sparse.size existing) in Hwrite
    by (rewrite size_trim; lia).
  unfold stateSet in Hwrite |- *. cbv beta iota. cbn [snd] in Hwrite.
  match type of Hwrite with
  | built order (snd ?c) => destruct c as [[[] | e] l2]
  end; exact Hwrite.
Qed.

Lemma clear_built (l : ItemList T) : built order (snd (clear l)).
Proof.
  unfold clear. cbn [snd]. constructor; cbn [state cachedIndexNode mapGet].
  - exact Hwf.
  - exact I.
  - discriminate.
  - discriminate.
  - intros x H. now contradiction H.
Qed.

Lemma loadLoop_built {S : Type} (loadArray : S -> Sparse.SparseItems T)
  (savedState : list (string * S)) :
  forall l : ItemList T,
    built order l ->
    built order (snd (loadLoop order loadArray savedState l)).
Proof.
  induction savedState as [| [k s] rest IH]; intros l Hbuilt;
    cbn [loadLoop]; [exact Hbuilt |].
  destruct (getNode order k) as [m |] eqn:Hnode; [| exact Hbuilt].
  assert (Hknown : known order m).
  { unfold known. now rewrite (wf_lookup Hwf Hnode). }
  unfold bind.
  destruct (getOrCreateData_cases m l)
    as (data & l1 & Hget & Hcn & Hci & Hl1 & Hcases).
  rewrite Hget.
  pose proof (write_built m l l1 data (loadArray s) Hbuilt Hknown Hcn Hci
                Hl1 Hcases) as Hwrite.
  unfold stateSet in Hwrite |- *. cbv beta iota. cbn [snd] in Hwrite.
  match type of Hwrite with
  | built order (snd ?c) => destruct c as [[[] | e] l2]
  end; cbn [snd] in Hwrite |- *; [now apply IH | exact Hwrite].
Qed.

Lemma load_built {S : Type} (savedState : list (string * S))
  (loadArray : S -> Sparse.SparseItems T) (l : ItemList T) :
  built order (snd (load order savedState loadArray l)).
Proof.
  unfold load, bind.
  pose proof (clear_built l) as Hclear.
  destruct (clear l) as [[[] | e] l1] eqn:Hrun; cbn [snd] in Hclear.
  - now apply loadLoop_built.
  - exact Hclear.
Qed.

Lemma indexOfPosition_built (l : ItemList T) (pos : Position)
  (dir : SearchDir) :
  built order l -> built order (snd (indexOfPosition order pos dir l)).
Proof.
  intros [_ Hcache Htotals Hroot Hknownrec].
  destruct (indexOfPosition_keeps_valid order Hwf l pos dir Hcache)
    as [Hstate Hvalid].
  constructor; try rewrite Hstate; assumption.
Qed.

End CacheBuiltFacts.

(** ** The order as it grows *)

Section CacheOrderFacts.

Context {T : Type}.

Variables order order' : Order.

Hypothesis Hwf : wfOrder order.

Hypothesis Hwf' : wfOrder order'.

Hypothesis Hext : extendsOrder order order'.

Lemma extends_known (x : OrderNode) : known order x -> known order' x.
Proof. unfold known. apply (ext_nodes Hext). Qed.

(** New nodes among the siblings have no record and are not the node the
    sum stops at. *)
Lemma siblingsBefore_filter (l : ItemList T) (current : OrderNode)
  (siblings : list OrderNode) :
  knownID order (id current) = true ->
  (forall x, mapGet (state l) x <> None -> knownID order (id x) = true) ->
  forall b,
    siblingsBefore siblings current b l
    = siblingsBefore
        (filter (fun child => knownID order (id child)) siblings)
        current b l.
Proof.
  intros Hcurrent Hrecords.
  induction siblings as [| child rest IH]; intros b;
    cbn [filter siblingsBefore]; [reflexivity |].
  destruct (knownID order (id child)) eqn:Hchild; cbn [siblingsBefore].
  - destruct (sameNode child current); [reflexivity |].
    unfold bind. rewrite totalOf_recordTotal. apply IH.
  - destruct (sameNode child current) eqn:Hsame.
    { apply sameNode_eq in Hsame. congruence. }
    unfold bind. rewrite totalOf_recordTotal.
    assert (Hzero : recordTotal l child = 0).
    { unfold recordTotal.
      destruct (mapGet (state l) child) eqn:Hrec; [| reflexivity].
      assert (knownID order (id child) = true)
        by (apply Hrecords; now rewrite Hrec).
      congruence. }
    rewrite Hzero, Z.add_0_r. apply IH.
Qed.

Lemma walkUp_extends (l : ItemList T) (current : OrderNode) :
  (forall x, mapGet (state l) x <> None -> knownID order (id x) = true) ->
  known order current ->
  forall b, walkUp order' current b l = walkUp order current b l.
Proof.
  intros Hrecords.
  induction current as [i v p IH] using OrderNode_parent_ind.
  intros Hknown b.
  destruct p as [p |]; cbn [walkUp parent]; [| reflexivity].
  destruct (wf_parent Hwf Hknown eq_refl) as [Hkp _].
  unfold bind, stateGet.
  rewrite siblingsBefore_filter.
  - rewrite (ext_children Hext Hkp).
    destruct (@siblingsBefore_reads T (getChildren order p)
                {| id := i; nextValueIndex := v; parent := Some p |}
                (b + match mapGet (state l) p with
                     | Some pd => parentValuesBefore pd
                     | None => 0
                     end) l) as [t Ht].
    rewrite Ht. apply (IH p eq_refl Hkp).
  - unfold knownID. unfold known in Hknown. now rewrite Hknown.
  - exact Hrecords.
Qed.

(** What holds of the lists the interface builds holds over the order as
    [createPositions] makes it grow. *)
Lemma extends_built (l : ItemList T) : built order l -> built order' l.
Proof.
  intros [_ Hcache Htotals Hroot Hknownrec].
  assert (Hback : forall x d,
             known order' x -> mapGet (state l) x = Some d ->
             known order x).
  { intros x d Hkx Hrec.
    assert (Hid : knownID order (id x) = true)
      by (apply Hknownrec; now rewrite Hrec).
    unfold knownID in Hid.
    destruct (getNode order (id x)) as [x0 |] eqn:Hx0; [| discriminate].
    pose proof (ext_nodes Hext _ Hx0) as Hx0'.
    unfold known in Hkx |- *. congruence. }
  constructor.
  - exact Hwf'.
  - unfold cacheValid in *.
    destruct (cachedIndexNode l) as [n |]; [| exact I].
    destruct Hcache as [Hkn Hwalk].
    split; [now apply extends_known |].
    now rewrite (walkUp_extends l n Hknownrec Hkn).
  - intros x d Hkx Hrec. exact (Htotals x d (Hback x d Hkx Hrec) Hrec).
  - rewrite (ext_root Hext). exact Hroot.
  - intros x Hsome. specialize (Hknownrec x Hsome).
    unfold knownID in *.
    destruct (getNode order (id x)) as [x0 |] eqn:Hx0; [| discriminate].
    now rewrite (ext_nodes Hext _ Hx0).
Qed.

End CacheOrderFacts.

(** ** The lists the interface builds *)

Section ReachableFacts.

Context {T : Type}.

Lemma reachable_built (order : Order) (l : ItemList T) :
  reachable order l -> built order l.
Proof.
  induction 1 as [order Hwf
                 | order l pos item _ IH _
                 | order l pos count _ IH _ _
                 | order l _ IH
                 | order l S savedState loadArray _ IH
                 | order l pos dir _ IH
                 | order order' l _ IH Hwf' Hext].
  - constructor; cbn [empty state cachedIndexNode mapGet].
    + exact Hwf.
    + exact I.
    + discriminate.
    + discriminate.
    + intros x H. now contradiction H.
  - exact (set_built order (built_order IH) l pos item IH).
  - exact (delete_built order (built_order IH) l pos count IH).
  - exact (clear_built order (built_order IH) l).
  - exact (load_built order (built_order IH) savedState loadArray l).
  - exact (indexOfPosition_built order (built_order IH) l pos dir IH).
  - exact (extends_built order order' (built_order IH) Hwf' Hext l IH).
Qed.

(** [positionAt] changes nothing. *)
Lemma positionAt_unchanged (order : Order) (index : Z) (l : ItemList T) :
  snd (positionAt order index l) = l.
Proof.
  unfold positionAt, bind.
  destruct (@totalOf_reads T (rootNode order) l) as [len Hlen].
  unfold length. rewrite Hlen.
  destruct ((index <? 0) || (index >=? len)); [reflexivity |].
  unfold stateGet.
  pose proof (@positionAtFor_reads T (rootNode order)
                (mapGet (state l) (rootNode order))
                (getChildren order (rootNode order)) index 0 0 l)
    as [Hsnd _].
  destruct (positionAtFor (rootNode order)
              (mapGet (state l) (rootNode order))
              (getChildren order (rootNode order)) index 0 0 l)
    as [[exit | e] l1]; cbn [snd] in Hsnd; subst l1; [| reflexivity].
  now destruct exit.
Qed.

(** [insertAt] changes the list through [set] alone, under the order that
    [createPositions] returns. *)
Lemma insertAt_through_set (createPositions : CreatePositions)
  (order : Order) (index : Z) (item : list T) (l l' : ItemList T)
  (created : Order * (Position * option OrderNode)) :
  insertAt createPositions order index item l = (Ok created, l') ->
  l' = snd (set (fst created) (fst (snd created)) item l).
Proof.
  unfold insertAt, bind.
  assert (Hprev :
    snd ((if index =? 0 then ret (MIN_POSITION order)
          else positionAt order (index - 1)) l) = l).
  { destruct (index =? 0); [reflexivity | apply positionAt_unchanged]. }
  destruct ((if index =? 0 then ret (MIN_POSITION order)
             else positionAt order (index - 1)) l)
    as [[prevPos | e] l1]; cbn [snd] in Hprev; subst l1; [| discriminate].
  destruct (@totalOf_reads T (rootNode order) l) as [len Hlen].
  unfold length. rewrite Hlen.
  assert (Hnext :
    snd ((if index =? len then ret (MAX_POSITION order)
          else positionAt order index) l) = l).
  { destruct (index =? len); [reflexivity | apply positionAt_unchanged]. }
  destruct ((if index =? len then ret (MAX_POSITION order)
             else positionAt order index) l)
    as [[nextPos | e] l1]; cbn [snd] in Hnext; subst l1; [| discriminate].
  unfold lift.
  destruct (createPositions order prevPos nextPos
              (Z.of_nat (List.length item))) as [made | e];
    [| discriminate].
  destruct (set (fst made) (fst (snd made)) item l) as [[existing | e] l2]
    eqn:Hset; [| discriminate].
  unfold ret. intros H. injection H as <- <-. now rewrite Hset.
Qed.

(** [insert] changes the list through [set] alone, after its call of
    [indexOfPosition]. *)
Lemma insert_through_set (createPositions : CreatePositions)
  (order : Order) (prevPos : Position) (item : list T) (l l' : ItemList T)
  (created : Order * (Position * option OrderNode)) :
  insert createPositions order prevPos item l = (Ok created, l') ->
  l' = snd (set (fst created) (fst (snd created)) item
              (snd (indexOfPosition order prevPos SearchLeft l))).
Proof.
  unfold insert, bind.
  destruct (indexOfPosition order prevPos SearchLeft l) as [[i | e] l1];
    [| discriminate].
  cbn [snd].
  pose proof (positionAt_unchanged order (i + 1) l1) as Hnext.
  destruct (positionAt order (i + 1) l1) as [[nextPos | e] l2];
    cbn [snd] in Hnext; subst l2; [| discriminate].
  unfold lift.
  destruct (createPositions order prevPos nextPos
              (Z.of_nat (List.length item))) as [made | e];
    [| discriminate].
  destruct (set (fst made) (fst (snd made)) item l1) as [[existing | e] l2]
    eqn:Hset; [| discriminate].
  unfold ret. intros H. injection H as <- <-. now rewrite Hset.
Qed.

End ReachableFacts.

(** ** Asking again *)

Section RepeatFacts.

Context {T : Type}.

Variable order : Order.

Hypothesis Hwf : wfOrder order.

(** X2.  Asking again reads a cache that is not stale.  On a list whose
    cached index, if there is one, is the index the walk up the tree
    computes, take a call of [indexOfPosition] on [pos] and then a second
    call on [pos], in whatever directions.  The second call returns what
    [indexOfPosition] returns on the list with the cache emptied, that is,
    what the walk up the tree gives, and it changes nothing. *)
Theorem indexOfPosition_repeat (pos : Position) (dir dir' : SearchDir)
  (l : ItemList T) :
  cacheValid order l ->
  indexOfPosition order pos dir (snd (indexOfPosition order pos dir' l))
  = (fst (indexOfPosition order pos dir (dropCache l)),
     snd (indexOfPosition order pos dir' l)).
Proof.
  intros Hvalid.
  destruct (getNodeFor order pos) as [node | e] eqn:Hnode.
  2: { unfold indexOfPosition, bind, lift. now rewrite Hnode. }
  destruct (@getInNode_reads_state T node (valueIndex pos) l) as [info Hinfo].
  destruct (@childrenBefore_reads_state T (getChildren order node)
              (valueIndex pos) l (snd info)) as [vb Hvb].
  destruct (@walkUp_reads_state T order node l 0) as [bw Hbw].
  rewrite (@indexOfPosition_eval T order pos dir' l node info vb bw Hnode
             (Hinfo l eq_refl) (Hvb l eq_refl) (Hbw l eq_refl)).
  rewrite (@indexOfPosition_eval T order pos dir (dropCache l) node info vb
             bw Hnode (Hinfo (dropCache l) eq_refl)
             (Hvb (dropCache l) eq_refl) (Hbw (dropCache l) eq_refl)).
  cbv zeta. cbn [fst snd dropCache cachedIndexNode sameNodeOpt].
  destruct (sameNodeOpt (cachedIndexNode l) node) eqn:Hhit.
  - rewrite (@indexOfPosition_eval T order pos dir l node info vb bw Hnode
               (Hinfo l eq_refl) (Hvb l eq_refl) (Hbw l eq_refl)).
    cbv zeta. rewrite Hhit.
    unfold cacheValid in Hvalid.
    destruct (cachedIndexNode l) as [n |]; [| discriminate].
    cbn [sameNodeOpt] in Hhit. destruct Hvalid as [Hkn Hwalk].
    assert (n = node).
    { apply (known_sameNode order n node Hkn); [| exact Hhit].
      exact (known_of_lookup order Hwf pos node Hnode). }
    subst n. rewrite (Hbw l eq_refl) in Hwalk. cbn [fst] in Hwalk.
    injection Hwalk as ->. reflexivity.
  - set (l1 := {| state := state l; cachedIndexNode := Some node;
                  cachedIndex := bw |}).
    rewrite (@indexOfPosition_eval T order pos dir l1 node info vb bw Hnode
               (Hinfo l1 eq_refl) (Hvb l1 eq_refl) (Hbw l1 eq_refl)).
    cbv zeta. subst l1. cbn [cachedIndexNode cachedIndex sameNodeOpt].
    rewrite sameNode_refl. reflexivity.
Qed.

End RepeatFacts.

(** ** The cache is never stale *)

Section CacheClaim.

Context {T : Type}.

Lemma reachable_neverStale (order : Order) (l : ItemList T) :
  reachable order l -> neverStale order l.
Proof.
  intros Hreach.
  pose proof (reachable_built order l Hreach) as Hbuilt.
  split; [exact (built_cache Hbuilt) |].
  intros pos dir.
  exact (indexOfPosition_dropCache order (built_order Hbuilt) l pos dir
           (built_cache Hbuilt)).
Qed.

(** C6, as the code has it.  Take a list the interface builds, over its
    order.  The cached index, when there is one, is the index the walk up
    the tree computes on the list as it is, so [indexOfPosition] returns
    what it returns with the cache emptied: it never reads a stale index;
    and the same holds after any mutator.  As to what the mutators do to
    the cache: a [set] of a non-empty item, and a [delete] of a non-zero
    count on a node with a record, both within the slots the root allows,
    on a position of [node], end normally and empty the cache unless [node]
    is the cached node, in which case the cached node and the cached index
    stay as they are; every other call of [set] or [delete] leaves the
    whole list as it was.  [clear] and [load] always empty the cache.
    [insertAt] and [insert] change the list through [set] alone, [insert]
    after its own call of [indexOfPosition]; with the order grown as
    [createPositions] may make it grow, the list they leave is again a list
    the interface builds. *)
Theorem cache_never_stale (order : Order) (l : ItemList T) :
  reachable order l ->
  neverStale order l
  /\ (forall pos node,
        getNodeFor order pos = Ok node ->
        (forall item : list T,
           let len := Z.of_nat (List.length item) in
           if (len =? 0)
              || (sameNode node (rootNode order)
                  && (valueIndex pos + len - 1 >? 1))
           then snd (set order pos item l) = l
           else
             isOk (fst (set order pos item l)) = true
             /\ cachedIndexNode (snd (set order pos item l))
                = (if sameNodeOpt (cachedIndexNode l) node
                   then cachedIndexNode l else None)
             /\ cachedIndex (snd (set order pos item l)) = cachedIndex l)
        /\ (forall count : Z,
              if (count =? 0)
                 || (sameNode node (rootNode order)
                     && (valueIndex pos + count - 1 >? 1))
                 || (match mapGet (state l) node with
                     | Some _ => false
                     | None => true
                     end)
              then snd (delete order pos count l) = l
              else
                isOk (fst (delete order pos count l)) = true
                /\ cachedIndexNode (snd (delete order pos count l))
                   = (if sameNodeOpt (cachedIndexNode l) node
                      then cachedIndexNode l else None)
                /\ cachedIndex (snd (delete order pos count l))
                   = cachedIndex l))
  /\ (forall pos item,
        0 <= valueIndex pos ->
        neverStale order (snd (set order pos item l)))
  /\ (forall pos count,
        0 <= valueIndex pos ->
        0 <= count ->
        neverStale order (snd (delete order pos count l)))
  /\ (cachedIndexNode (snd (clear l)) = None
      /\ neverStale order (snd (clear l)))
  /\ (forall (S : Type) (savedState : list (string * S))
             (loadArray : S -> Sparse.SparseItems T),
        cachedIndexNode (snd (load order savedState loadArray l)) = None
        /\ neverStale order (snd (load order savedState loadArray l)))
  /\ (forall createPositions index item created l',
        insertAt createPositions order index item l = (Ok created, l') ->
        l' = snd (set (fst created) (fst (snd created)) item l)
        /\ (wfOrder (fst created) ->
            extendsOrder order (fst created) ->
            0 <= valueIndex (fst (snd created)) ->
            reachable (fst created) l' /\ neverStale (fst created) l'))
  /\ (forall createPositions prevPos item created l',
        insert createPositions order prevPos item l = (Ok created, l') ->
        l' = snd (set (fst created) (fst (snd created)) item
                    (snd (indexOfPosition order prevPos SearchLeft l)))
        /\ (wfOrder (fst created) ->
            extendsOrder order (fst created) ->
            0 <= valueIndex (fst (snd created)) ->
            reachable (fst created) l' /\ neverStale (fst created) l')).
Proof.
  intros Hreach.
  split; [now apply reachable_neverStale |].
  split.
  { intros pos node Hnode.
    destruct (@cache_after_mutators T order l pos node Hnode)
      as (Hset & Hdelete & _).
    split; assumption. }
  split.
  { intros pos item Hslot. apply reachable_neverStale.
    now apply reach_set. }
  split.
  { intros pos count Hslot Hcount. apply reachable_neverStale.
    now apply reach_delete. }
  split.
  { split; [reflexivity |]. apply reachable_neverStale.
    now apply reach_clear. }
  split.
  { intros S savedState loadArray. split.
    - unfold load, bind, clear. cbv beta iota.
      apply (@loadLoop_runs T order S loadArray savedState). reflexivity.
    - apply reachable_neverStale. now apply reach_load. }
  split.
  - intros createPositions index item created l' Hrun.
    pose proof (insertAt_through_set createPositions order index item l l'
                  created Hrun) as Hl'.
    split; [exact Hl' |].
    intros Hwf' Hext Hslot.
    assert (Hreach' : reachable (fst created) l').
    { rewrite Hl'. apply reach_set; [| exact Hslot].
      now apply (reach_order (order := order)). }
    split; [exact Hreach' | now apply reachable_neverStale].
  - intros createPositions prevPos item created l' Hrun.
    pose proof (insert_through_set createPositions order prevPos item l l'
                  created Hrun) as Hl'.
    split; [exact Hl' |].
    intros Hwf' Hext Hslot.
    assert (Hreach' : reachable (fst created) l').
    { rewrite Hl'. apply reach_set; [| exact Hslot].
      apply (reach_order (order := order)); [| exact Hwf' | exact Hext].
      now apply reach_indexOfPosition. }
    split; [exact Hreach' | now apply reachable_neverStale].
Qed.

End CacheClaim.

(** ** Instances *)

Lemma rootAndChild_known (node : OrderNode) :
  known rootAndChild node -> node = root \/ node = c.
Proof.
  unfold known. cbn [getNode rootAndChild].
  destruct (String.eqb (id node) "root"); [intros H; left; congruence |].
  destruct (String.eqb (id node) "c");
    [intros H; right; congruence | discriminate].
Qed.

Lemma rootAndChild_wf : wfOrder rootAndChild.
Proof.
  constructor.
  - intros i node. cbn [getNode rootAndChild].
    destruct (String.eqb_spec i "root") as [-> |];
      [intros H; now injection H as <- |].
    destruct (String.eqb_spec i "c") as [-> |];
      [intros H; now injection H as <- | discriminate].
  - reflexivity.
  - intros node Hk Hp.
    destruct (rootAndChild_known node Hk) as [-> | ->];
      [reflexivity | discriminate].
  - intros node p Hk Hp.
    destruct (rootAndChild_known node Hk) as [-> | ->]; [discriminate |].
    injection Hp as <-. split; [reflexivity | now left].
  - intros p ch Hk Hin.
    destruct (rootAndChild_known p Hk) as [-> | ->]; cbn in Hin.
    + destruct Hin as [<- | []]. split; reflexivity.
    + destruct Hin.
  - intros p Hk.
    destruct (rootAndChild_known p Hk) as [-> | ->]; cbn.
    + constructor; [intros [] | constructor].
    + constructor.
Qed.

(** The empty list has consistent totals over every order. *)
Lemma plain_empty_consistent {T : Type} (order : Order) :
  consistent order (@PlainList.empty T).
Proof.
  assert (Hsum : forall xs, sumZ (totalAt (@PlainList.empty T)) xs = 0).
  { induction xs as [| x xs IH]; [reflexivity |].
    rewrite sumZ_cons, IH. reflexivity. }
  constructor.
  - intros node _. rewrite Hsum. reflexivity.
  - intros node _. cbn. lia.
  - intros node data H. discriminate H.
Qed.

Lemma plain_written_consistent :
  consistent rootAndChild PlainExample.written.
Proof.
  constructor.
  - intros node Hk.
    destruct (rootAndChild_known node Hk) as [-> | ->]; reflexivity.
  - intros node Hk.
    destruct (rootAndChild_known node Hk) as [-> | ->];
      vm_compute; discriminate.
  - intros node data.
    assert (Hs :
      PlainList.state PlainExample.written
      = [(c, {| PlainList.total := 1;
                PlainList.values := [Sparse.Present ["y"%string]] |});
         (root, {| PlainList.total := 1; PlainList.values := [] |})])
      by reflexivity.
    rewrite Hs. cbn [PlainList.mapGet].
    destruct (sameNode c node);
      [intros H; injection H as <-; discriminate |].
    destruct (sameNode root node);
      [intros H; injection H as <-; discriminate | discriminate].
Qed.

Lemma indexOfPosition_only_writes_cache_witness :
  getNodeFor rootAndChild (at_ c 0) = Ok c
  /\ isOk (fst (indexOfPosition rootAndChild (at_ c 0) SearchNone childSet))
     = true
  /\ state (snd (indexOfPosition rootAndChild (at_ c 0) SearchNone childSet))
     = state childSet
  /\ sameNodeOpt
       (cachedIndexNode
          (snd (indexOfPosition rootAndChild (at_ c 0) SearchNone childSet)))
       c = true.
Proof.
  split; [reflexivity |].
  exact (@indexOfPosition_only_writes_cache string rootAndChild (at_ c 0)
           SearchNone childSet c eq_refl).
Defined.

Lemma positionAt_out_of_bounds_witness :
  length rootOnly rootSet = (Ok 1, rootSet)
  /\ snd (positionAt rootOnly 5 rootSet) = rootSet
  /\ (fst (positionAt rootOnly 5 rootSet) = Throw IndexOutOfBounds
      <-> 5 < 0 \/ 1 <= 5).
Proof.
  split; [reflexivity |].
  exact (@positionAt_out_of_bounds string rootOnly 5 1 rootSet eq_refl).
Defined.

Lemma positionAt_answers_at_root_witness :
  positionAt rootAndChild 0 rootThenChild = (Ok (at_ root 0), rootThenChild)
  /\ nodeID (at_ root 0) = id (rootNode rootAndChild)
  /\ rootThenChild = rootThenChild
  /\ exists len,
       length rootAndChild rootThenChild = (Ok len, rootThenChild)
       /\ 0 <= 0 < len.
Proof.
  split; [reflexivity |].
  exact (@positionAt_answers_at_root string rootAndChild 0 rootThenChild
           rootThenChild (at_ root 0) eq_refl).
Defined.

Lemma set_fails_atomically_witness :
  fst (set rootOnly (at_ root 1) ["a"; "b"]%string empty)
  = Throw InvalidPosition
  /\ snd (set rootOnly (at_ root 1) ["a"; "b"]%string empty) = empty.
Proof.
  split; [reflexivity |].
  exact (proj1 (@set_fails_atomically string rootOnly (at_ root 1)
                  ["a"; "b"]%string empty InvalidPosition eq_refl)).
Defined.

Lemma delete_fails_atomically_witness :
  fst (delete rootOnly (at_ root 1) 2 rootSet) = Throw InvalidPosition
  /\ snd (delete rootOnly (at_ root 1) 2 rootSet) = rootSet.
Proof.
  split; [reflexivity |].
  exact (proj1 (@delete_fails_atomically string rootOnly (at_ root 1) 2
                  rootSet InvalidPosition eq_refl)).
Defined.

Lemma clear_then_read_witness :
  getNodeFor rootAndChild (at_ c 0) = Ok c
  /\ fst (length rootAndChild (snd (clear rootThenChild))) = Ok 0
  /\ fst (has rootAndChild (at_ c 0) (snd (clear rootThenChild)))
     = Ok false.
Proof.
  split; [reflexivity |].
  destruct (@clear_then_read string rootAndChild rootThenChild (at_ c 0) c
              eq_refl) as (Hlen & _ & Hhas & _).
  split; assumption.
Defined.

Lemma insertAt_out_of_bounds_witness :
  length rootOnly rootSet = (Ok 1, rootSet)
  /\ insertAt allocateInChild rootOnly 5 ["a"%string] rootSet
     = (Throw IndexOutOfBounds, rootSet).
Proof.
  split; [reflexivity |].
  apply (@insertAt_out_of_bounds string rootOnly allocateInChild 5 1
           ["a"%string] rootSet eq_refl).
  right. lia.
Defined.

Lemma get_after_set_witness :
  fst (set rootAndChild (at_ c 0) ["y"; "z"]%string empty)
  = Ok [Sparse.Absent 2]
  /\ fst (get rootAndChild (at_ c 1)
            (snd (set rootAndChild (at_ c 0) ["y"; "z"]%string empty)))
     = Ok (Some "z"%string)
  /\ fst (has rootAndChild (at_ c 1)
            (snd (set rootAndChild (at_ c 0) ["y"; "z"]%string empty)))
     = Ok true.
Proof.
  split; [reflexivity |].
  apply (@get_after_set string rootAndChild (at_ c 0) ["y"; "z"]%string
           empty c [Sparse.Absent 2] 1%nat "z"%string eq_refl).
  - intros d H. discriminate H.
  - reflexivity.
  - simpl. lia.
  - reflexivity.
Defined.

Lemma set_keeps_other_nodes_witness :
  sameNode c root = false
  /\ fst (get rootAndChild (at_ root 0)
            (snd (set rootAndChild (at_ c 0) ["y"%string] rootSet)))
     = fst (get rootAndChild (at_ root 0) rootSet)
  /\ fst (has rootAndChild (at_ root 0)
            (snd (set rootAndChild (at_ c 0) ["y"%string] rootSet)))
     = fst (has rootAndChild (at_ root 0) rootSet).
Proof.
  split; [reflexivity |].
  apply (@set_keeps_other_nodes string rootAndChild (at_ c 0) (at_ root 0)
           ["y"%string] rootSet c root eq_refl eq_refl eq_refl).
  intros d H. discriminate H.
Defined.

Lemma has_after_delete_witness :
  fst (delete rootAndChild (at_ c 0) 1 childSet)
  = Ok [Sparse.Present ["y"%string]]
  /\ fst (has rootAndChild (at_ c 0)
            (snd (delete rootAndChild (at_ c 0) 1 childSet))) = Ok false
  /\ fst (get rootAndChild (at_ c 0)
            (snd (delete rootAndChild (at_ c 0) 1 childSet))) = Ok None.
Proof.
  split; [reflexivity |].
  apply (@has_after_delete string rootAndChild (at_ c 0) 1 childSet c
           [Sparse.Present ["y"%string]] 0 eq_refl eq_refl).
  - simpl. lia.
  - lia.
Defined.

Lemma plain_set_consistent_witness :
  consistent rootAndChild (@PlainList.empty string)
  /\ consistent rootAndChild PlainExample.written.
Proof.
  split; [apply plain_empty_consistent |].
  exact (@plain_set_consistent string rootAndChild rootAndChild_wf
           (at_ c 0) ["y"%string] PlainList.empty
           (plain_empty_consistent rootAndChild)).
Defined.

Lemma plain_delete_consistent_witness :
  consistent rootAndChild PlainExample.written
  /\ consistent rootAndChild
       (snd (PlainList.delete rootAndChild (at_ c 0) 1 PlainExample.written)).
Proof.
  split; [exact plain_written_consistent |].
  exact (@plain_delete_consistent string rootAndChild rootAndChild_wf
           (at_ c 0) 1%Q PlainExample.written plain_written_consistent).
Defined.

Lemma plain_set_length_witness :
  fst (PlainList.set rootAndChild (at_ c 1) ["z"%string]
         PlainExample.written) = Ok tt
  /\ fst (PlainList.length rootAndChild
            (snd (PlainList.set rootAndChild (at_ c 1) ["z"%string]
                    PlainExample.written)))
     = Ok 2.
Proof.
  split; [reflexivity |].
  apply (@plain_set_length string rootAndChild rootAndChild_wf (at_ c 1)
           ["z"%string] PlainExample.written c eq_refl).
  - discriminate.
  - reflexivity.
Defined.

Lemma plain_delete_length_witness :
  fst (PlainList.delete rootAndChild (at_ c 0) 1 PlainExample.written)
  = Ok tt
  /\ fst (PlainList.length rootAndChild
            (snd (PlainList.delete rootAndChild (at_ c 0) 1
                    PlainExample.written)))
     = Ok 0.
Proof.
  split; [reflexivity |].
  exact (@plain_delete_length string rootAndChild rootAndChild_wf (at_ c 0)
           1%Q PlainExample.written c eq_refl eq_refl).
Defined.

Lemma plain_get_after_set_witness :
  consistent rootAndChild PlainExample.written
  /\ fst (PlainList.get rootAndChild (at_ c 2)
            (snd (PlainList.set rootAndChild (at_ c 1) ["z"; "w"]%string
                    PlainExample.written)))
     = Ok (Some "w"%string)
  /\ fst (PlainList.has rootAndChild (at_ c 2)
            (snd (PlainList.set rootAndChild (at_ c 1) ["z"; "w"]%string
                    PlainExample.written)))
     = Ok true.
Proof.
  split; [exact plain_written_consistent |].
  apply (@plain_get_after_set string rootAndChild rootAndChild_wf (at_ c 1)
           ["z"; "w"]%string PlainExample.written c 1%nat "w"%string
           plain_written_consistent eq_refl eq_refl).
  - simpl. lia.
  - reflexivity.
Defined.

Lemma plain_has_after_delete_witness :
  fst (PlainList.delete rootAndChild (at_ c 0) 1 PlainExample.written)
  = Ok tt
  /\ fst (PlainList.has rootAndChild (at_ c 0)
            (snd (PlainList.delete rootAndChild (at_ c 0) 1
                    PlainExample.written)))
     = Ok false
  /\ fst (PlainList.get rootAndChild (at_ c 0)
            (snd (PlainList.delete rootAndChild (at_ c 0) 1
                    PlainExample.written)))
     = Ok None.
Proof.
  split; [reflexivity |].
  apply (@plain_has_after_delete string rootAndChild rootAndChild_wf
           (at_ c 0) 1%Q PlainExample.written c 0 eq_refl eq_refl).
  - simpl. lia.
  - change (0 <= 0 < 1). lia.
Defined.

Lemma load_save_reads_witness :
  NoDup (recordIDs rootThenChild)
  /\ fst (load rootAndChild (save (fun arr => arr) rootThenChild)
            (fun arr => arr) childSet) = Ok tt
  /\ fst (get rootAndChild (at_ c 0)
            (snd (load rootAndChild (save (fun arr => arr) rootThenChild)
                    (fun arr => arr) childSet)))
     = fst (get rootAndChild (at_ c 0) rootThenChild)
  /\ fst (has rootAndChild (at_ c 0)
            (snd (load rootAndChild (save (fun arr => arr) rootThenChild)
                    (fun arr => arr) childSet)))
     = fst (has rootAndChild (at_ c 0) rootThenChild).
Proof.
  assert (Hnd : NoDup (recordIDs rootThenChild)).
  { change (NoDup ["root"; "c"]%string).
    constructor; [intros [H | []]; discriminate H |].
    constructor; [intros [] | constructor]. }
  split; [exact Hnd |].
  apply (@load_save_reads string rootAndChild (Sparse.SparseItems string)
           (fun arr => arr) (fun arr => arr) rootThenChild childSet
           (at_ c 0) (fun arr => eq_refl)
           (@wf_lookup rootAndChild rootAndChild_wf) Hnd eq_refl).
  simpl. lia.
Defined.

Lemma ValueList_delete_valid_count_witness :
  Qle_bool 0 1 = true
  /\ ValueList.isInteger 1 = true
  /\ snd (ValueList.delete rootAndChild (at_ c 0) 1 childSet)
     = snd (delete rootAndChild (at_ c 0) 1 childSet)
  /\ fst (ValueList.delete rootAndChild (at_ c 0) 1 childSet) = Ok tt.
Proof.
  split; [reflexivity |]. split; [reflexivity |].
  exact (@ValueList_delete_valid_count string rootAndChild (at_ c 0) 1%Q
           childSet eq_refl eq_refl).
Defined.

Lemma rootAndChild_depth (x : OrderNode) :
  known rootAndChild x -> (depth x <= 1)%nat.
Proof.
  intros Hk. destruct (rootAndChild_known x Hk) as [-> | ->]; cbn; lia.
Qed.

Lemma rootThenChild_regular (node : OrderNode) (d : NodeData string) :
  mapGet (state rootThenChild) node = Some d -> regularRuns (values d).
Proof.
  assert (Hs :
    state rootThenChild
    = [(root, {| total := 1; parentValuesBefore := 0;
                 values := [Sparse.Present ["x"%string]] |});
       (c, {| total := 2; parentValuesBefore := 1;
              values := [Sparse.Present ["y"%string]] |})])
    by reflexivity.
  rewrite Hs. cbn [mapGet].
  destruct (sameNode root node);
    [intros H; injection H as <-; repeat constructor |].
  destruct (sameNode c node);
    [intros H; injection H as <-; repeat constructor | discriminate].
Qed.

Lemma entries_yields_present_witness :
  exists out,
    entries rootAndChild 4 rootThenChild None None = Some out
    /\ forall pos v,
         In (pos, v) out ->
         fst (get rootAndChild pos rootThenChild) = Ok (Some v)
         /\ fst (has rootAndChild pos rootThenChild) = Ok true.
Proof.
  exact (@entries_yields_present string rootAndChild rootAndChild_wf 1%nat
           rootAndChild_depth rootThenChild rootThenChild_regular
           None None).
Defined.

Lemma normalizeSliceRange_range_witness :
  0 <= 5
  /\ normalizeSliceRange 5 (Some (-2)) None = Some (3, 5)
  /\ normalizeSliceRange 5 (Some 1) (Some 4) = Some (1, 4).
Proof.
  split; [lia |].
  destruct (normalizeSliceRange_range 5 (Some (-2)) None ltac:(lia))
    as (_ & Hfixed & _).
  split; [reflexivity |].
  apply Hfixed; lia.
Defined.

Lemma plain_set_keeps_other_nodes_witness :
  consistent rootAndChild PlainExample.written
  /\ sameNode c root = false
  /\ fst (PlainList.get rootAndChild (at_ root 0)
            (snd (PlainList.set rootAndChild (at_ c 1) ["z"%string]
                    PlainExample.written)))
     = fst (PlainList.get rootAndChild (at_ root 0) PlainExample.written)
  /\ fst (PlainList.has rootAndChild (at_ root 0)
            (snd (PlainList.set rootAndChild (at_ c 1) ["z"%string]
                    PlainExample.written)))
     = fst (PlainList.has rootAndChild (at_ root 0) PlainExample.written).
Proof.
  split; [exact plain_written_consistent |]. split; [reflexivity |].
  apply (@plain_set_keeps_other_nodes string rootAndChild rootAndChild_wf
           (at_ c 1) (at_ root 0) ["z"%string] PlainExample.written c root
           plain_written_consistent eq_refl eq_refl eq_refl).
  simpl. lia.
Defined.

Lemma plain_delete_keeps_other_nodes_witness :
  consistent rootAndChild PlainExample.written
  /\ sameNode c root = false
  /\ fst (PlainList.get rootAndChild (at_ root 0)
            (snd (PlainList.delete rootAndChild (at_ c 0) 1
                    PlainExample.written)))
     = fst (PlainList.get rootAndChild (at_ root 0) PlainExample.written)
  /\ fst (PlainList.has rootAndChild (at_ root 0)
            (snd (PlainList.delete rootAndChild (at_ c 0) 1
                    PlainExample.written)))
     = fst (PlainList.has rootAndChild (at_ root 0) PlainExample.written).
Proof.
  split; [exact plain_written_consistent |]. split; [reflexivity |].
  apply (@plain_delete_keeps_other_nodes string rootAndChild rootAndChild_wf
           (at_ c 0) (at_ root 0) 1%Q PlainExample.written c root
           plain_written_consistent eq_refl eq_refl eq_refl).
  simpl. lia.
Defined.

Lemma save_load_save_witness :
  forallb (knownID rootAndChild) (recordIDs rootThenChild) = true
  /\ save (fun arr => arr)
       (snd (load rootAndChild (save (fun arr => arr) rootThenChild)
               (fun arr => arr) childSet))
     = save (fun arr => arr) rootThenChild.
Proof.
  split; [reflexivity |].
  exact (@save_load_save string rootAndChild (Sparse.SparseItems string)
           (fun arr => arr) (fun arr => arr) rootThenChild childSet
           (fun arr => eq_refl) (@wf_lookup rootAndChild rootAndChild_wf)
           eq_refl).
Defined.

Lemma plain_onUpdate_totals_witness :
  known rootAndChild c
  /\ fst (PlainList.onUpdate c (-1) PlainExample.written) = Ok tt
  /\ PlainList.mapGet
       (PlainList.state (snd (PlainList.onUpdate c (-1) PlainExample.written)))
       root
     = None
  /\ PlainList.mapGet
       (PlainList.state
          (snd (PlainList.onUpdate c 1 (@PlainList.empty string))))
       root
     = Some {| PlainList.total := 1; PlainList.values := [] |}.
Proof.
  split; [reflexivity |].
  destruct (@plain_onUpdate_totals string rootAndChild rootAndChild_wf c (-1)
              PlainExample.written eq_refl) as (Hok & Hrecords).
  split; [exact Hok |]. split; [exact (Hrecords root) |].
  exact (proj2 (@plain_onUpdate_totals string rootAndChild rootAndChild_wf c
                  1 PlainList.empty eq_refl) root).
Defined.

Lemma indexOfPosition_repeat_witness :
  cacheValid rootAndChild childCached
  /\ indexOfPosition rootAndChild (at_ c 0) SearchLeft
       (snd (indexOfPosition rootAndChild (at_ c 0) SearchRight childCached))
     = (fst (indexOfPosition rootAndChild (at_ c 0) SearchLeft
               (dropCache childCached)),
        snd (indexOfPosition rootAndChild (at_ c 0) SearchRight
               childCached)).
Proof.
  assert (Hvalid : cacheValid rootAndChild childCached)
    by (split; reflexivity).
  split; [exact Hvalid |].
  exact (@indexOfPosition_repeat string rootAndChild rootAndChild_wf
           (at_ c 0) SearchLeft SearchRight childCached Hvalid).
Defined.

Lemma rootOnly_wf : wfOrder rootOnly.
Proof.
  assert (Hknown : forall node, known rootOnly node -> node = root).
  { intros node. unfold known. cbn [getNode rootOnly].
    destruct (String.eqb (id node) "root"); [congruence | discriminate]. }
  constructor.
  - intros i node. cbn [getNode rootOnly].
    destruct (String.eqb_spec i "root") as [-> |];
      [intros H; now injection H as <- | discriminate].
  - reflexivity.
  - intros node Hk _. now apply Hknown.
  - intros node p Hk Hp. rewrite (Hknown node Hk) in Hp. discriminate.
  - intros p ch _ Hin. destruct Hin.
  - intros p _. constructor.
Qed.

(** Adding the node [c] under the root grows the order as
    [createPositions] may. *)
Lemma rootOnly_extends : extendsOrder rootOnly rootAndChild.
Proof.
  constructor.
  - reflexivity.
  - intros i node. cbn [getNode rootOnly rootAndChild].
    destruct (String.eqb i "root"); [trivial | discriminate].
  - intros p _. cbn [getChildren rootOnly rootAndChild].
    destruct (String.eqb (id p) "root"); reflexivity.
Qed.

Lemma cache_never_stale_witness :
  reachable rootAndChild
    (after (set rootAndChild (at_ c 1) ["z"%string]) childCached)
  /\ sameNodeOpt
       (cachedIndexNode
          (after (set rootAndChild (at_ c 1) ["z"%string]) childCached)) c
     = true
  /\ fst (indexOfPosition rootAndChild (at_ c 1) SearchNone
            (after (set rootAndChild (at_ c 1) ["z"%string]) childCached))
     = fst (indexOfPosition rootAndChild (at_ c 1) SearchNone
              (dropCache
                 (after (set rootAndChild (at_ c 1) ["z"%string])
                    childCached)))
  /\ isOk (fst (insertAt allocateNewChild rootOnly 0 ["a"%string] empty))
     = true
  /\ reachable rootAndChild
       (after (insertAt allocateNewChild rootOnly 0 ["a"%string]) empty)
  /\ neverStale rootAndChild
       (after (insertAt allocateNewChild rootOnly 0 ["a"%string]) empty).
Proof.
  assert (Hreach :
    reachable rootAndChild
      (after (set rootAndChild (at_ c 1) ["z"%string]) childCached)).
  { apply (@reach_set string rootAndChild childCached (at_ c 1)
             ["z"%string]); [| simpl; lia].
    apply (@reach_indexOfPosition string rootAndChild childSet (at_ c 0)
             SearchNone).
    apply (@reach_set string rootAndChild empty (at_ c 0) ["y"%string]);
      [| simpl; lia].
    exact (@reach_new string rootAndChild rootAndChild_wf). }
  split; [exact Hreach |]. split; [reflexivity |].
  split.
  { exact (proj2 (proj1 (@cache_never_stale string rootAndChild _ Hreach))
             (at_ c 1) SearchNone). }
  split; [reflexivity |].
  destruct (@cache_never_stale string rootOnly empty
              (@reach_new string rootOnly rootOnly_wf))
    as (_ & _ & _ & _ & _ & _ & HinsertAt & _).
  refine (proj2 (HinsertAt allocateNewChild 0 ["a"%string]
                   (rootAndChild, (at_ c 0, Some c))
                   (after (insertAt allocateNewChild rootOnly 0
                             ["a"%string]) empty)
                   eq_refl)
            rootAndChild_wf rootOnly_extends _).
  simpl. lia.
Defined.
